(** * Transaction-history SDK: request governing, normalisation and caching core

    A shallow embedding of the TypeScript sources
      - [src/errors/index.ts]              (the error classes)
      - [src/utils/retry.ts]               (retryWithBackoff)
      - [src/utils/rate-limiter.ts]        (RateLimiter)
      - [src/utils/validation.ts]          (address formats, normalisation)
      - [src/cache/memory-cache.ts], [src/cache/transaction-cache.ts]
      - [src/utils/http.ts]                (httpRequest)
      - [src/providers/ethereum.ts], [src/providers/solana.ts]
      - [src/adapters/ethereum.ts], [src/adapters/solana.ts]
      - [src/client.ts]                    (BlockchainSDK)
    followed by the properties stated about them.

    Conventions.
    - A JavaScript [number] used as a counter, a status code, a delay or a
      timestamp in milliseconds is a [Z]; a field that may be [undefined] or
      [null] is an [option]; the idioms [x || d] and [if (x)] are written
      out with JavaScript's truthiness ([0] and the empty string are falsy).
      A number that may be [NaN] after [parseInt] is an [option Z].
    - The token counts of the rate limiter may be fractional, [Infinity] or
      [NaN]; they are values of [JsNum.num], whose finite part is exact
      rational arithmetic.
    - A promise-returning function is a function from the world to the world
      and either the rejection or the value.  [Date.now()] is an argument of
      the code that reads it, or the clock of the world.
    - The global [fetch], the rate limiter's admission inside a provider,
      [parseInt] and [BigInt] are parameters (record [Environment.Env]).
    - Log lines keep their level and message; the structured context of a
      log line and of errors other than its string-valued entries is left
      out. *)

From Stdlib Require Import ZArith QArith Qround Lqa Lia List String Ascii Bool
  DecimalString Permutation Sorted.
Import ListNotations.

Local Open Scope Z_scope.

(* ------------------------------------------------------------------ *)
(** ** Errors ([src/errors/index.ts]) *)

Module Errors.

(** The context payload is a [Record<string, unknown>]; its string-valued
    entries are kept, in the order in which the object literal lists
    them. *)
Definition Context := list (string * string).

Inductive SDKError : Type :=
| NetworkError (message : string)
| ValidationError (message : string) (context : Context)
| RateLimitError (message : string) (retryAfter : option Z)
| ProviderError (message : string) (provider : option string)
                (statusCode : option Z)
| ConfigurationError (message : string) (context : Context)
| PlainError (message : string)
| ThrownUndefined.
(** [PlainError] stands for a thrown [Error] that is no [SDKError]
    (a built-in [Error], a [TypeError], ...), [ThrownUndefined] for the
    value [undefined] when it is thrown. *)

Definition code (e : SDKError) : string :=
  match e with
  | NetworkError _ => "NETWORK_ERROR"
  | ValidationError _ _ => "VALIDATION_ERROR"
  | RateLimitError _ _ => "RATE_LIMIT_ERROR"
  | ProviderError _ _ _ => "PROVIDER_ERROR"
  | ConfigurationError _ _ => "CONFIGURATION_ERROR"
  | PlainError _ | ThrownUndefined => ""
  end%string.

(** [error instanceof Error ? error.message : String(error)] *)
Definition message (e : SDKError) : string :=
  match e with
  | NetworkError m | ValidationError m _ | RateLimitError m _
  | ProviderError m _ _ | ConfigurationError m _ | PlainError m => m
  | ThrownUndefined => "undefined"
  end.

Definition isProviderError (e : SDKError) : bool :=
  match e with ProviderError _ _ _ => true | _ => false end.

Definition isValidationError (e : SDKError) : bool :=
  match e with ValidationError _ _ => true | _ => false end.

Definition statusCodeOf (e : SDKError) : option Z :=
  match e with ProviderError _ _ c => c | _ => None end.

Fixpoint lookupCtx (k : string) (c : Context) : option string :=
  match c with
  | [] => None
  | (k', v) :: c' => if String.eqb k k' then Some v else lookupCtx k c'
  end.

Definition contextOf (e : SDKError) : Context :=
  match e with
  | ValidationError _ c | ConfigurationError _ c => c
  | _ => []
  end.

End Errors.
Import Errors.

(* ------------------------------------------------------------------ *)
(** ** Retry with exponential backoff ([src/utils/retry.ts]) *)

Module Retry.

(** [RetryConfig]: every field optional. *)
Record RetryConfig : Type := mkRetryConfig {
  maxRetries : option Z;
  initialDelay : option Z;
  maxDelay : option Z;
  backoffMultiplier : option Z;
  retryableStatusCodes : option (list Z)
}.

(** [Required<RetryConfig>]. *)
Record RequiredRetryConfig : Type := mkRequired {
  r_maxRetries : Z;
  r_initialDelay : Z;
  r_maxDelay : Z;
  r_backoffMultiplier : Z;
  r_retryableStatusCodes : list Z
}.

Definition DEFAULT_RETRY_CONFIG : RequiredRetryConfig :=
  {| r_maxRetries := 3;
     r_initialDelay := 1000;
     r_maxDelay := 10000;
     r_backoffMultiplier := 2;
     r_retryableStatusCodes := [408; 429; 500; 502; 503; 504] |}.

Definition emptyConfig : RetryConfig :=
  mkRetryConfig None None None None None.

Definition orDefault {A} (o : option A) (d : A) : A :=
  match o with Some a => a | None => d end.

(** [{ ...DEFAULT_RETRY_CONFIG, ...config }].  [None] is a field that is
    absent from [config]; a field present with the value [undefined]
    (which the spread would copy over the default) is not represented. *)
Definition spread (config : RetryConfig) : RequiredRetryConfig :=
  let d := DEFAULT_RETRY_CONFIG in
  {| r_maxRetries := orDefault (maxRetries config) (r_maxRetries d);
     r_initialDelay := orDefault (initialDelay config) (r_initialDelay d);
     r_maxDelay := orDefault (maxDelay config) (r_maxDelay d);
     r_backoffMultiplier :=
       orDefault (backoffMultiplier config) (r_backoffMultiplier d);
     r_retryableStatusCodes :=
       orDefault (retryableStatusCodes config) (r_retryableStatusCodes d) |}.

(** [Math.min(initialDelay * Math.pow(backoffMultiplier, attempt), maxDelay)]
    on integer fields, computed exactly.  The doubles of the code agree
    with it as long as the product stays below 2^53; beyond, the product is
    rounded, and once [Math.pow] overflows it is [Infinity] (the result is
    then [maxDelay], as here) unless [initialDelay] is 0, when it is
    [NaN]. *)
Definition calculateDelay (attempt : Z) (config : RequiredRetryConfig) : Z :=
  let delay := r_initialDelay config * r_backoffMultiplier config ^ attempt in
  Z.min delay (r_maxDelay config).

(** The configuration is received and not consulted. *)
Definition isRetryableError (error : SDKError) (config : RequiredRetryConfig)
  : bool :=
  match error with
  | NetworkError _ => true
  | RateLimitError _ _ => true
  | _ => false
  end.

(** [error instanceof RateLimitError && error.retryAfter]: the value of
    [retryAfter] when the conjunction is truthy. *)
Definition truthyRetryAfter (error : SDKError) : option Z :=
  match error with
  | RateLimitError _ (Some s) => if s =? 0 then None else Some s
  | _ => None
  end.

(** The delay waited after catching [error] at attempt [attempt]. *)
Definition delayBeforeRetry (attempt : Z) (error : SDKError)
           (config : RequiredRetryConfig) : Z :=
  let delay := calculateDelay attempt config in
  match truthyRetryAfter error with
  | Some s => s * 1000
  | None => delay
  end.

Inductive Outcome (T : Type) : Type :=
| Resolved (v : T)
| Rejected (e : SDKError)
| OutOfFuel.
Arguments Resolved {T} v.
Arguments Rejected {T} e.
Arguments OutOfFuel {T}.

(** What one call of [retryWithBackoff] did: the world it leaves, how it
    settled, how often it invoked [fn], the errors it caught (oldest
    first) and the delays it slept (oldest first). *)
Record Run (W T : Type) : Type := mkRun {
  final : W;
  outcome : Outcome T;
  invocations : nat;
  caught : list SDKError;
  waits : list Z
}.
Arguments mkRun {W T}.
Arguments final {W T}.
Arguments outcome {W T}.
Arguments invocations {W T}.
Arguments caught {W T}.
Arguments waits {W T}.

Section WithOperation.
Context {W T : Type}.

(** [fn : () => Promise<T>] acting on the world [W]. *)
Variable fn : W -> W * (SDKError + T).

(** [await new Promise((resolve) => setTimeout(resolve, delay))] *)
Variable sleep : Z -> W -> W.

(** The [while (attempt <= retryConfig.maxRetries)] loop.  [n], [es] and
    [ds] accumulate the instrumentation of [Run]. *)
Fixpoint loop (fuel : nat) (retryConfig : RequiredRetryConfig)
         (attempt : Z) (lastError : option SDKError)
         (w : W) (n : nat) (es : list SDKError) (ds : list Z)
  : Run W T :=
  if attempt <=? r_maxRetries retryConfig then
    match fuel with
    | O => mkRun w OutOfFuel n es ds
    | S fuel' =>
        match fn w with
        | (w1, inr v) => mkRun w1 (Resolved v) (S n) es ds
        | (w1, inl error) =>
            if negb (isRetryableError error retryConfig) then
              mkRun w1 (Rejected error) (S n) (es ++ [error]) ds
            else if attempt >=? r_maxRetries retryConfig then
              (* break; throw lastError *)
              mkRun w1 (Rejected error) (S n) (es ++ [error]) ds
            else
              let delay := delayBeforeRetry attempt error retryConfig in
              loop fuel' retryConfig (attempt + 1) (Some error)
                   (sleep delay w1) (S n) (es ++ [error]) (ds ++ [delay])
        end
    end
  else
    (* [throw lastError]; nothing was caught when it is unset *)
    match lastError with
    | Some e => mkRun w (Rejected e) n es ds
    | None => mkRun w (Rejected ThrownUndefined) n es ds
    end.

Definition retryWithBackoff (config : RetryConfig) (w : W) : Run W T :=
  let retryConfig := spread config in
  loop (Z.to_nat (r_maxRetries retryConfig + 1)) retryConfig 0 None
       w 0%nat [] [].

End WithOperation.

End Retry.

(* ------------------------------------------------------------------ *)
(** ** JavaScript numbers, as far as the rate limiter needs them

    Finite values are exact rationals (rounding is abstracted away); the
    special values [Infinity], [-Infinity] and [NaN] follow IEEE 754 as
    ECMAScript prescribes: [0 * Infinity] and [Infinity - Infinity] are
    [NaN], [NaN] is absorbing for [+], [*], [Math.min] and [Math.max], and
    every comparison with [NaN] is false. *)

Module JsNum.

Inductive num : Type :=
| Fin (q : Q)
| PInf
| NInf
| NaN.

Definition ofZ (z : Z) : num := Fin (inject_Z z).

Definition neg (a : num) : num :=
  match a with
  | Fin q => Fin (- q)%Q
  | PInf => NInf
  | NInf => PInf
  | NaN => NaN
  end.

Definition add (a b : num) : num :=
  match a, b with
  | NaN, _ | _, NaN => NaN
  | Fin x, Fin y => Fin (x + y)%Q
  | PInf, NInf | NInf, PInf => NaN
  | PInf, _ | _, PInf => PInf
  | NInf, _ | _, NInf => NInf
  end.

Definition sub (a b : num) : num := add a (neg b).

(** The product of a finite value and an infinity takes the sign of the
    finite factor and is [NaN] when that factor is zero. *)
Definition scaleInf (x : Q) (positive : bool) : num :=
  match (x ?= 0)%Q with
  | Eq => NaN
  | Gt => if positive then PInf else NInf
  | Lt => if positive then NInf else PInf
  end.

Definition mul (a b : num) : num :=
  match a, b with
  | NaN, _ | _, NaN => NaN
  | Fin x, Fin y => Fin (x * y)%Q
  | Fin x, PInf | PInf, Fin x => scaleInf x true
  | Fin x, NInf | NInf, Fin x => scaleInf x false
  | PInf, PInf | NInf, NInf => PInf
  | PInf, NInf | NInf, PInf => NInf
  end.

(** [Math.min(a, b)] *)
Definition min (a b : num) : num :=
  match a, b with
  | NaN, _ | _, NaN => NaN
  | NInf, _ | _, NInf => NInf
  | PInf, x | x, PInf => x
  | Fin x, Fin y => if Qle_bool x y then Fin x else Fin y
  end.

(** [Math.max(a, b)] *)
Definition max (a b : num) : num :=
  match a, b with
  | NaN, _ | _, NaN => NaN
  | PInf, _ | _, PInf => PInf
  | NInf, x | x, NInf => x
  | Fin x, Fin y => if Qle_bool x y then Fin y else Fin x
  end.

(** [a <= b] *)
Definition leb (a b : num) : bool :=
  match a, b with
  | NaN, _ | _, NaN => false
  | NInf, _ | _, PInf => true
  | Fin x, Fin y => Qle_bool x y
  | _, _ => false
  end.

(** [a >= b] *)
Definition geb (a b : num) : bool := leb b a.

(** [a < b] *)
Definition ltb (a b : num) : bool :=
  match a, b with
  | NaN, _ | _, NaN => false
  | PInf, _ | _, NInf => false
  | NInf, _ | _, PInf => true
  | Fin x, Fin y => negb (Qle_bool y x)
  end.

(** Truthiness of a number: [0] and [NaN] are falsy. *)
Definition truthy (a : num) : bool :=
  match a with
  | NaN => false
  | Fin q => negb (Qeq_bool q 0)
  | _ => true
  end.

(** [a || b] on numbers, [a] possibly [undefined]. *)
Definition orElse (a : option num) (b : num) : num :=
  match a with
  | Some x => if truthy x then x else b
  | None => b
  end.

Definition isFinite (a : num) : bool :=
  match a with Fin _ => true | _ => false end.

End JsNum.

(* ------------------------------------------------------------------ *)
(** ** Token-bucket rate limiter ([src/utils/rate-limiter.ts]) *)

Module RateLimiter.
Import JsNum.

Record RateLimiterConfig : Type := mkConfig {
  cfg_requestsPerSecond : option num;
  cfg_requestsPerMinute : option num;
  cfg_enabled : option bool
}.

(** A queued request: the pair of callbacks of one pending [acquire],
    named by the caller's identifier. *)
Definition Waiter := nat.

Record State : Type := mkState {
  requestsPerSecond : num;
  requestsPerMinute : num;
  enabled : bool;
  secondTokens : num;
  secondLastRefill : Z;
  minuteTokens : num;
  minuteLastRefill : Z;
  queue : list Waiter;
  processing : bool
}.

(** [new RateLimiter(config)]; [t1], [t2] are the two readings of
    [Date.now()]. *)
Definition constructor (config : RateLimiterConfig) (t1 t2 : Z) : State :=
  let rps := orElse (cfg_requestsPerSecond config) PInf in
  let rpm := orElse (cfg_requestsPerMinute config) PInf in
  {| requestsPerSecond := rps;
     requestsPerMinute := rpm;
     enabled := match cfg_enabled config with
                | Some false => false
                | _ => true
                end;
     secondTokens := rps;
     secondLastRefill := t1;
     minuteTokens := rpm;
     minuteLastRefill := t2;
     queue := [];
     processing := false |}.

(** [(now - last) / unit] *)
Definition elapsed (now last unit : Z) : Q :=
  (inject_Z (now - last) / inject_Z unit)%Q.

(** [refillTokens()]; a partial refill is computed in exact rationals, where
    the code rounds to doubles. *)
Definition refillTokens (now : Z) (st : State) : State :=
  let secondsElapsed := elapsed now (secondLastRefill st) 1000 in
  let st1 :=
    if Qle_bool 1 secondsElapsed then
      {| requestsPerSecond := requestsPerSecond st;
         requestsPerMinute := requestsPerMinute st;
         enabled := enabled st;
         secondTokens := requestsPerSecond st;
         secondLastRefill := now;
         minuteTokens := minuteTokens st;
         minuteLastRefill := minuteLastRefill st;
         queue := queue st;
         processing := processing st |}
    else
      let tokensToAdd := mul (Fin secondsElapsed) (requestsPerSecond st) in
      {| requestsPerSecond := requestsPerSecond st;
         requestsPerMinute := requestsPerMinute st;
         enabled := enabled st;
         secondTokens :=
           min (requestsPerSecond st) (add (secondTokens st) tokensToAdd);
         secondLastRefill := secondLastRefill st;
         minuteTokens := minuteTokens st;
         minuteLastRefill := minuteLastRefill st;
         queue := queue st;
         processing := processing st |} in
  let minutesElapsed := elapsed now (minuteLastRefill st1) 60000 in
  if Qle_bool 1 minutesElapsed then
    {| requestsPerSecond := requestsPerSecond st1;
       requestsPerMinute := requestsPerMinute st1;
       enabled := enabled st1;
       secondTokens := secondTokens st1;
       secondLastRefill := secondLastRefill st1;
       minuteTokens := requestsPerMinute st1;
       minuteLastRefill := now;
       queue := queue st1;
       processing := processing st1 |}
  else
    let tokensToAdd := mul (Fin minutesElapsed) (requestsPerMinute st1) in
    {| requestsPerSecond := requestsPerSecond st1;
       requestsPerMinute := requestsPerMinute st1;
       enabled := enabled st1;
       secondTokens := secondTokens st1;
       secondLastRefill := secondLastRefill st1;
       minuteTokens :=
         min (requestsPerMinute st1) (add (minuteTokens st1) tokensToAdd);
       minuteLastRefill := minuteLastRefill st1;
       queue := queue st1;
       processing := processing st1 |}.

Definition canMakeRequest (now : Z) (st : State) : bool * State :=
  if negb (enabled st) then (true, st)
  else
    let st' := refillTokens now st in
    (geb (secondTokens st') (ofZ 1) && geb (minuteTokens st') (ofZ 1), st').

Definition consumeTokens (st : State) : State :=
  if negb (enabled st) then st
  else
    {| requestsPerSecond := requestsPerSecond st;
       requestsPerMinute := requestsPerMinute st;
       enabled := enabled st;
       secondTokens := max (ofZ 0) (sub (secondTokens st) (ofZ 1));
       secondLastRefill := secondLastRefill st;
       minuteTokens := max (ofZ 0) (sub (minuteTokens st) (ofZ 1));
       minuteLastRefill := minuteLastRefill st;
       queue := queue st;
       processing := processing st |}.

Definition Qmax0 (q : Q) : Q := if Qle_bool 0 q then q else 0%Q.
Definition Qmax2 (a b : Q) : Q := if Qle_bool a b then b else a.

(** [calculateDelay()]; [now1] is read by [refillTokens], [now2] by the
    method itself.  The delays are finite, so they are computed in [Q];
    the result of [Math.ceil] is an integer. *)
Definition calculateDelay (now1 now2 : Z) (st : State) : Z * State :=
  if negb (enabled st) then (0, st)
  else
    let st' := refillTokens now1 st in
    let maxDelay0 := 0%Q in
    let maxDelay1 :=
      if ltb (secondTokens st') (ofZ 1) then
        let secondsUntilRefill :=
          (1 - elapsed now2 (secondLastRefill st') 1000)%Q in
        let delay := Qmax0 (secondsUntilRefill * 1000)%Q in
        Qmax2 maxDelay0 delay
      else maxDelay0 in
    let maxDelay2 :=
      if ltb (minuteTokens st') (ofZ 1) then
        let minutesUntilRefill :=
          (1 - elapsed now2 (minuteLastRefill st') 60000)%Q in
        let delay := Qmax0 (minutesUntilRefill * 60000)%Q in
        Qmax2 maxDelay1 delay
      else maxDelay1 in
    if Qeq_bool maxDelay2 0
       && (ltb (secondTokens st') (ofZ 1) || ltb (minuteTokens st') (ofZ 1))
    then (10, st')
    else (Qceiling maxDelay2, st').

Definition tryAcquire (now : Z) (st : State) : bool * State :=
  if negb (enabled st) then (true, st)
  else
    let (ok, st') := canMakeRequest now st in
    if ok then (true, consumeTokens st') else (false, st').

Definition withQueue (q : list Waiter) (p : bool) (st : State) : State :=
  {| requestsPerSecond := requestsPerSecond st;
     requestsPerMinute := requestsPerMinute st;
     enabled := enabled st;
     secondTokens := secondTokens st;
     secondLastRefill := secondLastRefill st;
     minuteTokens := minuteTokens st;
     minuteLastRefill := minuteLastRefill st;
     queue := q;
     processing := p |}.

(** What the service loop tells the outside. *)
Inductive Event : Type :=
| Admit (who : Waiter)          (* [item.resolve()] *)
| Sleep (ms : Z)                (* [setTimeout(resolve, delay)] *)
| Fault (who : Waiter).         (* [item.reject(new Error(...))] *)

Definition maxIterations : nat := 1000.

(** The [while (queue.length > 0 && iterations < maxIterations)] loop of
    [processQueue], run without interleaved callers (the loop with the
    callers that arrive while it sleeps is [RateLimiterWithArrivals]).  [clock k] is the
    [k]-th reading of [Date.now()]; [fuel] is [maxIterations - iterations]. *)
Fixpoint serviceLoop (fuel : nat) (clock : nat -> Z) (k : nat)
         (st : State) (log : list Event) : State * list Event :=
  match fuel with
  | O => (st, log)
  | S fuel' =>
      match queue st with
      | [] => (st, log)
      | item :: rest =>
          let (ok, st1) := canMakeRequest (clock k) st in
          if ok then
            let st2 := consumeTokens (withQueue rest (processing st1) st1) in
            serviceLoop fuel' clock (S k) st2 (log ++ [Admit item])
          else
            let (d, st2) :=
              calculateDelay (clock (S k)) (clock (S (S k))) st1 in
            let delay := Z.max d 10 in
            serviceLoop fuel' clock (S (S (S k))) st2 (log ++ [Sleep delay])
      end
  end.

Definition processQueue (clock : nat -> Z) (st : State)
  : State * list Event :=
  if processing st || (List.length (queue st) =? 0)%nat then (st, [])
  else
    let st0 := withQueue (queue st) true st in
    let (st1, log) := serviceLoop maxIterations clock 0%nat st0 [] in
    let st2 := withQueue (queue st1) false st1 in
    (* the loop leaves a non-empty queue only when the cap was reached *)
    (withQueue [] false st2, log ++ map Fault (queue st2)).

(** [acquire()] of caller [who]. *)
Definition acquire (who : Waiter) (clock : nat -> Z) (st : State)
  : State * list Event :=
  if negb (enabled st) then (st, [Admit who])
  else processQueue clock (withQueue (queue st ++ [who]) (processing st) st).

Definition reset (t1 t2 : Z) (st : State) : State :=
  {| requestsPerSecond := requestsPerSecond st;
     requestsPerMinute := requestsPerMinute st;
     enabled := enabled st;
     secondTokens := requestsPerSecond st;
     secondLastRefill := t1;
     minuteTokens := requestsPerMinute st;
     minuteLastRefill := t2;
     queue := [];
     processing := false |}.

(** The operations a client or the service loop performs on the token
    state, each with the clock readings it makes. *)
Inductive Op : Type :=
| OpAcquire (who : Waiter) (clock : nat -> Z)
| OpTryAcquire (now : Z)
| OpRefill (now : Z)
| OpConsume.

Definition apply (op : Op) (st : State) : State :=
  match op with
  | OpAcquire who clock => fst (acquire who clock st)
  | OpTryAcquire now => snd (tryAcquire now st)
  | OpRefill now => refillTokens now st
  | OpConsume => consumeTokens st
  end.

Definition runOps (ops : list Op) (st : State) : State :=
  fold_left (fun s op => apply op s) ops st.

(** [n] calls of [tryAcquire], all at clock reading [now]; the answers,
    oldest first, and the state left. *)
Fixpoint burst (n : nat) (now : Z) (st : State) : list bool * State :=
  match n with
  | O => ([], st)
  | S n' =>
      let (b, st1) := tryAcquire now st in
      let (bs, st2) := burst n' now st1 in
      (b :: bs, st2)
  end.

End RateLimiter.

(* ------------------------------------------------------------------ *)
(** ** JavaScript strings

    Strings are sequences of 8-bit characters; the addresses, keys and
    cache keys the program handles are ASCII. *)

Module JsString.
Local Open Scope string_scope.

Definition between (lo hi c : ascii) : bool :=
  (N_of_ascii lo <=? N_of_ascii c)%N && (N_of_ascii c <=? N_of_ascii hi)%N.

Definition lowerChar (c : ascii) : ascii :=
  if between "A" "Z" c then ascii_of_N (N_of_ascii c + 32) else c.

(** [s.toLowerCase()] *)
Fixpoint toLowerCase (s : string) : string :=
  match s with
  | EmptyString => EmptyString
  | String c s' => String (lowerChar c) (toLowerCase s')
  end.

Fixpoint allChars (p : ascii -> bool) (s : string) : bool :=
  match s with
  | EmptyString => true
  | String c s' => p c && allChars p s'
  end.

(** [hay.includes(needle)] *)
Fixpoint includes (needle hay : string) : bool :=
  String.prefix needle hay
  || match hay with
     | EmptyString => false
     | String _ hay' => includes needle hay'
     end.

(** [n.toString()] of an integer. *)
Definition toString (n : Z) : string := NilZero.string_of_int (Z.to_int n).

(** [parts.join(sep)] *)
Fixpoint join (sep : string) (parts : list string) : string :=
  match parts with
  | [] => ""
  | [p] => p
  | p :: rest => p ++ sep ++ join sep rest
  end.

(** [s] between double quotes, as [JSON.stringify] prints a plain string. *)
Definition quoted (s : string) : string :=
  String (ascii_of_nat 34) (s ++ String (ascii_of_nat 34) EmptyString).

(** Truthiness of a string: only the empty string is falsy. *)
Definition nonEmpty (s : string) : bool :=
  match s with EmptyString => false | _ => true end.

(** [s || d] for an optional string. *)
Definition orString (s : option string) (d : string) : string :=
  match s with
  | Some x => if nonEmpty x then x else d
  | None => d
  end.

End JsString.

(** [n || d] for an optional integer. *)
Definition orNumber (n : option Z) (d : Z) : Z :=
  match n with
  | Some x => if x =? 0 then d else x
  | None => d
  end.

(* ------------------------------------------------------------------ *)
(** ** Networks, transactions and pages ([src/types/*.ts]) *)

Module Types.

Inductive Network : Type := ETHEREUM_MAINNET | SOLANA_MAINNET.

Definition networkName (n : Network) : string :=
  match n with
  | ETHEREUM_MAINNET => "ethereum-mainnet"
  | SOLANA_MAINNET => "solana-mainnet"
  end.

Inductive TransactionStatus : Type := SUCCESS | FAILED | PENDING.

(** A numeric field that may hold [NaN] (the result of [parseInt]) is an
    [option Z]. *)
Record EthereumTransaction : Type := mkEthereumTransaction {
  eth_hash : string;
  eth_blockNumber : option Z;
  eth_timestamp : option Z;
  eth_status : TransactionStatus;
  eth_from : string;
  eth_to : option string;
  eth_value : string;
  eth_gasPrice : string;
  eth_gasLimit : string;
  eth_gasUsed : string;
  eth_fee : option string;
  eth_nonce : option Z;
  eth_input : option string;
  eth_isContractInteraction : bool
}.

Record SolanaInstruction : Type := mkSolanaInstruction {
  ins_programId : string;
  ins_data : option string;
  ins_accounts : option (list string)
}.

Record TokenBalance : Type := mkTokenBalance {
  tb_accountIndex : Z;
  tb_mint : string;
  tb_owner : option string;
  tb_preBalance : string;
  tb_postBalance : option string
}.

Record SolanaTransaction : Type := mkSolanaTransaction {
  sol_hash : string;
  sol_signature : string;
  sol_blockNumber : Z;
  sol_slot : Z;
  sol_timestamp : option Z;
  sol_status : TransactionStatus;
  sol_fee : string;
  sol_feePayer : string;
  sol_accountKeys : list string;
  sol_instructions : list SolanaInstruction;
  sol_tokenBalances : option (list TokenBalance)
}.

(** The discriminated union; the constructor is the [network] tag. *)
Inductive Transaction : Type :=
| OnEthereum (tx : EthereumTransaction)
| OnSolana (tx : SolanaTransaction).

Definition network (tx : Transaction) : Network :=
  match tx with
  | OnEthereum _ => ETHEREUM_MAINNET
  | OnSolana _ => SOLANA_MAINNET
  end.

Definition timestamp (tx : Transaction) : option Z :=
  match tx with
  | OnEthereum e => eth_timestamp e
  | OnSolana s => sol_timestamp s
  end.

Record PaginationOptions : Type := mkOptions {
  limit : option Z;
  page : option Z;
  cursor : option string;
  startTime : option Z;
  endTime : option Z
}.

Definition noOptions : PaginationOptions :=
  mkOptions None None None None None.

Record PaginationMetadata : Type := mkMetadata {
  total : option Z;
  currentPage : option Z;          (* the field [page] *)
  totalPages : option Z;
  nextCursor : option string;
  hasMore : bool
}.

Record PaginatedResponse (T : Type) : Type := mkResponse {
  data : list T;
  pagination : PaginationMetadata
}.
Arguments mkResponse {T}.
Arguments data {T}.
Arguments pagination {T}.

(** [timestamp >= bound] and [timestamp <= bound]; false on [NaN]. *)
Definition notBefore (timestamp : option Z) (bound : Z) : bool :=
  match timestamp with Some t => bound <=? t | None => false end.

Definition notAfter (timestamp : option Z) (bound : Z) : bool :=
  match timestamp with Some t => t <=? bound | None => false end.

End Types.

(* ------------------------------------------------------------------ *)
(** ** Address formats ([src/utils/validation.ts]) *)

Module Validation.
Import JsString Types.
Local Open Scope string_scope.

(** [[a-fA-F0-9]] *)
Definition isHexChar (c : ascii) : bool :=
  between "a" "f" c || between "A" "F" c || between "0" "9" c.

(** [[1-9A-HJ-NP-Za-km-z]] *)
Definition isBase58Char (c : ascii) : bool :=
  between "1" "9" c || between "A" "H" c || between "J" "N" c
  || between "P" "Z" c || between "a" "k" c || between "m" "z" c.

(** [/^0x[a-fA-F0-9]{40}$/.test(address)], after the guard [!address]. *)
Definition isValidEthereumAddress (address : string) : bool :=
  if negb (nonEmpty address) then false
  else
    match address with
    | String "0" (String "x" digits) =>
        (String.length digits =? 40)%nat && allChars isHexChar digits
    | _ => false
    end.

(** [/^[1-9A-HJ-NP-Za-km-z]{32,44}$/.test(publicKey)] *)
Definition isValidSolanaPublicKey (publicKey : string) : bool :=
  if negb (nonEmpty publicKey) then false
  else
    (32 <=? String.length publicKey)%nat
    && (String.length publicKey <=? 44)%nat
    && allChars isBase58Char publicKey.

Definition detectNetwork (address : string) : option Network :=
  if isValidEthereumAddress address then Some ETHEREUM_MAINNET
  else if isValidSolanaPublicKey address then Some SOLANA_MAINNET
  else None.

(** Returns normally ([inr tt]) or throws. *)
Definition validateAddressForNetwork (address : string) (network : Network)
  : SDKError + unit :=
  if negb (nonEmpty address) then
    inl (ValidationError "Address must be a non-empty string"
                         [("address", address)])
  else
    match network with
    | ETHEREUM_MAINNET =>
        if negb (isValidEthereumAddress address) then
          inl (ValidationError
                 "Invalid Ethereum address format. Expected 0x followed by 40 hexadecimal characters."
                 [("address", address); ("network", networkName network)])
        else inr tt
    | SOLANA_MAINNET =>
        if negb (isValidSolanaPublicKey address) then
          inl (ValidationError
                 "Invalid Solana public key format. Expected base58 encoded string (32-44 characters)."
                 [("address", address); ("network", networkName network)])
        else inr tt
    end.

Definition normalizeEthereumAddress (address : string) : SDKError + string :=
  if negb (isValidEthereumAddress address) then
    inl (ValidationError "Invalid Ethereum address" [("address", address)])
  else inr (toLowerCase address).

Definition normalizeSolanaPublicKey (publicKey : string) : SDKError + string :=
  if negb (isValidSolanaPublicKey publicKey) then
    inl (ValidationError "Invalid Solana public key"
                         [("publicKey", publicKey)])
  else inr publicKey.

(** [src/utils/network.ts] *)
Definition getNetworkFromAddress (address : string) : option Network :=
  detectNetwork address.

End Validation.

(* ------------------------------------------------------------------ *)
(** ** In-memory cache ([src/cache/memory-cache.ts]) *)

Module MemoryCache.

Record MemoryCacheEntry (T : Type) : Type := mkEntry {
  value : T;
  expiresAt : Z;
  createdAt : Z
}.
Arguments mkEntry {T}.
Arguments value {T}.
Arguments expiresAt {T}.
Arguments createdAt {T}.

Record CacheConfig : Type := mkCacheConfig {
  cfg_defaultTtl : option Z;
  cfg_maxSize : option Z;
  cfg_enabled : option bool
}.

(** The [Map] keeps its keys in insertion order; a key occurs once.
    [maxSize = None] is [Infinity]. *)
Record t (T : Type) : Type := mkCache {
  defaultTtl : Z;
  maxSize : option Z;
  enabled : bool;
  cache : list (string * MemoryCacheEntry T)
}.
Arguments mkCache {T}.
Arguments defaultTtl {T}.
Arguments maxSize {T}.
Arguments enabled {T}.
Arguments cache {T}.

Section WithValue.
Context {T : Type}.

Definition Entries := list (string * MemoryCacheEntry T).

Fixpoint mapGet (key : string) (m : Entries) : option (MemoryCacheEntry T) :=
  match m with
  | [] => None
  | (k, e) :: m' => if String.eqb k key then Some e else mapGet key m'
  end.

(** [Map.prototype.set]: an existing key keeps its place. *)
Fixpoint mapSet (key : string) (e : MemoryCacheEntry T) (m : Entries)
  : Entries :=
  match m with
  | [] => [(key, e)]
  | (k, e0) :: m' =>
      if String.eqb k key then (k, e) :: m' else (k, e0) :: mapSet key e m'
  end.

Definition mapDelete (key : string) (m : Entries) : Entries :=
  filter (fun ke => negb (String.eqb (fst ke) key)) m.

Definition withCache (m : Entries) (c : t T) : t T :=
  mkCache (defaultTtl c) (maxSize c) (enabled c) m.

Definition constructor (config : CacheConfig) : t T :=
  {| defaultTtl := orNumber (cfg_defaultTtl config) 60000;
     maxSize := match cfg_maxSize config with
                | Some n => if n =? 0 then None else Some n
                | None => None
                end;
     enabled := match cfg_enabled config with
                | Some false => false
                | _ => true
                end;
     cache := [] |}.

Definition isExpired (now : Z) (entry : MemoryCacheEntry T) : bool :=
  expiresAt entry <? now.

Definition evictExpired (now : Z) (c : t T) : t T :=
  withCache (filter (fun ke => negb (expiresAt (snd ke) <? now)) (cache c)) c.

(** Insertion of [x] into a list sorted by creation time, in front of the
    first entry that is not older than [x]. *)
Fixpoint insertByAge (x : string * MemoryCacheEntry T) (l : Entries)
  : Entries :=
  match l with
  | [] => [x]
  | y :: l' =>
      if createdAt (snd x) <=? createdAt (snd y) then x :: y :: l'
      else y :: insertByAge x l'
  end.

(** [Array.from(entries).sort(([, a], [, b]) => a.createdAt - b.createdAt)].
    [Array.prototype.sort] is stable: entries created at the same instant
    keep the order of the [Map], which is the order of insertion.  Each
    entry is inserted in front of the later ones of the same age. *)
Definition sortByAge (l : Entries) : Entries :=
  fold_right insertByAge [] l.

Definition deleteKeys (keys : list string) (m : Entries) : Entries :=
  fold_left (fun acc k => mapDelete k acc) keys m.

(** [evictOldest()]; reading [entries[i][0]] past the end of the array is
    a [TypeError]. *)
Definition evictOldest (c : t T) : t T * (SDKError + unit) :=
  let size := Z.of_nat (List.length (cache c)) in
  match maxSize c with
  | None => (c, inr tt)
  | Some bound =>
      if size <? bound then (c, inr tt)
      else
        let entries := sortByAge (cache c) in
        let toRemove := size - bound + 1 in
        let victims := firstn (Z.to_nat toRemove) (map fst entries) in
        let c' := withCache (deleteKeys victims (cache c)) c in
        if size <? toRemove then
          (c', inl (PlainError
                      "TypeError: Cannot read properties of undefined"))
        else (c', inr tt)
  end.

Definition get (now : Z) (key : string) (c : t T) : t T * option T :=
  if negb (enabled c) then (c, None)
  else
    let c1 := evictExpired now c in
    match mapGet key (cache c1) with
    | None => (c1, None)
    | Some entry =>
        if isExpired now entry
        then (withCache (mapDelete key (cache c1)) c1, None)
        else (c1, Some (value entry))
    end.

Definition set (now : Z) (key : string) (v : T) (ttl : option Z) (c : t T)
  : t T * (SDKError + unit) :=
  if negb (enabled c) then (c, inr tt)
  else
    let c1 := evictExpired now c in
    match evictOldest c1 with
    | (c2, inl e) => (c2, inl e)
    | (c2, inr _) =>
        let expires := now + orNumber ttl (defaultTtl c2) in
        (withCache (mapSet key (mkEntry v expires now) (cache c2)) c2, inr tt)
    end.

Definition delete (key : string) (c : t T) : t T :=
  withCache (mapDelete key (cache c)) c.

Definition clear (c : t T) : t T := withCache [] c.

Definition has (now : Z) (key : string) (c : t T) : t T * bool :=
  if negb (enabled c) then (c, false)
  else
    let c1 := evictExpired now c in
    match mapGet key (cache c1) with
    | None => (c1, false)
    | Some entry =>
        if isExpired now entry
        then (withCache (mapDelete key (cache c1)) c1, false)
        else (c1, true)
    end.

Definition size (now : Z) (c : t T) : t T * Z :=
  let c1 := evictExpired now c in
  (c1, Z.of_nat (List.length (cache c1))).

End WithValue.

End MemoryCache.

(* ------------------------------------------------------------------ *)
(** ** Query cache ([src/cache/transaction-cache.ts]) *)

Module TransactionCache.
Import JsString Types.
Local Open Scope string_scope.

(** [TransactionCacheKeyGenerator.generateKey]; [options] may be
    [undefined]. *)
Definition generateKey (network : string) (address : string)
           (options : option PaginationOptions) : string :=
  let field {A} (f : PaginationOptions -> option A) : option A :=
    match options with Some o => f o | None => None end in
  let parts :=
    [ "tx";
      network;
      toLowerCase address;
      orString (option_map toString (field limit)) "100";
      orString (option_map toString (field page)) "1";
      orString (field cursor) "";
      orString (option_map toString (field startTime)) "";
      orString (option_map toString (field endTime)) "" ] in
  join ":" parts.

Definition Store := MemoryCache.t (PaginatedResponse Transaction).

Definition constructor (config : MemoryCache.CacheConfig) : Store :=
  MemoryCache.constructor
    (MemoryCache.mkCacheConfig
       (Some (orNumber (MemoryCache.cfg_defaultTtl config) 30000))
       (Some (orNumber (MemoryCache.cfg_maxSize config) 100))
       (Some (match MemoryCache.cfg_enabled config with
              | Some false => false
              | _ => true
              end))).

Definition get (now : Z) (network address : string)
           (options : option PaginationOptions) (c : Store)
  : Store * option (PaginatedResponse Transaction) :=
  let key := generateKey network address options in
  MemoryCache.get now key c.

Definition set (now : Z) (network address : string)
           (response : PaginatedResponse Transaction)
           (options : option PaginationOptions) (ttl : option Z) (c : Store)
  : Store * (SDKError + unit) :=
  let key := generateKey network address options in
  MemoryCache.set now key response ttl c.

Definition invalidate (network address : string) (c : Store) : Store :=
  MemoryCache.clear c.

Definition clear (c : Store) : Store := MemoryCache.clear c.

End TransactionCache.

(* ------------------------------------------------------------------ *)
(** ** The world the asynchronous code acts on *)

Module Effects.
Import Types.

Inductive LogLevel : Type := Debug | Info | Warn | Error.

Definition levelIndex (l : LogLevel) : nat :=
  match l with Debug => 0 | Info => 1 | Warn => 2 | Error => 3 end%nat.

(** [createLogger(enabled, level)]; the no-op logger is the disabled one. *)
Record Logger : Type := mkLogger {
  log_enabled : bool;
  log_minLevel : LogLevel
}.

Definition noOpLogger : Logger := mkLogger false Info.

Definition shouldLog (logger : Logger) (level : LogLevel) : bool :=
  if negb (log_enabled logger) then false
  else (levelIndex (log_minLevel logger) <=? levelIndex level)%nat.

(** A call of the global [fetch]. *)
Record Request : Type := mkRequest {
  req_url : string;
  req_method : string;
  req_body : option string
}.

(** Everything mutable or observable: the clock, the calls of [fetch] made
    so far (oldest first), the lines written to the console, the JSON-RPC
    request counter and the query cache of the facade. *)
Record World : Type := mkWorld {
  now : Z;
  fetched : list Request;
  console : list (LogLevel * string);
  requestId : Z;
  queryCache : TransactionCache.Store
}.

(** A promise-returning computation: it transforms the world and either
    rejects or resolves. *)
Definition M (A : Type) : Type := World -> World * (SDKError + A).

Definition ret {A} (a : A) : M A := fun w => (w, inr a).

Definition throw {A} (e : SDKError) : M A := fun w => (w, inl e).

Definition bind {A B} (m : M A) (k : A -> M B) : M B :=
  fun w =>
    match m w with
    | (w1, inl e) => (w1, inl e)
    | (w1, inr a) => k a w1
    end.

(** [try { body } catch (error) { handler }] *)
Definition tryCatch {A} (body : M A) (handler : SDKError -> M A) : M A :=
  fun w =>
    match body w with
    | (w1, inl e) => handler e w1
    | (w1, inr a) => (w1, inr a)
    end.

(** A synchronous function that may throw. *)
Definition lift {A} (r : SDKError + A) : M A := fun w => (w, r).

Definition log (logger : Logger) (level : LogLevel) (message : string)
  : M unit :=
  fun w =>
    if shouldLog logger level then
      (mkWorld (now w) (fetched w) (console w ++ [(level, message)])
               (requestId w) (queryCache w), inr tt)
    else (w, inr tt).

(** [setTimeout(resolve, ms)], taken to fire on time. *)
Definition sleep (ms : Z) (w : World) : World :=
  mkWorld (now w + ms) (fetched w) (console w) (requestId w) (queryCache w).

Definition readClock : M Z := fun w => (w, inr (now w)).

(** Runs the computations one after the other and collects every
    settlement. *)
Fixpoint settleAll {A} (ms : list (M A)) (w : World)
  : World * list (SDKError + A) :=
  match ms with
  | [] => (w, [])
  | m :: ms' =>
      let (w1, r) := m w in
      let (w2, rs) := settleAll ms' w1 in
      (w2, r :: rs)
  end.

Fixpoint firstRejection {A} (rs : list (SDKError + A)) : SDKError + list A :=
  match rs with
  | [] => inr []
  | inl e :: _ => inl e
  | inr a :: rs' =>
      match firstRejection rs' with
      | inl e => inl e
      | inr vs => inr (a :: vs)
      end
  end.

(** [Promise.all(requests)]: all requests run (here in the order of the
    array); the result keeps the order of the array and is the rejection of
    the first one that rejects. *)
Definition promiseAll {A} (ms : list (M A)) : M (list A) :=
  fun w => let (w1, rs) := settleAll ms w in (w1, firstRejection rs).

End Effects.

Declare Scope effect_scope.
Delimit Scope effect_scope with eff.
Notation "x <- m ;; k" := (Effects.bind m (fun x => k))
  (at level 61, m at next level, right associativity) : effect_scope.
Notation "m ;;; k" := (Effects.bind m (fun _ => k))
  (at level 61, right associativity) : effect_scope.

(* ------------------------------------------------------------------ *)
(** ** HTTP requests ([src/utils/http.ts]) *)

Module Http.
Import JsString Effects.
Local Open Scope string_scope.

(** What [fetch] answered; [rsp_data] is the body read as the expected type
    ([None] when reading it throws). *)
Record FetchResponse (D : Type) : Type := mkFetchResponse {
  rsp_status : Z;
  rsp_statusText : string;
  rsp_ok : bool;
  rsp_retryAfter : option string;     (* the [Retry-After] header *)
  rsp_data : option D
}.
Arguments mkFetchResponse {D}.
Arguments rsp_status {D}.
Arguments rsp_statusText {D}.
Arguments rsp_ok {D}.
Arguments rsp_retryAfter {D}.
Arguments rsp_data {D}.

Inductive FetchOutcome (D : Type) : Type :=
| Responded (r : FetchResponse D)
| Aborted                              (* [AbortError]: the timeout fired *)
| FailedToFetch (message : string)     (* a [TypeError] mentioning fetch *)
| Threw (message : string).
Arguments Responded {D} r.
Arguments Aborted {D}.
Arguments FailedToFetch {D} message.
Arguments Threw {D} message.

(** The remote side: given the calls made before and the present call, the
    outcome and the time it took. *)
Definition Remote (D : Type) : Type :=
  list Request -> Request -> FetchOutcome D * Z.

Record HttpResponse (D : Type) : Type := mkHttpResponse {
  status : Z;
  statusText : string;
  responseData : D
}.
Arguments mkHttpResponse {D}.
Arguments status {D}.
Arguments statusText {D}.
Arguments responseData {D}.

Definition httpRequest {D} (parseInt : string -> option Z)
           (remote : Remote D) (url method : string) (body : option string)
           (timeout : Z) : M (HttpResponse D) :=
  fun w =>
    let request := mkRequest url method body in
    let (answer, took) := remote (fetched w) request in
    let w1 := mkWorld (now w + took) (fetched w ++ [request]) (console w)
                      (requestId w) (queryCache w) in
    match answer with
    | Responded response =>
        if (rsp_status response =? 429)%Z then
          let retryAfterSeconds :=
            match rsp_retryAfter response with
            | Some h => if nonEmpty h then parseInt h else None
            | None => None
            end in
          let hint :=
            match retryAfterSeconds with
            | Some s =>
                if (s =? 0)%Z then "Please retry later."
                else "Retry after " ++ toString s ++ " seconds"
            | None => "Please retry later."
            end in
          (w1, inl (RateLimitError ("Rate limit exceeded. " ++ hint)
                                   retryAfterSeconds))
        else
          match rsp_data response with
          | None =>
              (w1, inl (NetworkError
                          "Unexpected error: the body could not be read"))
          | Some d =>
              if negb (rsp_ok response) then
                (w1, inl (ProviderError
                            ("HTTP " ++ toString (rsp_status response) ++ ": "
                                     ++ rsp_statusText response)
                            None (Some (rsp_status response))))
              else
                (w1, inr (mkHttpResponse (rsp_status response)
                                         (rsp_statusText response) d))
          end
    | Aborted =>
        (w1, inl (NetworkError
                    ("Request timeout after " ++ toString timeout ++ "ms")))
    | FailedToFetch m => (w1, inl (NetworkError ("Network error: " ++ m)))
    | Threw m => (w1, inl (NetworkError ("Unexpected error: " ++ m)))
    end.

(** [retryWithBackoff(fn, config)] as a computation on the world. *)
Definition retried {A} (fn : M A) (config : Retry.RetryConfig) : M A :=
  fun w =>
    let r := Retry.retryWithBackoff fn sleep config w in
    match Retry.outcome r with
    | Retry.Resolved v => (Retry.final r, inr v)
    | Retry.Rejected e => (Retry.final r, inl e)
    | Retry.OutOfFuel => (Retry.final r, inl ThrownUndefined)
    end.

End Http.

(* ------------------------------------------------------------------ *)
(** ** What the providers run against *)

Module Environment.
Import Effects Http.

(** The used fields of a raw Etherscan record. *)
Record EtherscanTransaction : Type := mkEtherscanTransaction {
  raw_blockNumber : string;
  raw_timeStamp : string;
  raw_hash : string;
  raw_nonce : string;
  raw_from : string;
  raw_to : string;
  raw_value : string;
  raw_gas : string;
  raw_gasPrice : string;
  raw_isError : string;
  raw_txreceipt_status : string;
  raw_input : string;
  raw_contractAddress : string;
  raw_gasUsed : string
}.

(** [result: EtherscanTransaction[] | string], or whatever else the body
    held. *)
Inductive EtherscanResult : Type :=
| ResultArray (records : list EtherscanTransaction)
| ResultString (text : string)
| ResultOther.

Record EtherscanTransactionResponse : Type := mkEtherscanResponse {
  ets_status : string;
  ets_message : string;
  ets_result : EtherscanResult
}.

Record SolanaSignatureInfo : Type := mkSignatureInfo {
  sig_signature : string;
  sig_slot : Z;
  sig_err : bool;                     (* [err] is truthy *)
  sig_memo : option string;
  sig_blockTime : option Z
}.

Record RawInstruction : Type := mkRawInstruction {
  rins_programId : string;
  rins_accounts : option (list Z);
  rins_data : option string
}.

Record RawTokenBalance : Type := mkRawTokenBalance {
  rtb_accountIndex : Z;
  rtb_mint : string;
  rtb_owner : option string;
  rtb_amount : string                 (* [uiTokenAmount.amount] *)
}.

Record SolanaTransactionDetails : Type := mkDetails {
  det_slot : Z;
  det_accountKeys : list string;
  det_instructions : option (list RawInstruction);
  det_metaErr : bool;                 (* [meta.err] is truthy *)
  det_fee : Z;
  det_preTokenBalances : option (list RawTokenBalance);
  det_postTokenBalances : option (list RawTokenBalance)
}.

Record SolanaRpcResponse (T : Type) : Type := mkRpcResponse {
  rpc_result : option T;              (* [None]: the field is absent *)
  rpc_error : option (Z * string)     (* [code] and [message] *)
}.
Arguments mkRpcResponse {T}.
Arguments rpc_result {T}.
Arguments rpc_error {T}.

(** The JavaScript built-ins the sources call, the two remote services and
    the admission step of each provider's rate limiter. *)
Record Env : Type := mkEnv {
  parseInt : string -> option Z;                 (* [None] is [NaN] *)
  bigIntProduct : string -> string -> option string;
      (* [(BigInt(a) * BigInt(b)).toString()]; [None]: a [SyntaxError] *)
  etherscan : Remote EtherscanTransactionResponse;
  solanaSignatures :
    Remote (SolanaRpcResponse (option (list SolanaSignatureInfo)));
  solanaTransaction :
    Remote (SolanaRpcResponse (option SolanaTransactionDetails));
  acquireEthereum : M unit;
  acquireSolana : M unit;
  defaultLogger : Logger                         (* [getLogger()] *)
}.

End Environment.

(* ------------------------------------------------------------------ *)
(** ** REST-indexer provider ([src/providers/ethereum.ts]) *)

Module EthereumProvider.
Import JsString Types Effects Http Environment.
Local Open Scope string_scope.
Local Open Scope effect_scope.

Record EthereumProviderConfig : Type := mkConfig {
  etherscanApiKey : option string;
  etherscanApiUrl : option string;
  rpcUrl : option string;
  timeout : option Z
}.

Record t : Type := mkProvider {
  config : EthereumProviderConfig;
  apiKey : option string;
  apiUrl : string;
  requestTimeout : Z;
  logger : Logger
}.

Definition truthyString (s : option string) : bool :=
  match s with Some x => nonEmpty x | None => false end.

Definition constructor (env : Env) (config : EthereumProviderConfig)
  : SDKError + t :=
  if negb (truthyString (etherscanApiKey config))
     && negb (truthyString (rpcUrl config))
  then inl (ConfigurationError
              "Ethereum provider requires either etherscanApiKey or rpcUrl"
              [])
  else inr {| config := config;
              apiKey := etherscanApiKey config;
              apiUrl := orString (etherscanApiUrl config)
                                 "https://api.etherscan.io/v2/api";
              requestTimeout := orNumber (timeout config) 30000;
              logger := defaultLogger env |}.

Definition retryPolicy : Retry.RetryConfig :=
  Retry.mkRetryConfig (Some 3%Z) None None None
                      (Some [429; 500; 502; 503; 504]%Z).

Definition transformTransaction (env : Env) (tx : EtherscanTransaction)
  : SDKError + EthereumTransaction :=
  let timestamp := option_map (fun s => s * 1000)%Z
                              (parseInt env (raw_timeStamp tx)) in
  let isError := String.eqb (raw_isError tx) "1"
                 || String.eqb (raw_txreceipt_status tx) "0" in
  let status := if isError then FAILED else SUCCESS in
  let fee :=
    if nonEmpty (raw_gasUsed tx) && nonEmpty (raw_gasPrice tx) then
      match bigIntProduct env (raw_gasUsed tx) (raw_gasPrice tx) with
      | Some product => inr (Some product)
      | None => inl (PlainError "SyntaxError: Cannot convert to a BigInt")
      end
    else inr None in
  match fee with
  | inl e => inl e
  | inr fee =>
      inr {| eth_hash := raw_hash tx;
             eth_blockNumber := parseInt env (raw_blockNumber tx);
             eth_timestamp := timestamp;
             eth_status := status;
             eth_from := raw_from tx;
             eth_to := if nonEmpty (raw_to tx) then Some (raw_to tx)
                       else None;
             eth_value := raw_value tx;
             eth_gasPrice := raw_gasPrice tx;
             eth_gasLimit := raw_gas tx;
             eth_gasUsed := raw_gasUsed tx;
             eth_fee := fee;
             eth_nonce := parseInt env (raw_nonce tx);
             eth_input := if nonEmpty (raw_input tx)
                          then Some (raw_input tx) else None;
             eth_isContractInteraction :=
               nonEmpty (raw_contractAddress tx)
               || (nonEmpty (raw_input tx)
                   && negb (String.eqb (raw_input tx) "0x")) |}
  end.

(** [array.map(f)] for an [f] that may throw. *)
Fixpoint mapThrowing {A B} (f : A -> SDKError + B) (l : list A)
  : SDKError + list B :=
  match l with
  | [] => inr []
  | a :: l' =>
      match f a with
      | inl e => inl e
      | inr b =>
          match mapThrowing f l' with
          | inl e => inl e
          | inr bs => inr (b :: bs)
          end
      end
  end.

(** The part of [getTransactions] that follows
    [const data = response.data]. *)
Definition interpret (env : Env) (address : string) (page limit : Z)
           (data : EtherscanTransactionResponse)
  : SDKError + PaginatedResponse EthereumTransaction :=
  match ets_status data, ets_result data with
  | status, ResultString text =>
      if String.eqb status "0" then
        if includes "No transactions found" text then
          inr (mkResponse []
                 (mkMetadata (Some 0%Z) (Some page) (Some 0%Z) None false))
        else
          inl (ProviderError ("Etherscan API error: " ++ text)
                             (Some "Etherscan") None)
      else
        inl (ProviderError "Unexpected response format from Etherscan API"
                           (Some "Etherscan") None)
  | _, ResultOther =>
      inl (ProviderError "Unexpected response format from Etherscan API"
                         (Some "Etherscan") None)
  | _, ResultArray records =>
      match mapThrowing (transformTransaction env) records with
      | inl e => inl e
      | inr transactions =>
          let hasMore :=
            (Z.of_nat (List.length transactions) =? limit)%Z in
          let totalPages := if hasMore then None else Some page in
          inr (mkResponse transactions
                 (mkMetadata None (Some page) totalPages None hasMore))
      end
  end.

(** The query string (the percent-encoding of the values is left out). *)
Definition requestUrl (self : t) (key address : string) (page limit : Z)
  : string :=
  apiUrl self ++ "?chainid=1&module=account&action=txlist&address="
         ++ address ++ "&startblock=0&endblock=99999999&page="
         ++ toString page ++ "&offset=" ++ toString limit
         ++ "&sort=desc&apikey=" ++ key.

(** [retryWithBackoff(() => httpRequest(url, { method: 'GET', timeout }),
    { maxRetries: 3, retryableStatusCodes })] *)
Definition fetchPage (env : Env) (self : t) (url : string)
  : M (HttpResponse EtherscanTransactionResponse) :=
  retried (httpRequest (parseInt env) (etherscan env) url "GET" None
                       (requestTimeout self))
          retryPolicy.

Definition getTransactions (env : Env) (self : t) (address : string)
           (options : PaginationOptions)
  : M (PaginatedResponse EthereumTransaction) :=
  if negb (truthyString (apiKey self)) then
    throw (ConfigurationError "Etherscan API key is required"
                              [("address", address)])
  else
    acquireEthereum env ;;;
    log (logger self) Debug "Rate limit acquired for Ethereum request" ;;;
    let limit := orNumber (limit options) 100 in
    let page := orNumber (page options) 1 in
    let url := requestUrl self (orString (apiKey self) "") address page limit in
    tryCatch
      (log (logger self) Debug "Fetching transactions from Etherscan" ;;;
       response <- fetchPage env self url ;;
       lift (interpret env address page limit (responseData response)))
      (fun error =>
         if isProviderError error then throw error
         else throw (ProviderError
                       ("Failed to fetch Ethereum transactions: "
                          ++ message error)
                       (Some "Etherscan") None)).

End EthereumProvider.

(* ------------------------------------------------------------------ *)
(** ** JSON-RPC provider ([src/providers/solana.ts]) *)

Module SolanaProvider.
Import JsString Types Effects Http Environment.
Local Open Scope string_scope.
Local Open Scope effect_scope.

Record SolanaProviderConfig : Type := mkConfig {
  rpcUrl : string;
  timeout : option Z;
  commitment : option string
}.

Record t : Type := mkProvider {
  providerRpcUrl : string;
  requestTimeout : Z;
  providerCommitment : string;
  logger : Logger
}.

Definition constructor (env : Env) (config : SolanaProviderConfig)
  : SDKError + t :=
  if negb (nonEmpty (rpcUrl config)) then
    inl (ConfigurationError "Solana provider requires rpcUrl" [])
  else inr {| providerRpcUrl := rpcUrl config;
              requestTimeout := orNumber (timeout config) 30000;
              providerCommitment := orString (commitment config) "confirmed";
              logger := defaultLogger env |}.

Definition retryPolicy : Retry.RetryConfig :=
  Retry.mkRetryConfig (Some 3%Z) None None None
                      (Some [429; 500; 502; 503; 504]%Z).

(** [this.requestId++] *)
Definition nextRequestId : M Z :=
  fun w =>
    (mkWorld (now w) (fetched w) (console w) (requestId w + 1)
             (queryCache w),
     inr (requestId w)).

(** [rpcRequest<T>(method, params)]; [params] is the serialised parameter
    array. *)
Definition rpcRequest {T} (env : Env) (self : t)
           (remote : Remote (SolanaRpcResponse T))
           (method params : string) : M T :=
  acquireSolana env ;;;
  log (logger self) Debug "Rate limit acquired for Solana RPC request" ;;;
  id <- nextRequestId ;;
  let request :=
    "{" ++ quoted "jsonrpc" ++ ":" ++ quoted "2.0" ++ ","
        ++ quoted "id" ++ ":" ++ toString id ++ ","
        ++ quoted "method" ++ ":" ++ quoted method ++ ","
        ++ quoted "params" ++ ":" ++ params ++ "}" in
  tryCatch
    (log (logger self) Debug "Making Solana RPC request" ;;;
     response <-
       retried (httpRequest (parseInt env) remote (providerRpcUrl self)
                            "POST" (Some request) (requestTimeout self))
               retryPolicy ;;
     let data := responseData response in
     match rpc_error data with
     | Some (code, text) =>
         throw (ProviderError ("Solana RPC error: " ++ text)
                              (Some "Solana RPC") (Some code))
     | None =>
         match rpc_result data with
         | None =>
             throw (ProviderError
                      "Unexpected response format from Solana RPC"
                      (Some "Solana RPC") None)
         | Some result => ret result
         end
     end)
    (fun error =>
       if isProviderError error then throw error
       else throw (ProviderError
                     ("Failed to make Solana RPC request: " ++ message error)
                     (Some "Solana RPC") None)).

Definition getTransactionDetails (env : Env) (self : t)
           (signatures : list string)
  : M (list (option SolanaTransactionDetails)) :=
  let requests :=
    map (fun signature =>
           rpcRequest env self (solanaTransaction env) "getTransaction"
                      ("[" ++ quoted signature ++ ",{"
                         ++ quoted "encoding" ++ ":" ++ quoted "jsonParsed"
                         ++ "," ++ quoted "commitment" ++ ":"
                         ++ quoted (providerCommitment self) ++ ","
                         ++ quoted "maxSupportedTransactionVersion"
                         ++ ":0}]"))
        signatures in
  promiseAll requests.

(** [accountKeys[idx] || ''] *)
Definition accountKeyAt (keys : list string) (idx : Z) : string :=
  if (idx <? 0)%Z then "" else nth (Z.to_nat idx) keys "".

Definition transformTransaction (clock : Z) (sigInfo : SolanaSignatureInfo)
           (details : option SolanaTransactionDetails)
  : option SolanaTransaction :=
  match details with
  | None => None
  | Some details =>
      let status := if sig_err sigInfo || det_metaErr details
                    then FAILED else SUCCESS in
      let timestamp :=
        match sig_blockTime sigInfo with
        | Some b => if (b =? 0)%Z then clock else (b * 1000)%Z
        | None => clock
        end in
      let feePayer := accountKeyAt (det_accountKeys details) 0 in
      let instructions :=
        match det_instructions details with
        | Some l =>
            map (fun ix =>
                   mkSolanaInstruction
                     (rins_programId ix) (rins_data ix)
                     (option_map
                        (map (accountKeyAt (det_accountKeys details)))
                        (rins_accounts ix)))
                l
        | None => []
        end in
      let tokenBalances :=
        match det_preTokenBalances details, det_postTokenBalances details with
        | Some pre, Some post =>
            Some (map (fun pi : RawTokenBalance * nat =>
                         mkTokenBalance
                           (rtb_accountIndex (fst pi)) (rtb_mint (fst pi))
                           (rtb_owner (fst pi)) (rtb_amount (fst pi))
                           (option_map rtb_amount (nth_error post (snd pi))))
                      (combine pre (seq 0 (List.length pre))))
        | _, _ => None
        end in
      Some {| sol_hash := sig_signature sigInfo;
              sol_signature := sig_signature sigInfo;
              sol_blockNumber := sig_slot sigInfo;
              sol_slot := sig_slot sigInfo;
              sol_timestamp := Some timestamp;
              sol_status := status;
              sol_fee := toString (det_fee details);
              sol_feePayer := feePayer;
              sol_accountKeys := det_accountKeys details;
              sol_instructions := instructions;
              sol_tokenBalances := tokenBalances |}
  end.

(** [array.filter((x) => x !== null)] *)
Fixpoint dropNull {A} (l : list (option A)) : list A :=
  match l with
  | [] => []
  | Some a :: l' => a :: dropNull l'
  | None :: l' => dropNull l'
  end.

(** [signatures.map((sig, index) => f(sig, details[index]))] *)
Definition mapWithDetails {A B C} (f : A -> option B -> C)
           (signatures : list A) (details : list (option B)) : list C :=
  map (fun si : A * nat =>
         f (fst si)
           (match nth_error details (snd si) with
            | Some d => d
            | None => None
            end))
      (combine signatures (seq 0 (List.length signatures))).

(** The serialised parameters [[publicKey, { limit, before, commitment }]]. *)
Definition signaturesParams (self : t) (publicKey : string) (limit : Z)
           (before : option string) : string :=
  "[" ++ quoted publicKey ++ ",{"
      ++ quoted "limit" ++ ":" ++ toString limit
      ++ match before with
         | Some c => "," ++ quoted "before" ++ ":" ++ quoted c
         | None => EmptyString
         end
      ++ "," ++ quoted "commitment" ++ ":"
      ++ quoted (providerCommitment self) ++ "}]".

(** Step 1 of [getTransactions]. *)
Definition getSignatures (env : Env) (self : t) (publicKey : string)
           (options : PaginationOptions)
  : M (option (list SolanaSignatureInfo)) :=
  let limit := orNumber (limit options) 100 in
  let before := match cursor options with
                | Some c => if nonEmpty c then Some c else None
                | None => None
                end in
  rpcRequest env self (solanaSignatures env) "getSignaturesForAddress"
             (signaturesParams self publicKey limit before).

Definition getTransactions (env : Env) (self : t) (publicKey : string)
           (options : PaginationOptions)
  : M (PaginatedResponse SolanaTransaction) :=
  let limit := orNumber (limit options) 100 in
  signatures <- getSignatures env self publicKey options ;;
  match signatures with
  | None | Some [] =>
      ret (mkResponse [] (mkMetadata None None None None false))
  | Some signatures =>
      let signatureStrings := map sig_signature signatures in
      transactionDetails <- getTransactionDetails env self signatureStrings ;;
      clock <- readClock ;;
      let transactions :=
        dropNull (mapWithDetails (transformTransaction clock)
                                 signatures transactionDetails) in
      let hasMore := (Z.of_nat (List.length signatures) =? limit)%Z in
      let nextCursor :=
        if hasMore
        then option_map sig_signature
                        (nth_error signatures (List.length signatures - 1))
        else None in
      ret (mkResponse transactions
                      (mkMetadata None None None nextCursor hasMore))
  end.

End SolanaProvider.

(* ------------------------------------------------------------------ *)
(** ** Adapters ([src/adapters/ethereum.ts], [src/adapters/solana.ts]) *)

Module EthereumAdapter.
Import JsString Types Effects Environment Validation.
Local Open Scope string_scope.
Local Open Scope effect_scope.

(** The adapter holds its provider. *)
Definition t := EthereumProvider.t.

(** [try { validateAddressForNetwork(...); return true } catch { return false }] *)
Definition validateAddress (address : string) : bool :=
  match validateAddressForNetwork address ETHEREUM_MAINNET with
  | inr _ => true
  | inl _ => false
  end.

Definition detectNetwork (address : string) : option Network :=
  if validateAddress address then Some ETHEREUM_MAINNET else None.

Definition applyTimeRangeFilter (options : PaginationOptions)
  : PaginationOptions :=
  mkOptions (limit options) (page options) (cursor options) None None.

Definition filterTransactions (transactions : list EthereumTransaction)
           (options : PaginationOptions) : list EthereumTransaction :=
  let filtered := transactions in
  let filtered :=
    match startTime options with
    | Some bound =>
        filter (fun tx => notBefore (eth_timestamp tx) bound) filtered
    | None => filtered
    end in
  let filtered :=
    match endTime options with
    | Some bound =>
        filter (fun tx => notAfter (eth_timestamp tx) bound) filtered
    | None => filtered
    end in
  filtered.

Definition getTransactions (env : Env) (self : t) (address : string)
           (options : PaginationOptions)
  : M (PaginatedResponse EthereumTransaction) :=
  if negb (validateAddress address) then
    throw (ValidationError "Invalid Ethereum address format"
                           [("address", address)])
  else
    normalizedAddress <- lift (normalizeEthereumAddress address) ;;
    let filteredOptions := applyTimeRangeFilter options in
    response <-
      EthereumProvider.getTransactions env self normalizedAddress
                                       filteredOptions ;;
    let filteredTransactions := filterTransactions (data response) options in
    ret (mkResponse filteredTransactions (pagination response)).

End EthereumAdapter.

Module SolanaAdapter.
Import JsString Types Effects Environment Validation.
Local Open Scope string_scope.
Local Open Scope effect_scope.

Definition t := SolanaProvider.t.

Definition validateAddress (publicKey : string) : bool :=
  match validateAddressForNetwork publicKey SOLANA_MAINNET with
  | inr _ => true
  | inl _ => false
  end.

Definition detectNetwork (publicKey : string) : option Network :=
  if validateAddress publicKey then Some SOLANA_MAINNET else None.

Definition filterTransactions (transactions : list SolanaTransaction)
           (options : PaginationOptions) : list SolanaTransaction :=
  let filtered := transactions in
  let filtered :=
    match startTime options with
    | Some bound =>
        filter (fun tx => notBefore (sol_timestamp tx) bound) filtered
    | None => filtered
    end in
  let filtered :=
    match endTime options with
    | Some bound =>
        filter (fun tx => notAfter (sol_timestamp tx) bound) filtered
    | None => filtered
    end in
  filtered.

Definition getTransactions (env : Env) (self : t) (publicKey : string)
           (options : PaginationOptions)
  : M (PaginatedResponse SolanaTransaction) :=
  if negb (validateAddress publicKey) then
    throw (ValidationError "Invalid Solana public key format"
                           [("publicKey", publicKey)])
  else
    normalizedPublicKey <- lift (normalizeSolanaPublicKey publicKey) ;;
    response <-
      SolanaProvider.getTransactions env self normalizedPublicKey options ;;
    let filteredTransactions := filterTransactions (data response) options in
    ret (mkResponse filteredTransactions (pagination response)).

End SolanaAdapter.

(* ------------------------------------------------------------------ *)
(** ** The facade ([src/client.ts]) *)

Module BlockchainSDK.
Import JsString Types Effects Environment Validation.
Local Open Scope string_scope.
Local Open Scope effect_scope.

(** An instance: the adapters its configuration gave it, its logger, and
    whether it has a query cache (the cache itself is part of the world). *)
Record t : Type := mkSDK {
  ethereumAdapter : option EthereumAdapter.t;
  solanaAdapter : option SolanaAdapter.t;
  logger : Logger;
  hasCache : bool
}.

Definition withQueryCache (c : TransactionCache.Store) (w : World) : World :=
  mkWorld (now w) (fetched w) (console w) (requestId w) c.

(** [this.cache.get(network, address, options)] *)
Definition cacheGet (network : Network) (address : string)
           (options : option PaginationOptions)
  : M (option (PaginatedResponse Transaction)) :=
  fun w =>
    let (c, r) := TransactionCache.get (now w) (networkName network) address
                                       options (queryCache w) in
    (withQueryCache c w, inr r).

(** [this.cache.set(network, address, result, options)] *)
Definition cacheSet (network : Network) (address : string)
           (result : PaginatedResponse Transaction)
           (options : option PaginationOptions) : M unit :=
  fun w =>
    let (c, r) := TransactionCache.set (now w) (networkName network) address
                                       result options None (queryCache w) in
    (withQueryCache c w, r).

(** A default parameter [options = {}]. *)
Definition orEmpty (options : option PaginationOptions) : PaginationOptions :=
  match options with Some o => o | None => noOptions end.

Definition getEthereumTransactions (env : Env) (self : t) (address : string)
           (options : option PaginationOptions)
  : M (PaginatedResponse EthereumTransaction) :=
  match ethereumAdapter self with
  | None =>
      log (logger self) Error "Ethereum adapter not configured" ;;;
      throw (ConfigurationError
               "Ethereum provider is not configured. Please provide ethereum configuration in SDK config."
               [("address", address)])
  | Some adapter =>
      tryCatch
        (log (logger self) Debug "Fetching Ethereum transactions" ;;;
         result <- EthereumAdapter.getTransactions env adapter address
                                                   (orEmpty options) ;;
         log (logger self) Info "Fetched Ethereum transactions" ;;;
         ret result)
        (fun error =>
           log (logger self) Error "Failed to fetch Ethereum transactions" ;;;
           throw error)
  end.

Definition getSolanaTransactions (env : Env) (self : t) (publicKey : string)
           (options : option PaginationOptions)
  : M (PaginatedResponse SolanaTransaction) :=
  match solanaAdapter self with
  | None =>
      log (logger self) Error "Solana adapter not configured" ;;;
      throw (ConfigurationError
               "Solana provider is not configured. Please provide solana configuration in SDK config."
               [("publicKey", publicKey)])
  | Some adapter =>
      tryCatch
        (log (logger self) Debug "Fetching Solana transactions" ;;;
         result <- SolanaAdapter.getTransactions env adapter publicKey
                                                 (orEmpty options) ;;
         log (logger self) Info "Fetched Solana transactions" ;;;
         ret result)
        (fun error =>
           log (logger self) Error "Failed to fetch Solana transactions" ;;;
           throw error)
  end.

Definition widen {A} (inj : A -> Transaction) (r : PaginatedResponse A)
  : PaginatedResponse Transaction :=
  mkResponse (map inj (data r)) (pagination r).

Definition getTransactions (env : Env) (self : t) (address : string)
           (options : option PaginationOptions)
  : M (PaginatedResponse Transaction) :=
  log (logger self) Debug "Fetching transactions" ;;;
  match getNetworkFromAddress address with
  | None =>
      log (logger self) Error "Unable to detect network from address" ;;;
      throw (ValidationError
               "Unable to detect network from address format. Please use a valid Ethereum address (0x...) or Solana public key."
               [("address", address)])
  | Some network =>
      cached <- (if hasCache self then cacheGet network address options
                 else ret None) ;;
      match cached with
      | Some hit =>
          log (logger self) Debug "Cache hit" ;;;
          ret hit
      | None =>
          result <-
            match network with
            | ETHEREUM_MAINNET =>
                r <- getEthereumTransactions env self address options ;;
                ret (widen OnEthereum r)
            | SOLANA_MAINNET =>
                r <- getSolanaTransactions env self address options ;;
                ret (widen OnSolana r)
            end ;;
          (if hasCache self then
             cacheSet network address result options ;;;
             log (logger self) Debug "Cached transaction response"
           else ret tt) ;;;
          ret result
      end
  end.

Definition invalidateCache (self : t) (network : Network) (address : string)
  : M unit :=
  if hasCache self then
    (fun w =>
       (withQueryCache
          (TransactionCache.invalidate (networkName network) address
                                       (queryCache w)) w, inr tt)) ;;;
    log (logger self) Debug "Cache invalidated"
  else ret tt.

Definition clearCache (self : t) : M unit :=
  if hasCache self then
    (fun w =>
       (withQueryCache (TransactionCache.clear (queryCache w)) w, inr tt)) ;;;
    log (logger self) Debug "Cache cleared"
  else ret tt.

End BlockchainSDK.

(* ------------------------------------------------------------------ *)
(** ** Configuration ([src/config/index.ts]) and construction of the facade *)

Module Config.
Import JsString Types Effects Environment.
Local Open Scope string_scope.
Local Open Scope effect_scope.

Record SDKCacheConfig : Type := mkSDKCacheConfig {
  cache_enabled : bool;
  cache_ttl : option Z;
  cache_maxSize : option Z
}.

(** [SDKConfig]; its [rateLimit] entry is read nowhere. *)
Record SDKConfig : Type := mkSDKConfig {
  ethereum : option EthereumProvider.EthereumProviderConfig;
  solana : option SolanaProvider.SolanaProviderConfig;
  enableLogging : option bool;
  logLevel : option LogLevel;
  cache : option SDKCacheConfig
}.

(** [a ?? d] *)
Definition nullish {A} (a : option A) (d : A) : A :=
  match a with Some x => x | None => d end.

Definition DEFAULT_ETHEREUM_URL : string := "https://api.etherscan.io/v2/api".
Definition DEFAULT_TIMEOUT : Z := 30000.

Definition mergeWithDefaults (config : SDKConfig) : SDKConfig :=
  {| ethereum :=
       match ethereum config with
       | Some e =>
           Some (EthereumProvider.mkConfig
                   (EthereumProvider.etherscanApiKey e)
                   (Some (nullish (EthereumProvider.etherscanApiUrl e)
                                  DEFAULT_ETHEREUM_URL))
                   (EthereumProvider.rpcUrl e)
                   (Some (nullish (EthereumProvider.timeout e)
                                  DEFAULT_TIMEOUT)))
       | None => None
       end;
     solana :=
       match solana config with
       | Some s =>
           Some (SolanaProvider.mkConfig
                   (SolanaProvider.rpcUrl s)
                   (Some (nullish (SolanaProvider.timeout s) DEFAULT_TIMEOUT))
                   (Some (nullish (SolanaProvider.commitment s) "confirmed")))
       | None => None
       end;
     enableLogging := Some (nullish (enableLogging config) false);
     logLevel := Some (nullish (logLevel config) Info);
     cache := cache config |}.

(** [timeout && timeout < 0] *)
Definition negativeTimeout (timeout : option Z) : bool :=
  match timeout with
  | Some t => negb (t =? 0)%Z && (t <? 0)%Z
  | None => false
  end.

(** The messages [validateConfig] collects, in order. *)
Definition validationErrors (config : SDKConfig) : list string :=
  match ethereum config with
  | Some e =>
      (if negb (EthereumProvider.truthyString
                  (EthereumProvider.etherscanApiKey e))
          && negb (EthereumProvider.truthyString (EthereumProvider.rpcUrl e))
       then ["Ethereum configuration requires either etherscanApiKey or rpcUrl to be provided"]
       else [])
      ++ (if negativeTimeout (EthereumProvider.timeout e)
          then ["Ethereum timeout must be a positive number"]
          else [])
  | None => []
  end
  ++ match solana config with
     | Some s =>
         (if negb (nonEmpty (SolanaProvider.rpcUrl s))
          then ["Solana configuration requires rpcUrl to be provided"]
          else [])
         ++ (if negativeTimeout (SolanaProvider.timeout s)
             then ["Solana timeout must be a positive number"]
             else [])
     | None => []
     end.

(** [new ConfigManager(config)]: the merged configuration, or the
    [ConfigurationError] of [validateConfig]. *)
Definition ConfigManager (config : SDKConfig) : SDKError + SDKConfig :=
  let merged := mergeWithDefaults config in
  match validationErrors merged with
  | [] => inr merged
  | errors =>
      inl (ConfigurationError
             ("Invalid configuration: " ++ join "; " errors) [])
  end.

Definition getEthereumConfig (manager : SDKConfig) := ethereum manager.
Definition getSolanaConfig (manager : SDKConfig) := solana manager.

Definition isNetworkConfigured (manager : SDKConfig) (network : Network)
  : bool :=
  match network with
  | ETHEREUM_MAINNET =>
      match ethereum manager with Some _ => true | None => false end
  | SOLANA_MAINNET =>
      match solana manager with Some _ => true | None => false end
  end.

Definition getLoggingConfig (manager : SDKConfig) : bool * LogLevel :=
  (nullish (enableLogging manager) false, nullish (logLevel manager) Info).

(** [createLogger(enabled, level)] ([src/utils/logger.ts]) *)
Definition createLogger (enabled : bool) (level : LogLevel) : Logger :=
  if negb enabled then noOpLogger else mkLogger enabled level.

(** [new BlockchainSDK(config)]: the instance, with the configuration
    manager it keeps.  The cache it creates becomes the query cache of the
    world. *)
Definition newSDK (env : Env) (config : SDKConfig)
  : M (BlockchainSDK.t * SDKConfig) :=
  manager <- lift (ConfigManager config) ;;
  let logger := createLogger (fst (getLoggingConfig manager))
                             (snd (getLoggingConfig manager)) in
  hasCache <-
    match cache config with
    | Some c =>
        if cache_enabled c then
          (fun w =>
             (BlockchainSDK.withQueryCache
                (TransactionCache.constructor
                   (MemoryCache.mkCacheConfig (cache_ttl c) (cache_maxSize c)
                                              (Some (cache_enabled c))))
                w, inr tt)) ;;;
          log logger Debug "Transaction cache enabled" ;;;
          ret true
        else ret false
    | None => ret false
    end ;;
  ethereumAdapter <-
    match getEthereumConfig manager with
    | Some e =>
        provider <- lift (EthereumProvider.constructor env e) ;;
        ret (Some provider)
    | None => ret None
    end ;;
  solanaAdapter <-
    match getSolanaConfig manager with
    | Some s =>
        provider <- lift (SolanaProvider.constructor env s) ;;
        ret (Some provider)
    | None => ret None
    end ;;
  ret (BlockchainSDK.mkSDK ethereumAdapter solanaAdapter logger hasCache,
       manager).

End Config.

(* ------------------------------------------------------------------ *)
(** ** The rate limiter's queue with callers arriving while it waits

    [processQueue] suspends in [await new Promise(... setTimeout ...)];
    the [acquire()] calls of other callers run meanwhile.  Nothing else of
    the loop is asynchronous: between two sleeps it runs to completion. *)

Module RateLimiterWithArrivals.
Import JsNum RateLimiter.

(** [arrivals n]: the callers whose [acquire()] runs during the [n]-th
    sleep of the loop, in the order of their calls. *)
Definition Arrivals := nat -> list Waiter.

(** The [acquire()] calls of [whos], one after the other. *)
Fixpoint arrive (whos : list Waiter) (clock : nat -> Z) (st : State)
  : State * list Event :=
  match whos with
  | [] => (st, [])
  | who :: rest =>
      let (st1, ev1) := RateLimiter.acquire who clock st in
      let (st2, ev2) := arrive rest clock st1 in
      (st2, ev1 ++ ev2)
  end.

(** The [while] loop of [processQueue]; [slept] counts the sleeps so far. *)
Fixpoint serviceLoop (arrivals : Arrivals) (fuel : nat) (clock : nat -> Z)
         (k slept : nat) (st : State) (log : list Event)
  : State * list Event :=
  match fuel with
  | O => (st, log)
  | S fuel' =>
      match queue st with
      | [] => (st, log)
      | item :: rest =>
          let (ok, st1) := canMakeRequest (clock k) st in
          if ok then
            let st2 := consumeTokens (withQueue rest (processing st1) st1) in
            serviceLoop arrivals fuel' clock (S k) slept st2
                        (log ++ [Admit item])
          else
            let (d, st2) :=
              calculateDelay (clock (S k)) (clock (S (S k))) st1 in
            let delay := Z.max d 10 in
            let (st3, ev) :=
              arrive (arrivals slept) (fun i => clock (S (S (S k)) + i)%nat)
                     st2 in
            serviceLoop arrivals fuel' clock (S (S (S k))) (S slept) st3
                        (log ++ [Sleep delay] ++ ev)
      end
  end.

Definition processQueue (arrivals : Arrivals) (clock : nat -> Z) (st : State)
  : State * list Event :=
  if processing st || (List.length (queue st) =? 0)%nat then (st, [])
  else
    let st0 := withQueue (queue st) true st in
    let (st1, log) :=
      serviceLoop arrivals maxIterations clock 0%nat 0%nat st0 [] in
    let st2 := withQueue (queue st1) false st1 in
    (withQueue [] false st2, log ++ map Fault (queue st2)).

(** [acquire()] of caller [who], with the callers that arrive while the
    loop it starts is asleep. *)
Definition acquire (arrivals : Arrivals) (who : Waiter) (clock : nat -> Z)
           (st : State) : State * list Event :=
  if negb (enabled st) then (st, [Admit who])
  else processQueue arrivals clock
                    (withQueue (queue st ++ [who]) (processing st) st).

End RateLimiterWithArrivals.

(* ------------------------------------------------------------------ *)
(** ** Request queue ([src/utils/queue.ts])

    A queued task and its two callbacks are named by the identifier of the
    task.  A task is started in the turn in which [process] takes it off the
    queue; its settling is a later turn. *)

Module RequestQueue.

Record QueueItem : Type := mkItem {
  task : nat;
  itemPriority : option Z
}.

Record RequestQueueConfig : Type := mkConfig {
  cfg_maxSize : option Z;
  cfg_concurrency : option Z;
  cfg_priority : option bool
}.

(** [maxSize = None] is [Infinity]. *)
Record t : Type := mkQueue {
  maxSize : option Z;
  concurrency : Z;
  priority : bool;
  queue : list QueueItem;
  running : Z
}.

Definition constructor (config : RequestQueueConfig) : t :=
  {| maxSize := match cfg_maxSize config with
                | Some n => if n =? 0 then None else Some n
                | None => None
                end;
     concurrency := orNumber (cfg_concurrency config) 1;
     priority := match cfg_priority config with
                 | Some b => b
                 | None => false
                 end;
     queue := [];
     running := 0 |}.

Inductive Event : Type :=
| Full (who : nat)             (* [reject(new Error('Queue is full'))] *)
| Started (who : nat)          (* [item.task()] is called *)
| Cleared (who : nat).         (* [item.reject(new Error('Queue cleared'))] *)

(** The synchronous part of [process()]. *)
Definition process (q : t) : t * list Event :=
  if (concurrency q <=? running q)
     || (List.length (queue q) =? 0)%nat then (q, [])
  else
    match queue q with
    | [] => (q, [])
    | item :: rest =>
        (mkQueue (maxSize q) (concurrency q) (priority q) rest (running q + 1),
         [Started (task item)])
    end.

(** [queue.splice(index, 0, item)] at the first index whose item has
    [(q.priority || 0) < priority], or [push] when there is none. *)
Fixpoint insertByPriority (item : QueueItem) (p : Z) (l : list QueueItem)
  : list QueueItem :=
  match l with
  | [] => [item]
  | x :: l' =>
      if orNumber (itemPriority x) 0 <? p then item :: x :: l'
      else x :: insertByPriority item p l'
  end.

Definition enqueue (who : nat) (prio : option Z) (q : t) : t * list Event :=
  let full := match maxSize q with
              | Some bound => bound <=? Z.of_nat (List.length (queue q))
              | None => false
              end in
  if full then (q, [Full who])
  else
    let item := mkItem who prio in
    let queue' :=
      match priority q, prio with
      | true, Some p => insertByPriority item p (queue q)
      | _, _ => queue q ++ [item]
      end in
    process (mkQueue (maxSize q) (concurrency q) (priority q) queue'
                     (running q)).

(** A running task settles: the [finally] block. *)
Definition settle (q : t) : t * list Event :=
  process (mkQueue (maxSize q) (concurrency q) (priority q) (queue q)
                   (running q - 1)).

Definition getSize (q : t) : Z := Z.of_nat (List.length (queue q)).

Definition getRunning (q : t) : Z := running q.

Definition clear (q : t) : t * list Event :=
  (mkQueue (maxSize q) (concurrency q) (priority q) [] (running q),
   map (fun item => Cleared (task item)) (queue q)).

(** The turns of a queue's life. *)
Inductive Turn : Type :=
| Enqueue (who : nat) (prio : option Z)
| Settle
| Clear.

Definition turn (tn : Turn) (q : t) : t * list Event :=
  match tn with
  | Enqueue who prio => enqueue who prio q
  | Settle => settle q
  | Clear => clear q
  end.

Fixpoint turns (tns : list Turn) (q : t) : t * list Event :=
  match tns with
  | [] => (q, [])
  | tn :: rest =>
      let (q1, ev1) := turn tn q in
      let (q2, ev2) := turns rest q1 in
      (q2, ev1 ++ ev2)
  end.

End RequestQueue.

(* ================================================================== *)
(** * Properties *)

(* ------------------------------------------------------------------ *)
(** ** Retry policy *)

Module RetryFacts.
Import Retry.

Section Loop.
Context {W T : Type}.
Variable fn : W -> W * (SDKError + T).
Variable sleep : Z -> W -> W.

(** The loop needs no more fuel than the attempts left. *)
Lemma loop_total (cfg : RequiredRetryConfig) :
  forall fuel attempt lastError w n es ds,
    (Z.to_nat (r_maxRetries cfg - attempt + 1) <= fuel)%nat ->
    outcome (loop fn sleep fuel cfg attempt lastError w n es ds) <> OutOfFuel.
Proof.
  induction fuel as [|fuel IH]; intros attempt lastError w n es ds Hfuel;
    cbn [loop].
  - destruct (Z.leb_spec attempt (r_maxRetries cfg)); [lia|].
    destruct lastError; discriminate.
  - destruct (Z.leb_spec attempt (r_maxRetries cfg)) as [Hle|Hgt].
    + destruct (fn w) as [w1 [e|v]]; [|discriminate].
      destruct (isRetryableError e cfg); cbn [negb]; [|discriminate].
      destruct (Z.geb_spec attempt (r_maxRetries cfg)); [discriminate|].
      apply IH. lia.
    + destruct lastError; discriminate.
Qed.

Lemma retryWithBackoff_total (config : RetryConfig) (w : W) :
  outcome (retryWithBackoff fn sleep config w) <> OutOfFuel.
Proof.
  unfold retryWithBackoff. apply loop_total. lia.
Qed.

(** One iteration that catches a failure the classifier refuses. *)
Lemma loop_fatal (cfg : RequiredRetryConfig) fuel attempt lastError w n es ds
      w1 e :
  attempt <= r_maxRetries cfg ->
  fn w = (w1, inl e) ->
  isRetryableError e cfg = false ->
  loop fn sleep (S fuel) cfg attempt lastError w n es ds
  = mkRun w1 (Rejected e) (S n) (es ++ [e]) ds.
Proof.
  intros Hle Hfn Hcls. cbn [loop].
  destruct (Z.leb_spec attempt (r_maxRetries cfg)); [|lia].
  rewrite Hfn, Hcls. reflexivity.
Qed.

(** An operation whose every invocation fails with a retryable error. *)
Definition alwaysRetryable (cfg : RequiredRetryConfig) : Prop :=
  forall w, exists w1 e, fn w = (w1, inl e) /\ isRetryableError e cfg = true.

Lemma loop_exhausts (cfg : RequiredRetryConfig) :
  alwaysRetryable cfg ->
  forall fuel attempt lastError w n es ds,
    attempt <= r_maxRetries cfg ->
    fuel = Z.to_nat (r_maxRetries cfg - attempt + 1) ->
    let r := loop fn sleep fuel cfg attempt lastError w n es ds in
    invocations r = (n + fuel)%nat
    /\ exists es' e,
        caught r = es ++ es' ++ [e]
        /\ List.length (es' ++ [e]) = fuel
        /\ outcome r = Rejected e.
Proof.
  intros Hfn. induction fuel as [|fuel IH];
    intros attempt lastError w n es ds Hle Hfuel; [lia|].
  cbn zeta. cbn [loop].
  destruct (Z.leb_spec attempt (r_maxRetries cfg)); [|lia].
  destruct (Hfn w) as (w1 & e & -> & ->). cbn [negb].
  destruct (Z.geb_spec attempt (r_maxRetries cfg)) as [Hge|Hlt].
  - assert (fuel = 0%nat) by lia. subst fuel. cbn.
    split; [lia|]. exists [], e. repeat split.
  - specialize (IH (attempt + 1) (Some e) (sleep (delayBeforeRetry attempt e cfg) w1)
                   (S n) (es ++ [e]) (ds ++ [delayBeforeRetry attempt e cfg])).
    destruct IH as (Hn & es' & e' & Hc & Hlen & Ho); [lia|lia|].
    split; [lia|]. exists (e :: es'), e'. repeat split.
    + rewrite Hc, <- app_assoc. reflexivity.
    + cbn. rewrite Hlen. reflexivity.
    + exact Ho.
Qed.

(** The delay the claim prescribes after catching [e] at attempt [k]. *)
Definition prescribedDelay (cfg : RequiredRetryConfig) (k : nat)
           (e : SDKError) : Z :=
  let backoff :=
    Z.min (r_initialDelay cfg * r_backoffMultiplier cfg ^ Z.of_nat k)
          (r_maxDelay cfg) in
  match e with
  | RateLimitError _ (Some seconds) =>
      if seconds =? 0 then backoff else seconds * 1000
  | _ => backoff
  end.

Lemma delayBeforeRetry_prescribed cfg k e :
  delayBeforeRetry (Z.of_nat k) e cfg = prescribedDelay cfg k e.
Proof.
  unfold delayBeforeRetry, prescribedDelay, calculateDelay, truthyRetryAfter.
  destruct e as [| | m [s|] | | | |]; try reflexivity.
  destruct (s =? 0); reflexivity.
Qed.

(** Every sleep recorded so far follows the prescription. *)
Definition sleepsPrescribed (cfg : RequiredRetryConfig)
           (es : list SDKError) (ds : list Z) : Prop :=
  forall k d, nth_error ds k = Some d ->
    exists e, nth_error es k = Some e /\ d = prescribedDelay cfg k e.

Lemma sleepsPrescribed_more cfg es ds e :
  (List.length ds <= List.length es)%nat ->
  sleepsPrescribed cfg es ds -> sleepsPrescribed cfg (es ++ [e]) ds.
Proof.
  intros Hlen H k d Hk. destruct (H k d Hk) as (e0 & He0 & Hd).
  exists e0. split; [|exact Hd].
  rewrite nth_error_app1; [exact He0|].
  apply nth_error_Some. congruence.
Qed.

Lemma sleepsPrescribed_snoc cfg es ds e :
  List.length ds = List.length es ->
  sleepsPrescribed cfg es ds ->
  sleepsPrescribed cfg (es ++ [e])
                   (ds ++ [prescribedDelay cfg (List.length ds) e]).
Proof.
  intros Hlen H k d Hk.
  destruct (Nat.lt_ge_cases k (List.length ds)) as [Hlt|Hge].
  - rewrite nth_error_app1 in Hk by exact Hlt.
    destruct (H k d Hk) as (e0 & He0 & Hd). exists e0. split; [|exact Hd].
    rewrite nth_error_app1; [exact He0|]. lia.
  - rewrite nth_error_app2 in Hk by exact Hge.
    destruct (k - List.length ds)%nat as [|j] eqn:Hj.
    + assert (k = List.length ds) by lia. subst k.
      cbn in Hk. injection Hk as <-. exists e. split; [|reflexivity].
      rewrite nth_error_app2 by lia. rewrite Hlen, Nat.sub_diag. reflexivity.
    + cbn in Hk. destruct j; discriminate.
Qed.

Lemma loop_sleeps (cfg : RequiredRetryConfig) :
  forall fuel attempt lastError w n es ds,
    attempt = Z.of_nat (List.length ds) ->
    List.length ds = List.length es ->
    sleepsPrescribed cfg es ds ->
    let r := loop fn sleep fuel cfg attempt lastError w n es ds in
    sleepsPrescribed cfg (caught r) (waits r).
Proof.
  induction fuel as [|fuel IH];
    intros attempt lastError w n es ds Hat Hlen Hinv; cbn zeta; cbn [loop].
  - destruct (attempt <=? r_maxRetries cfg); [exact Hinv|].
    destruct lastError; exact Hinv.
  - destruct (attempt <=? r_maxRetries cfg).
    + destruct (fn w) as [w1 [e|v]]; [|exact Hinv].
      assert (Hmore : sleepsPrescribed cfg (es ++ [e]) ds)
        by (apply sleepsPrescribed_more; [lia|exact Hinv]).
      destruct (isRetryableError e cfg); cbn [negb]; [|exact Hmore].
      destruct (attempt >=? r_maxRetries cfg); [exact Hmore|].
      apply IH.
      * rewrite length_app. cbn. lia.
      * rewrite !length_app. cbn. lia.
      * subst attempt. rewrite delayBeforeRetry_prescribed.
        apply sleepsPrescribed_snoc; assumption.
    + destruct lastError; exact Hinv.
Qed.

End Loop.

(** The classifier never looks at the configured status codes. *)
Lemma isRetryableError_ignores_config (e : SDKError)
      (cfg cfg' : RequiredRetryConfig) :
  isRetryableError e cfg = isRetryableError e cfg'.
Proof. destruct e; reflexivity. Qed.

Lemma provider_error_is_fatal m p c (cfg : RequiredRetryConfig) :
  isRetryableError (ProviderError m p c) cfg = false.
Proof. reflexivity. Qed.

(** Concrete operations used below; the world counts the invocations. *)
Definition idle (ms : Z) (w : nat) : nat := w.

Definition http500 : SDKError :=
  ProviderError "HTTP 500: Internal Server Error" None (Some 500).

Definition always500 (w : nat) : nat * (SDKError + unit) :=
  (S w, inl http500).

(** The configuration both providers pass. *)
Definition providerRetryConfig : RetryConfig :=
  mkRetryConfig (Some 3) None None None (Some [429; 500; 502; 503; 504]).

Definition alwaysInvalid (w : nat) : nat * (SDKError + unit) :=
  (S w, inl (ValidationError "Invalid Ethereum address format" [])).

Definition alwaysThrottledZero (w : nat) : nat * (SDKError + unit) :=
  (S w, inl (RateLimitError "Rate limit exceeded. Please retry later." (Some 0))).

Definition alwaysThrottled (seconds : Z) (w : nat) : nat * (SDKError + unit) :=
  (S w, inl (RateLimitError "Rate limit exceeded." (Some seconds))).

(** C1 (evaluation at the failing input).  An operation that always fails
    with a provider error carrying status code 500, run under the retry
    configuration the providers use (500 is in [retryableStatusCodes]), is
    invoked once, is not followed by any wait, and its error is propagated:
    the status code is never compared with the configured set.  Under the
    same configuration a rate-limit error is retried three times. *)
Theorem provider_error_with_retryable_code_is_not_retried :
  let r := retryWithBackoff always500 idle providerRetryConfig 0%nat in
  In 500 (r_retryableStatusCodes (spread providerRetryConfig))
  /\ statusCodeOf http500 = Some 500
  /\ invocations r = 1%nat
  /\ waits r = []
  /\ outcome r = Rejected http500
  /\ invocations (retryWithBackoff (alwaysThrottled 1) idle
                                   providerRetryConfig 0%nat) = 4%nat.
Proof.
  cbn. repeat split. right; left; reflexivity.
Qed.

(** C2 (as the code has it).  When the retry budget [maxRetries] is not
    negative: an operation whose first invocation fails with a non-retryable
    error is invoked exactly once and that error is propagated; an operation
    that fails with a retryable error on every invocation is invoked exactly
    [maxRetries + 1] times, and the error propagated is the one caught
    last. *)
Theorem retry_invocation_counts
        {W T : Type} (fn : W -> W * (SDKError + T)) (sleep : Z -> W -> W)
        (config : RetryConfig) (w : W) :
  0 <= r_maxRetries (spread config) ->
  let r := retryWithBackoff fn sleep config w in
  (forall w1 e,
      fn w = (w1, inl e) ->
      isRetryableError e (spread config) = false ->
      invocations r = 1%nat /\ outcome r = Rejected e /\ caught r = [e]
      /\ waits r = [] /\ final r = w1)
  /\ (alwaysRetryable fn (spread config) ->
      Z.of_nat (invocations r) = r_maxRetries (spread config) + 1
      /\ List.length (caught r) = invocations r
      /\ exists e, last (caught r) ThrownUndefined = e
                   /\ outcome r = Rejected e).
Proof.
  intros Hmax r. split.
  - intros w1 e Hfn Hcls. subst r. unfold retryWithBackoff.
    destruct (Z.to_nat (r_maxRetries (spread config) + 1)) as [|fuel] eqn:Hf;
      [lia|].
    rewrite (loop_fatal fn sleep _ fuel 0 None w 0%nat [] [] w1 e Hmax Hfn Hcls).
    cbn. repeat split.
  - intros Hall. subst r. unfold retryWithBackoff.
    destruct (loop_exhausts fn sleep (spread config) Hall
                (Z.to_nat (r_maxRetries (spread config) + 1)) 0 None w
                0%nat [] []) as (Hn & es' & e & Hc & Hlen & Ho);
      [lia|f_equal; lia|].
    cbn zeta in *. rewrite Hn, Hc. cbn [app]. rewrite Hlen.
    repeat split; [lia|]. exists e. split; [|exact Ho].
    apply last_last.
Qed.

Lemma retry_invocation_counts_witness :
  0 <= r_maxRetries (spread providerRetryConfig)
  /\ invocations (retryWithBackoff alwaysInvalid idle providerRetryConfig 0%nat)
     = 1%nat.
Proof.
  split; [cbn; lia|].
  refine (proj1 (proj1 (retry_invocation_counts alwaysInvalid idle
                          providerRetryConfig 0%nat _) 1%nat _ _ _)).
  - cbn; lia.
  - reflexivity.
  - reflexivity.
Defined.

(** C2 (counterexample).  With [maxRetries = -1] the loop body is never
    entered: the operation, whose invocation would fail with a non-retryable
    error, is invoked zero times (not once), and what is thrown is
    [undefined], not a failure of the operation. *)
Lemma retry_negative_budget_never_invokes :
  let config := mkRetryConfig (Some (-1)) None None None None in
  let r := retryWithBackoff alwaysInvalid idle config 0%nat in
  isRetryableError (ValidationError "Invalid Ethereum address format" [])
                   (spread config) = false
  /\ invocations r = 0%nat
  /\ invocations r <> 1%nat
  /\ Z.of_nat (invocations r) <> r_maxRetries (spread config) + 1 + 1
  /\ outcome r = Rejected ThrownUndefined.
Proof. cbn. repeat split; discriminate. Qed.

(** C3 (as the code has it).  The [k]-th wait of a run (0-indexed) follows
    the [k]-th caught error [e] and lasts
    [min (initialDelay * backoffMultiplier ^ k) maxDelay], unless [e] is a
    rate-limit error whose [retryAfter] is present and not zero, in which
    case it lasts [retryAfter * 1000] milliseconds. *)
Theorem retry_wait_durations
        {W T : Type} (fn : W -> W * (SDKError + T)) (sleep : Z -> W -> W)
        (config : RetryConfig) (w : W) (k : nat) (d : Z) :
  let r := retryWithBackoff fn sleep config w in
  let cfg := spread config in
  nth_error (waits r) k = Some d ->
  exists e,
    nth_error (caught r) k = Some e
    /\ d = match e with
           | RateLimitError _ (Some seconds) =>
               if seconds =? 0
               then Z.min (r_initialDelay cfg
                           * r_backoffMultiplier cfg ^ Z.of_nat k)
                          (r_maxDelay cfg)
               else seconds * 1000
           | _ => Z.min (r_initialDelay cfg
                         * r_backoffMultiplier cfg ^ Z.of_nat k)
                        (r_maxDelay cfg)
           end.
Proof.
  intros r cfg Hk.
  pose proof (loop_sleeps fn sleep cfg
                (Z.to_nat (r_maxRetries cfg + 1)) 0 None w 0%nat [] []
                eq_refl eq_refl) as H.
  cbn zeta in H.
  destruct (H ltac:(intros k' d' Hk'; destruct k'; discriminate) k d Hk)
    as (e & He & Hd).
  exists e. split; [exact He|]. rewrite Hd. unfold prescribedDelay.
  destruct e as [| | m [s|] | | | |]; reflexivity.
Qed.

Lemma retry_wait_durations_witness :
  exists e,
    nth_error (caught (retryWithBackoff (alwaysThrottled 7) idle
                                        providerRetryConfig 0%nat)) 1
    = Some e
    /\ 7000 = match e with
              | RateLimitError _ (Some seconds) =>
                  if seconds =? 0 then Z.min (1000 * 2 ^ 1) 10000
                  else seconds * 1000
              | _ => Z.min (1000 * 2 ^ 1) 10000
              end.
Proof.
  exact (retry_wait_durations (alwaysThrottled 7) idle providerRetryConfig
                              0%nat 1%nat 7000 eq_refl).
Defined.

(** C3 (counterexample).  A rate-limit error that carries the retry-after
    duration 0 does not replace the backoff: the waits are 1000, 2000 and
    4000 ms, not three times 0 ms. *)
Lemma retry_after_zero_keeps_backoff :
  let r := retryWithBackoff alwaysThrottledZero idle emptyConfig 0%nat in
  waits r = [1000; 2000; 4000]
  /\ nth_error (caught r) 0
     = Some (RateLimitError "Rate limit exceeded. Please retry later." (Some 0))
  /\ nth_error (waits r) 0 <> Some (0 * 1000).
Proof. cbn. repeat split. discriminate. Qed.

End RetryFacts.

(* ------------------------------------------------------------------ *)
(** ** Rate limiter *)

Module RateLimiterFacts.
Import JsNum RateLimiter.

(** [0 <= tokens <= capacity], as JavaScript evaluates it. *)
Definition withinCapacity (capacity tokens : num) : bool :=
  leb (ofZ 0) tokens && leb tokens capacity.

Definition tokensWithinCapacity (st : State) : bool :=
  withinCapacity (requestsPerSecond st) (secondTokens st)
  && withinCapacity (requestsPerMinute st) (minuteTokens st).

(** [tokens] is the finite value [q]. *)
Definition holds (tokens : num) (q : Q) : bool :=
  match tokens with Fin x => Qeq_bool x q | _ => false end.

Definition defaultConfig : RateLimiterConfig := mkConfig None None None.

Definition perSecondOnly (n : Z) : RateLimiterConfig :=
  mkConfig (Some (ofZ n)) None None.

(** C4 (evaluation at the failing input).  A limiter built with the default
    configuration has both capacities [Infinity].  A [tryAcquire] (or a bare
    refill) in the millisecond of its construction computes
    [tokensToAdd = 0 * Infinity = NaN], so both token counts become [NaN]:
    neither [0 <= tokens] nor [tokens <= capacity] holds any more, and the
    request is refused. *)
Theorem unbounded_limiter_tokens_become_NaN :
  let fresh := constructor defaultConfig 1000 1000 in
  tokensWithinCapacity fresh = true
  /\ (let st := runOps [OpTryAcquire 1000] fresh in
      secondTokens st = NaN /\ minuteTokens st = NaN
      /\ leb (ofZ 0) (secondTokens st) = false
      /\ leb (secondTokens st) (requestsPerSecond st) = false
      /\ tokensWithinCapacity st = false)
  /\ tokensWithinCapacity (runOps [OpRefill 1000] fresh) = false
  /\ fst (tryAcquire 1000 fresh) = false.
Proof. vm_compute. repeat split. Qed.

(** C5 (evaluation at the failing input).  A fresh enabled limiter with
    short-window capacity 2 and the default long-window capacity
    ([Infinity], which is not below 2): with no time elapsing, already the
    first [tryAcquire] returns [false], because the long-window count has
    become [NaN]; no token is consumed from the short window. *)
Theorem burst_refused_when_long_window_unbounded :
  let fresh := constructor (perSecondOnly 2) 1000 1000 in
  leb (ofZ 2) (requestsPerMinute fresh) = true
  /\ enabled fresh = true
  /\ fst (burst 2 1000 fresh) = [false; false]
  /\ minuteTokens (snd (tryAcquire 1000 fresh)) = NaN
  /\ holds (secondTokens (snd (tryAcquire 1000 fresh))) 2 = true.
Proof. vm_compute. repeat split. Qed.

(** A disabled limiter admits without touching its state. *)
Lemma tryAcquire_disabled (now : Z) (st : State) :
  enabled st = false -> tryAcquire now st = (true, st).
Proof. intros H. unfold tryAcquire. rewrite H. reflexivity. Qed.

(** *** The finite case

    With finite, non-negative capacities and a clock that does not run
    backwards the token counts stay within [0, capacity]. *)

Definition inRange (capacity tokens : num) : Prop :=
  exists c q, capacity = Fin c /\ tokens = Fin q /\ (0 <= q)%Q /\ (q <= c)%Q.

Definition bounded (st : State) : Prop :=
  inRange (requestsPerSecond st) (secondTokens st)
  /\ inRange (requestsPerMinute st) (minuteTokens st).

Definition notBefore (now : Z) (st : State) : Prop :=
  secondLastRefill st <= now /\ minuteLastRefill st <= now.

Lemma elapsed_nonneg now last unit :
  last <= now -> 0 < unit -> (0 <= elapsed now last unit)%Q.
Proof.
  intros Hle Hu. unfold elapsed.
  apply Qle_shift_div_l.
  - change 0%Q with (inject_Z 0). rewrite <- Zlt_Qlt. exact Hu.
  - rewrite Qmult_0_l. change 0%Q with (inject_Z 0). rewrite <- Zle_Qle. lia.
Qed.

Lemma refilled_inRange c q e :
  (0 <= q)%Q -> (q <= c)%Q -> (0 <= e)%Q ->
  inRange (Fin c) (min (Fin c) (add (Fin q) (mul (Fin e) (Fin c)))).
Proof.
  intros Hq Hqc He. cbn.
  assert (Hc : (0 <= c)%Q) by lra.
  pose proof (Qmult_le_0_compat e c He Hc) as Hec.
  destruct (Qle_bool c (q + e * c)) eqn:Hb.
  - exists c, c. repeat split; lra.
  - exists c, (q + e * c)%Q. repeat split; [lra|].
    destruct (Qlt_le_dec (q + e * c) c) as [Hlt|Hge]; [lra|].
    apply Qle_bool_iff in Hge. congruence.
Qed.

Lemma full_inRange c q :
  (0 <= q)%Q -> (q <= c)%Q -> inRange (Fin c) (Fin c).
Proof. intros. exists c, c. repeat split; lra. Qed.

Lemma refillTokens_bounded now st :
  bounded st -> notBefore now st ->
  bounded (refillTokens now st) /\ notBefore now (refillTokens now st).
Proof.
  intros [(cs & qs & Hcs & Hqs & Hs0 & Hs1) (cm & qm & Hcm & Hqm & Hm0 & Hm1)]
         [Hts Htm].
  pose proof (elapsed_nonneg now _ 1000 Hts ltac:(lia)) as Hes.
  pose proof (elapsed_nonneg now _ 60000 Htm ltac:(lia)) as Hem.
  unfold refillTokens, bounded, notBefore.
  destruct (Qle_bool 1 (elapsed now (secondLastRefill st) 1000));
    cbn [requestsPerSecond requestsPerMinute secondTokens minuteTokens
         secondLastRefill minuteLastRefill];
    destruct (Qle_bool 1 (elapsed now (minuteLastRefill st) 60000));
    cbn [requestsPerSecond requestsPerMinute secondTokens minuteTokens
         secondLastRefill minuteLastRefill];
    rewrite ?Hcs, ?Hcm, ?Hqs, ?Hqm;
    repeat split; try lia;
    eauto using refilled_inRange, full_inRange.
Qed.

Lemma consumed_inRange c q :
  (0 <= q)%Q -> (q <= c)%Q ->
  inRange (Fin c) (max (ofZ 0) (sub (Fin q) (ofZ 1))).
Proof.
  intros Hq Hqc. cbn.
  destruct (Qle_bool (inject_Z 0) (q + - inject_Z 1)) eqn:Hb.
  - apply Qle_bool_iff in Hb. change (inject_Z 0) with 0%Q in Hb.
    change (inject_Z 1) with 1%Q in *.
    exists c, (q + - 1)%Q. repeat split; lra.
  - exists c, (inject_Z 0). change (inject_Z 0) with 0%Q.
    repeat split; lra.
Qed.

Lemma consumeTokens_bounded st :
  bounded st -> bounded (consumeTokens st).
Proof.
  intros [(cs & qs & Hcs & Hqs & Hs0 & Hs1) (cm & qm & Hcm & Hqm & Hm0 & Hm1)].
  unfold consumeTokens, bounded. destruct (enabled st); cbn [negb].
  - cbn [requestsPerSecond requestsPerMinute secondTokens minuteTokens].
    rewrite Hcs, Hcm, Hqs, Hqm. split; apply consumed_inRange; assumption.
  - split; [exists cs, qs|exists cm, qm]; repeat split; assumption.
Qed.

Lemma consumeTokens_stamps st :
  secondLastRefill (consumeTokens st) = secondLastRefill st
  /\ minuteLastRefill (consumeTokens st) = minuteLastRefill st.
Proof. unfold consumeTokens. destruct (enabled st); split; reflexivity. Qed.

Lemma canMakeRequest_bounded now st :
  bounded st -> notBefore now st ->
  bounded (snd (canMakeRequest now st))
  /\ notBefore now (snd (canMakeRequest now st)).
Proof.
  intros Hb Ht. unfold canMakeRequest. destruct (enabled st); cbn [negb snd].
  - apply refillTokens_bounded; assumption.
  - split; assumption.
Qed.

Lemma tryAcquire_bounded now st :
  bounded st -> notBefore now st ->
  bounded (snd (tryAcquire now st)) /\ notBefore now (snd (tryAcquire now st)).
Proof.
  intros Hb Ht. unfold tryAcquire.
  destruct (enabled st) eqn:He; cbn [negb]; [|split; assumption].
  pose proof (canMakeRequest_bounded now st Hb Ht) as [Hb' Ht'].
  destruct (canMakeRequest now st) as [ok st']. cbn [snd] in *.
  destruct ok; cbn [snd]; [|split; assumption].
  split; [apply consumeTokens_bounded; exact Hb'|].
  unfold notBefore. destruct (consumeTokens_stamps st') as [-> ->]. exact Ht'.
Qed.

Lemma calculateDelay_bounded now1 now2 st :
  bounded st -> notBefore now1 st ->
  bounded (snd (calculateDelay now1 now2 st))
  /\ notBefore now1 (snd (calculateDelay now1 now2 st)).
Proof.
  intros Hb Ht. unfold calculateDelay.
  destruct (enabled st); cbn [negb]; [|split; assumption].
  match goal with |- context [if ?c then _ else _] => destruct c end;
    cbn [snd]; apply refillTokens_bounded; assumption.
Qed.

Lemma withQueue_bounded q p st : bounded st -> bounded (withQueue q p st).
Proof. intros H. exact H. Qed.

Definition monotone (clock : nat -> Z) : Prop :=
  forall i, clock i <= clock (S i).

Lemma notBefore_later now now' st :
  now <= now' -> notBefore now st -> notBefore now' st.
Proof. unfold notBefore. lia. Qed.

Lemma serviceLoop_bounded clock :
  monotone clock ->
  forall fuel k st log,
    bounded st -> notBefore (clock k) st ->
    bounded (fst (serviceLoop fuel clock k st log)).
Proof.
  intros Hmono. induction fuel as [|fuel IH]; intros k st log Hb Ht;
    cbn [serviceLoop]; [exact Hb|].
  destruct (queue st) as [|item rest]; [exact Hb|].
  pose proof (canMakeRequest_bounded (clock k) st Hb Ht) as [Hb1 Ht1].
  destruct (canMakeRequest (clock k) st) as [ok st1]. cbn [snd] in *.
  destruct ok.
  - apply IH.
    + apply consumeTokens_bounded, withQueue_bounded, Hb1.
    + unfold notBefore.
      destruct (consumeTokens_stamps (withQueue rest (processing st1) st1))
        as [-> ->].
      apply (notBefore_later (clock k)); [apply Hmono|exact Ht1].
  - assert (Ht1' : notBefore (clock (S k)) st1)
      by (apply (notBefore_later (clock k)); [apply Hmono|exact Ht1]).
    pose proof (calculateDelay_bounded (clock (S k)) (clock (S (S k))) st1
                                       Hb1 Ht1') as [Hb2 Ht2].
    destruct (calculateDelay (clock (S k)) (clock (S (S k))) st1)
      as [d st2].
    cbn [snd] in *. apply IH; [exact Hb2|].
    apply (notBefore_later (clock (S k))); [|exact Ht2].
    pose proof (Hmono (S k)). pose proof (Hmono (S (S k))). lia.
Qed.

Lemma acquire_bounded who clock st :
  monotone clock -> bounded st -> notBefore (clock 0%nat) st ->
  bounded (fst (acquire who clock st)).
Proof.
  intros Hmono Hb Ht. unfold acquire.
  destruct (enabled st); cbn [negb fst]; [|exact Hb].
  unfold processQueue.
  match goal with |- context [if ?c then _ else _] => destruct c end;
    [exact Hb|].
  match goal with
  | |- context [serviceLoop ?f ?c ?k ?s ?l] =>
      pose proof (serviceLoop_bounded clock Hmono f k s l Hb Ht) as Hl;
      destruct (serviceLoop f c k s l) as [st1 log]
  end.
  exact Hl.
Qed.

(** An operation is timely when none of its clock readings precedes a
    refill stamp of the state it is applied to. *)
Definition timely (op : Op) (st : State) : Prop :=
  match op with
  | OpAcquire _ clock => monotone clock /\ notBefore (clock 0%nat) st
  | OpTryAcquire now | OpRefill now => notBefore now st
  | OpConsume => True
  end.

Inductive reachable (config : RateLimiterConfig) : State -> Prop :=
| reach_fresh t1 t2 : reachable config (constructor config t1 t2)
| reach_step op st :
    reachable config st -> timely op st -> reachable config (apply op st).

(** Finite, positive capacities and timely operations keep both token
    counts within [0, capacity]. *)
Lemma finite_limiter_tokens_within_capacity (n m : Q) (on : option bool) st :
  (0 < n)%Q -> (0 < m)%Q ->
  reachable (mkConfig (Some (Fin n)) (Some (Fin m)) on) st ->
  bounded st.
Proof.
  intros Hn Hm Hreach. induction Hreach as [t1 t2|op st Hreach IH Ht].
  - unfold constructor, bounded. cbn.
    assert (En : Qeq_bool n 0 = false).
    { destruct (Qeq_bool n 0) eqn:E; [|reflexivity].
      apply Qeq_bool_iff in E. lra. }
    assert (Em : Qeq_bool m 0 = false).
    { destruct (Qeq_bool m 0) eqn:E; [|reflexivity].
      apply Qeq_bool_iff in E. lra. }
    rewrite En, Em. cbn.
    split; [exists n, n|exists m, m]; repeat split; lra.
  - destruct op as [who clock|now|now|]; cbn [apply timely] in *.
    + destruct Ht. apply acquire_bounded; assumption.
    + apply tryAcquire_bounded; assumption.
    + apply refillTokens_bounded; assumption.
    + apply consumeTokens_bounded; assumption.
Qed.

(** *** Bursts against finite capacities

    All calls are made in the millisecond [t] of the last refill stamps, so
    no token is added between them. *)

Definition valueIs (tokens : num) (q : Q) : Prop :=
  exists x, tokens = Fin x /\ (x == q)%Q.

Definition atInstant (t : Z) (cs cm a b : Q) (st : State) : Prop :=
  enabled st = true
  /\ requestsPerSecond st = Fin cs /\ requestsPerMinute st = Fin cm
  /\ secondLastRefill st = t /\ minuteLastRefill st = t
  /\ valueIs (secondTokens st) a /\ valueIs (minuteTokens st) b.

Lemma elapsed_same t unit : (elapsed t t unit == 0)%Q.
Proof.
  unfold elapsed. rewrite Z.sub_diag. unfold Qdiv.
  change (inject_Z 0) with 0%Q. apply Qmult_0_l.
Qed.

Lemma not_yet_refilled t unit : Qle_bool 1 (elapsed t t unit) = false.
Proof.
  destruct (Qle_bool 1 (elapsed t t unit)) eqn:E; [|reflexivity].
  apply Qle_bool_iff in E. rewrite elapsed_same in E. lra.
Qed.

Lemma topped_up_same_instant t unit c x a :
  (x == a)%Q -> (a <= c)%Q ->
  valueIs (min (Fin c) (add (Fin x) (mul (Fin (elapsed t t unit)) (Fin c)))) a.
Proof.
  intros Hx Hac. cbn. pose proof (elapsed_same t unit) as He.
  destruct (Qle_bool c (x + elapsed t t unit * c)) eqn:Hb.
  - apply Qle_bool_iff in Hb. rewrite He in Hb. exists c. split; [reflexivity|].
    lra.
  - exists (x + elapsed t t unit * c)%Q. split; [reflexivity|].
    rewrite He. lra.
Qed.

Lemma refillTokens_same_instant t cs cm a b st :
  atInstant t cs cm a b st -> (a <= cs)%Q -> (b <= cm)%Q ->
  atInstant t cs cm a b (refillTokens t st).
Proof.
  intros (He & Hcs & Hcm & Hts & Htm & (x & Hx & Hxa) & (y & Hy & Hyb)) Ha Hb.
  unfold refillTokens. rewrite Hts.
  rewrite not_yet_refilled.
  cbn [requestsPerSecond requestsPerMinute secondTokens minuteTokens
       secondLastRefill minuteLastRefill enabled].
  rewrite Htm, not_yet_refilled.
  unfold atInstant.
  cbn [requestsPerSecond requestsPerMinute secondTokens minuteTokens
       secondLastRefill minuteLastRefill enabled].
  rewrite Hcs, Hcm, Hx, Hy.
  repeat split; try assumption; apply topped_up_same_instant; assumption.
Qed.

Lemma geb_one x a : (x == a)%Q -> geb (Fin x) (ofZ 1) = Qle_bool 1 a.
Proof.
  intros H. cbn. change (inject_Z 1) with 1%Q. rewrite H. reflexivity.
Qed.

Lemma consumed_one x a :
  (x == a)%Q -> (1 <= a)%Q ->
  valueIs (max (ofZ 0) (sub (Fin x) (ofZ 1))) (a - 1).
Proof.
  intros Hx Ha. cbn. change (inject_Z 0) with 0%Q.
  change (inject_Z 1) with 1%Q.
  destruct (Qle_bool 0 (x + - (1))) eqn:Hb.
  - exists (x + - (1))%Q. split; [reflexivity|]. rewrite Hx. lra.
  - destruct (Qlt_le_dec (x + - (1)) 0) as [Hlt|Hge].
    + rewrite Hx in Hlt. lra.
    + apply Qle_bool_iff in Hge. congruence.
Qed.

(** A successful [tryAcquire] takes exactly one token from each bucket. *)
Lemma tryAcquire_admits t cs cm a b st :
  atInstant t cs cm a b st -> (a <= cs)%Q -> (b <= cm)%Q ->
  (1 <= a)%Q -> (1 <= b)%Q ->
  exists st', tryAcquire t st = (true, st')
              /\ atInstant t cs cm (a - 1) (b - 1) st'.
Proof.
  intros Hst Ha Hb Ha1 Hb1.
  pose proof (refillTokens_same_instant t cs cm a b st Hst Ha Hb)
    as (He & Hcs & Hcm & Hts & Htm & (x & Hx & Hxa) & (y & Hy & Hyb)).
  destruct Hst as (He0 & _).
  unfold tryAcquire, canMakeRequest. rewrite He0. cbn [negb].
  rewrite Hx, Hy, (geb_one x a Hxa), (geb_one y b Hyb).
  assert (E1 : Qle_bool 1 a = true) by (apply Qle_bool_iff; exact Ha1).
  assert (E2 : Qle_bool 1 b = true) by (apply Qle_bool_iff; exact Hb1).
  rewrite E1, E2. cbn [andb]. eexists. split; [reflexivity|].
  unfold consumeTokens. rewrite He. cbn [negb]. unfold atInstant.
  cbn [requestsPerSecond requestsPerMinute secondTokens minuteTokens
       secondLastRefill minuteLastRefill enabled].
  rewrite Hx, Hy.
  repeat split; try assumption; apply consumed_one; assumption.
Qed.

Lemma tryAcquire_refuses t cs cm a b st :
  atInstant t cs cm a b st -> (a <= cs)%Q -> (b <= cm)%Q ->
  (a < 1)%Q ->
  exists st', tryAcquire t st = (false, st') /\ atInstant t cs cm a b st'.
Proof.
  intros Hst Ha Hb Ha1.
  pose proof (refillTokens_same_instant t cs cm a b st Hst Ha Hb) as Hst'.
  pose proof Hst' as
      (He & Hcs & Hcm & Hts & Htm & (x & Hx & Hxa) & (y & Hy & Hyb)).
  destruct Hst as (He0 & _).
  unfold tryAcquire, canMakeRequest. rewrite He0. cbn [negb].
  rewrite Hx, (geb_one x a Hxa).
  assert (E1 : Qle_bool 1 a = false).
  { destruct (Qle_bool 1 a) eqn:E; [|reflexivity].
    apply Qle_bool_iff in E. lra. }
  rewrite E1. cbn [andb]. eexists. split; [reflexivity|exact Hst'].
Qed.

Lemma burst_from t (N M : Z) :
  N <= M ->
  forall k j st,
    0 <= j <= N ->
    atInstant t (inject_Z N) (inject_Z M)
              (inject_Z (N - j)) (inject_Z (M - j)) st ->
    fst (burst k t st)
    = repeat true (Nat.min k (Z.to_nat (N - j)))
      ++ repeat false (k - Z.to_nat (N - j)).
Proof.
  intros HNM. induction k as [|k IH]; intros j st Hj Hst; [reflexivity|].
  cbn [burst].
  assert (Ha : (inject_Z (N - j) <= inject_Z N)%Q)
    by (rewrite <- Zle_Qle; lia).
  assert (Hb : (inject_Z (M - j) <= inject_Z M)%Q)
    by (rewrite <- Zle_Qle; lia).
  destruct (Z.eq_dec j N) as [->|Hne].
  - destruct (tryAcquire_refuses t _ _ _ _ st Hst Ha Hb) as (st' & -> & Hst').
    { rewrite Z.sub_diag. reflexivity. }
    specialize (IH N st' Hj Hst').
    destruct (burst k t st') as [bs st2]. cbn [fst] in *. rewrite IH.
    rewrite Z.sub_diag. cbn. rewrite !Nat.min_0_r, !Nat.sub_0_r. reflexivity.
  - destruct (tryAcquire_admits t _ _ _ _ st Hst Ha Hb) as (st' & -> & Hst').
    { change 1%Q with (inject_Z 1). rewrite <- Zle_Qle. lia. }
    { change 1%Q with (inject_Z 1). rewrite <- Zle_Qle. lia. }
    assert (Hst2 : atInstant t (inject_Z N) (inject_Z M)
                             (inject_Z (N - (j + 1))) (inject_Z (M - (j + 1)))
                             st').
    { destruct Hst' as (He & Hcs & Hcm & Hts & Htm & (x & Hx & Hxa)
                        & (y & Hy & Hyb)).
      repeat split; try assumption.
      - exists x. split; [exact Hx|]. rewrite Hxa.
        replace (N - (j + 1)) with ((N - j) + - (1)) by lia.
        rewrite inject_Z_plus, inject_Z_opp. reflexivity.
      - exists y. split; [exact Hy|]. rewrite Hyb.
        replace (M - (j + 1)) with ((M - j) + - (1)) by lia.
        rewrite inject_Z_plus, inject_Z_opp. reflexivity. }
    specialize (IH (j + 1) st' ltac:(lia) Hst2).
    destruct (burst k t st') as [bs st2]. cbn [fst] in *. rewrite IH.
    replace (Z.to_nat (N - j)) with (S (Z.to_nat (N - (j + 1)))) by lia.
    reflexivity.
Qed.

(** With both capacities finite integers, [1 <= N <= M], the first [N] of
    [k] immediate calls are admitted and all later ones refused. *)
Lemma finite_limiter_burst (N M t : Z) (k : nat) :
  1 <= N <= M ->
  fst (burst k t (constructor (mkConfig (Some (ofZ N)) (Some (ofZ M)) None)
                              t t))
  = repeat true (Nat.min k (Z.to_nat N)) ++ repeat false (k - Z.to_nat N).
Proof.
  intros H.
  rewrite (burst_from t N M ltac:(lia) k 0); [rewrite Z.sub_0_r; reflexivity
                                             |lia|].
  unfold constructor, atInstant. cbn.
  assert (EN : Qeq_bool (inject_Z N) 0 = false).
  { destruct (Qeq_bool (inject_Z N) 0) eqn:E; [|reflexivity].
    apply Qeq_bool_iff in E. change 0%Q with (inject_Z 0) in E.
    rewrite inject_Z_injective in E. lia. }
  assert (EM : Qeq_bool (inject_Z M) 0 = false).
  { destruct (Qeq_bool (inject_Z M) 0) eqn:E; [|reflexivity].
    apply Qeq_bool_iff in E. change 0%Q with (inject_Z 0) in E.
    rewrite inject_Z_injective in E. lia. }
  rewrite EN, EM. cbn. rewrite !Z.sub_0_r.
  repeat split; eexists; split; reflexivity.
Qed.

End RateLimiterFacts.

(* ------------------------------------------------------------------ *)
(** ** Effects: small facts used by the provider and adapter proofs *)

Module EffectFacts.
Import Types Effects.

Definition afterLog (logger : Logger) (level : LogLevel) (text : string)
           (w : World) : World :=
  fst (log logger level text w).

Lemma log_eq logger level text w :
  log logger level text w = (afterLog logger level text w, inr tt).
Proof.
  unfold afterLog, log. destruct (shouldLog logger level); reflexivity.
Qed.

Lemma afterLog_fetched logger level text w :
  fetched (afterLog logger level text w) = fetched w.
Proof.
  unfold afterLog, log. destruct (shouldLog logger level); reflexivity.
Qed.

Lemma bind_resolved {A B} (m : M A) (k : A -> M B) w w1 a :
  m w = (w1, inr a) -> bind m k w = k a w1.
Proof. intros H. unfold bind. rewrite H. reflexivity. Qed.

Lemma bind_rejected {A B} (m : M A) (k : A -> M B) w w1 e :
  m w = (w1, inl e) -> bind m k w = (w1, inl e).
Proof. intros H. unfold bind. rewrite H. reflexivity. Qed.

Lemma orNumber_not_zero n d : d <> 0 -> orNumber n d <> 0.
Proof.
  intros Hd. unfold orNumber. destruct n as [x|]; [|exact Hd].
  destruct (Z.eqb_spec x 0); assumption.
Qed.

Lemma filter_twice {A} (p q : A -> bool) (l : list A) :
  filter q (filter p l) = filter (fun x => p x && q x) l.
Proof.
  induction l as [|a l IH]; [reflexivity|]. cbn.
  destruct (p a); cbn; [destruct (q a)|]; rewrite IH; reflexivity.
Qed.

Lemma nth_error_last {A} (l : list A) (d : A) :
  l <> [] -> nth_error l (List.length l - 1) = Some (last l d).
Proof.
  induction l as [|a l IH]; [congruence|]. intros _.
  destruct l as [|b l]; [reflexivity|].
  cbn [List.length last]. replace (S (S (List.length l)) - 1)%nat
    with (S (List.length (b :: l) - 1)) by (cbn; lia).
  cbn [nth_error]. apply IH. discriminate.
Qed.

(** The world and the environment of the worked examples. *)
Definition world0 : World :=
  mkWorld 0 [] [] 0
          (TransactionCache.constructor
             (MemoryCache.mkCacheConfig None None None)).

End EffectFacts.

(* ------------------------------------------------------------------ *)
(** ** REST-indexer and JSON-RPC providers *)

Module ProviderFacts.
Import JsString Types Effects Http Environment EffectFacts.
Local Open Scope string_scope.

(** The world in which the Etherscan request is issued: after admission
    by the rate limiter and the two debug lines. *)
Definition admitted (self : EthereumProvider.t) (w1 : World) : World :=
  afterLog (EthereumProvider.logger self) Debug
           "Fetching transactions from Etherscan"
           (afterLog (EthereumProvider.logger self) Debug
                     "Rate limit acquired for Ethereum request" w1).

(** What the [catch] clause of the provider makes of an error. *)
Definition rethrown (e : SDKError) : SDKError :=
  if isProviderError e then e
  else ProviderError ("Failed to fetch Ethereum transactions: " ++ message e)
                     (Some "Etherscan") None.

Lemma ethereum_getTransactions_interprets
      env self address options key w w1 w2 response :
  EthereumProvider.apiKey self = Some key ->
  nonEmpty key = true ->
  acquireEthereum env w = (w1, inr tt) ->
  EthereumProvider.fetchPage env self
    (EthereumProvider.requestUrl self key address
       (orNumber (page options) 1) (orNumber (limit options) 100))
    (admitted self w1) = (w2, inr response) ->
  EthereumProvider.getTransactions env self address options w
  = (w2,
     match EthereumProvider.interpret env address
             (orNumber (page options) 1) (orNumber (limit options) 100)
             (responseData response) with
     | inr r => inr r
     | inl e => inl (rethrown e)
     end).
Proof.
  intros Hkey Hne Hacq Hfetch.
  unfold EthereumProvider.getTransactions.
  rewrite Hkey. cbn [EthereumProvider.truthyString orString]. rewrite Hne.
  cbn [negb].
  rewrite (bind_resolved _ _ _ _ _ Hacq).
  rewrite (bind_resolved _ _ _ _ _ (log_eq _ _ _ _)).
  unfold tryCatch.
  rewrite (bind_resolved _ _ _ _ _ (log_eq _ _ _ _)).
  fold (admitted self w1).
  rewrite (bind_resolved _ _ _ _ _ Hfetch).
  unfold lift, rethrown, throw.
  destruct (EthereumProvider.interpret env address _ _ _) as [e|r];
    [|reflexivity].
  destruct (isProviderError e); reflexivity.
Qed.

Lemma mapThrowing_length {A B} (f : A -> SDKError + B) l bs :
  EthereumProvider.mapThrowing f l = inr bs -> List.length bs = List.length l.
Proof.
  revert bs. induction l as [|a l IH]; intros bs H; cbn in H.
  - injection H as <-. reflexivity.
  - destruct (f a) as [e|b]; [discriminate|].
    destruct (EthereumProvider.mapThrowing f l) as [e|bs']; [discriminate|].
    injection H as <-. cbn. f_equal. apply IH. reflexivity.
Qed.

(** The number of records the backend returned. *)
Definition recordsReturned (data : EtherscanTransactionResponse) : nat :=
  match ets_result data with
  | ResultArray records => List.length records
  | _ => 0%nat
  end.

Definition signatureRecords (s : option (list SolanaSignatureInfo))
  : list SolanaSignatureInfo :=
  match s with Some l => l | None => [] end.

(** The limit a request is made with: the requested one, or 100 when none
    or 0 is requested. *)
Definition effectiveLimit (options : PaginationOptions) : Z :=
  match limit options with
  | Some L => if (L =? 0)%Z then 100%Z else L
  | None => 100%Z
  end.

Lemma interpret_hasMore env address page lim data r :
  lim <> 0%Z ->
  EthereumProvider.interpret env address page lim data = inr r ->
  hasMore (pagination r) = (Z.of_nat (recordsReturned data) =? lim)%Z.
Proof.
  intros Hlim. unfold EthereumProvider.interpret, recordsReturned.
  destruct (ets_result data) as [records|text|].
  - destruct (EthereumProvider.mapThrowing _ records) as [e|txs] eqn:Hmap;
      [discriminate|].
    intros H. injection H as <-. cbn.
    rewrite (mapThrowing_length _ _ _ Hmap). reflexivity.
  - destruct (String.eqb (ets_status data) "0"); [|discriminate].
    destruct (includes "No transactions found" text); [|discriminate].
    intros H. injection H as <-. cbn [pagination hasMore].
    symmetry. apply Z.eqb_neq. cbn. congruence.
  - discriminate.
Qed.

(** *** Worked examples *)

Definition answering {D} (d : D) : Remote D :=
  fun _ _ => (Responded (mkFetchResponse 200 "OK" true None (Some d)), 5%Z).

Definition unreachable {D} : Remote D :=
  fun _ _ => (FailedToFetch "fetch failed", 1%Z).

Definition indexerEnv (remote : Remote EtherscanTransactionResponse) : Env :=
  mkEnv (fun _ => None) (fun _ _ => None) remote unreachable unreachable
        (ret tt) (ret tt) noOpLogger.

Definition rpcEnv
           (signatures :
              Remote (SolanaRpcResponse (option (list SolanaSignatureInfo))))
  : Env :=
  mkEnv (fun _ => None) (fun _ _ => None) unreachable signatures unreachable
        (ret tt) (ret tt) noOpLogger.

Definition indexer : EthereumProvider.t :=
  EthereumProvider.mkProvider
    (EthereumProvider.mkConfig (Some "key") None None None)
    (Some "key") "https://api.etherscan.io/v2/api" 30000 noOpLogger.

Definition node : SolanaProvider.t :=
  SolanaProvider.mkProvider "https://api.mainnet-beta.solana.com" 30000
                            "confirmed" noOpLogger.

Definition someAddress : string :=
  "0x742d35cc6634c0532925a3b844bc9e7595f0beb0".

Definition someKey : string :=
  "9WzDXwBbmkg8ZTbNMqUxvQRAyrZzDsGYdLVL9zYtAWWM".

Definition refusal : EtherscanTransactionResponse :=
  mkEtherscanResponse "0" "NOTOK" (ResultString "Invalid API Key").

Definition emptyPage : EtherscanTransactionResponse :=
  mkEtherscanResponse "1" "OK" (ResultArray []).

Definition zeroLimit : PaginationOptions :=
  mkOptions (Some 0%Z) None None None None.

(** C6 (as the code has it).  When the Etherscan request resolves with
    [status = "0"] and a string [result]: if the string contains
    "No transactions found" the call resolves with no data and
    [hasMore = false]; otherwise it rejects with a provider error whose
    provider is "Etherscan" and whose message is "Etherscan API error: "
    followed by the string. *)
Theorem etherscan_status_zero_with_text
        env self address options key w w1 w2 response text :
  EthereumProvider.apiKey self = Some key ->
  nonEmpty key = true ->
  acquireEthereum env w = (w1, inr tt) ->
  EthereumProvider.fetchPage env self
    (EthereumProvider.requestUrl self key address
       (orNumber (page options) 1) (orNumber (limit options) 100))
    (admitted self w1) = (w2, inr response) ->
  ets_status (responseData response) = "0" ->
  ets_result (responseData response) = ResultString text ->
  EthereumProvider.getTransactions env self address options w
  = (w2,
     if includes "No transactions found" text
     then inr (mkResponse []
                 (mkMetadata (Some 0%Z) (Some (orNumber (page options) 1))
                             (Some 0%Z) None false))
     else inl (ProviderError ("Etherscan API error: " ++ text)
                             (Some "Etherscan") None)).
Proof.
  intros Hkey Hne Hacq Hfetch Hstatus Hresult.
  rewrite (ethereum_getTransactions_interprets
             env self address options key w w1 w2 response
             Hkey Hne Hacq Hfetch).
  unfold EthereumProvider.interpret. rewrite Hstatus, Hresult. cbn.
  destruct (includes "No transactions found" text); reflexivity.
Qed.

Lemma etherscan_status_zero_with_text_witness :
  snd (EthereumProvider.getTransactions
         (indexerEnv (answering (mkEtherscanResponse
                                   "0" "No transactions found"
                                   (ResultString "No transactions found"))))
         indexer someAddress noOptions world0)
  = inr (mkResponse []
           (mkMetadata (Some 0%Z) (Some 1%Z) (Some 0%Z) None false)).
Proof.
  rewrite (etherscan_status_zero_with_text
             (indexerEnv (answering (mkEtherscanResponse
                                       "0" "No transactions found"
                                       (ResultString "No transactions found"))))
             indexer someAddress noOptions "key" world0 world0 _ _
             "No transactions found"
             eq_refl eq_refl eq_refl eq_refl eq_refl eq_refl).
  reflexivity.
Defined.

(** C6 (counterexample).  For the string "Invalid API Key" the message of
    the provider error is "Etherscan API error: Invalid API Key", which is
    not that string. *)
Lemma etherscan_error_message_is_prefixed :
  snd (EthereumProvider.getTransactions (indexerEnv (answering refusal))
                                        indexer someAddress noOptions world0)
  = inl (ProviderError "Etherscan API error: Invalid API Key"
                       (Some "Etherscan") None)
  /\ "Etherscan API error: Invalid API Key" <> "Invalid API Key".
Proof. split; [vm_compute; reflexivity|discriminate]. Qed.

Lemma effectiveLimit_orNumber options :
  orNumber (limit options) 100 = effectiveLimit options.
Proof. reflexivity. Qed.

Lemma solana_getTransactions_pagination
      env self publicKey options w w1 signatures w' r :
  SolanaProvider.getSignatures env self publicKey options w
  = (w1, inr signatures) ->
  SolanaProvider.getTransactions env self publicKey options w = (w', inr r) ->
  pagination r
  = (let records := signatureRecords signatures in
     let full := (Z.of_nat (List.length records)
                  =? orNumber (limit options) 100)%Z in
     mkMetadata None None None
                (if full
                 then option_map sig_signature
                        (nth_error records (List.length records - 1))
                 else None)
                full).
Proof.
  intros Hsig. unfold SolanaProvider.getTransactions.
  rewrite (bind_resolved _ _ _ _ _ Hsig).
  assert (Hz : (0 =? orNumber (limit options) 100)%Z = false).
  { apply Z.eqb_neq. intros E. symmetry in E. revert E.
    apply orNumber_not_zero. discriminate. }
  destruct signatures as [[|s l]|].
  - unfold ret. intros H. injection H as _ <-.
    cbn [pagination signatureRecords List.length]. cbn zeta.
    change (Z.of_nat 0) with 0%Z. rewrite Hz. reflexivity.
  - unfold bind.
    destruct (SolanaProvider.getTransactionDetails env self _ w1)
      as [w2 [e|details]]; [discriminate|].
    unfold readClock, ret. intros H. injection H as _ <-. reflexivity.
  - unfold ret. intros H. injection H as _ <-.
    cbn [pagination signatureRecords List.length]. cbn zeta.
    change (Z.of_nat 0) with 0%Z. rewrite Hz. reflexivity.
Qed.

(** C7 (as the code has it).  Both providers compare the number of records
    the backend returned with the effective limit: the requested limit, or
    100 when none or 0 is requested.  [hasMore] is true exactly when the two
    are equal; for the JSON-RPC provider [nextCursor] is the signature of the
    last record when [hasMore] is true and unset otherwise. *)
Theorem hasMore_compares_with_effective_limit (env : Env) :
  (forall self address options key w w1 w2 response w' r,
      EthereumProvider.apiKey self = Some key ->
      nonEmpty key = true ->
      acquireEthereum env w = (w1, inr tt) ->
      EthereumProvider.fetchPage env self
        (EthereumProvider.requestUrl self key address
           (orNumber (page options) 1) (orNumber (limit options) 100))
        (admitted self w1) = (w2, inr response) ->
      EthereumProvider.getTransactions env self address options w
      = (w', inr r) ->
      (hasMore (pagination r) = true
       <-> Z.of_nat (recordsReturned (responseData response))
           = effectiveLimit options))
  /\ (forall self publicKey options w w1 signatures w' r,
      SolanaProvider.getSignatures env self publicKey options w
      = (w1, inr signatures) ->
      SolanaProvider.getTransactions env self publicKey options w
      = (w', inr r) ->
      let records := signatureRecords signatures in
      (hasMore (pagination r) = true
       <-> Z.of_nat (List.length records) = effectiveLimit options)
      /\ nextCursor (pagination r)
         = if hasMore (pagination r)
           then Some (sig_signature
                        (last records (mkSignatureInfo "" 0 false None None)))
           else None).
Proof.
  split.
  - intros self address options key w w1 w2 response w' r
           Hkey Hne Hacq Hfetch Hres.
    rewrite (ethereum_getTransactions_interprets
               env self address options key w w1 w2 response
               Hkey Hne Hacq Hfetch) in Hres.
    destruct (EthereumProvider.interpret env address _ _ _) as [e|r0] eqn:Hi;
      [discriminate|].
    injection Hres as _ <-.
    rewrite (interpret_hasMore _ _ _ _ _ _
               (orNumber_not_zero _ 100%Z ltac:(discriminate)) Hi).
    rewrite effectiveLimit_orNumber. apply Z.eqb_eq.
  - intros self publicKey options w w1 signatures w' r Hsig Hres records.
    rewrite (solana_getTransactions_pagination
               env self publicKey options w w1 signatures w' r Hsig Hres).
    fold records. cbn [hasMore nextCursor]. rewrite effectiveLimit_orNumber.
    split; [apply Z.eqb_eq|].
    destruct (Z.eqb_spec (Z.of_nat (List.length records))
                         (effectiveLimit options)) as [E|E]; [|reflexivity].
    rewrite (nth_error_last records (mkSignatureInfo "" 0 false None None)).
    + reflexivity.
    + intros Hnil. rewrite Hnil in E. cbn in E. symmetry in E. revert E.
      rewrite <- effectiveLimit_orNumber. apply orNumber_not_zero.
      discriminate.
Qed.

Definition oneSignature : SolanaSignatureInfo :=
  mkSignatureInfo "5VERv8NMvzbJMEkV8xnrLkEaWRtSz9CosKDYjCJjBRnb" 42 false None
                  (Some 1700000000%Z).

Definition onePageOfOne : PaginationOptions :=
  mkOptions (Some 1%Z) None None None None.

(** A worked example: both backends answer a request for one record with
    one record, a full page. *)
Definition fullRecord : EtherscanTransaction :=
  mkEtherscanTransaction "100" "1700000000" "0xabc" "1" "0xfrom" "0xto" "5"
                         "21000" "1" "0" "1" "0x" EmptyString EmptyString.

Definition fullDetails : SolanaTransactionDetails :=
  mkDetails 42 ["payer"] None false 5000 None None.

Definition fullPageEnv : Env :=
  mkEnv (fun _ => None) (fun _ _ => None)
        (answering (mkEtherscanResponse "1" "OK" (ResultArray [fullRecord])))
        (answering (mkRpcResponse (Some (Some [oneSignature])) None))
        (answering (mkRpcResponse (Some (Some fullDetails)) None))
        (ret tt) (ret tt) noOpLogger.

Definition pageOf {A} (out : World * (SDKError + PaginatedResponse A))
  : PaginatedResponse A :=
  match snd out with
  | inr r => r
  | inl _ => mkResponse [] (mkMetadata None None None None false)
  end.

Definition fullPageFetch
  : World * (SDKError + HttpResponse EtherscanTransactionResponse) :=
  EthereumProvider.fetchPage
    fullPageEnv indexer
    (EthereumProvider.requestUrl indexer "key" someAddress 1 1)
    (admitted indexer world0).

Definition ethereumFullPage
  : World * (SDKError + PaginatedResponse EthereumTransaction) :=
  EthereumProvider.getTransactions fullPageEnv indexer someAddress
                                   onePageOfOne world0.

Definition solanaFullPage
  : World * (SDKError + PaginatedResponse SolanaTransaction) :=
  SolanaProvider.getTransactions fullPageEnv node someKey onePageOfOne world0.

Lemma hasMore_compares_with_effective_limit_witness :
  (snd ethereumFullPage = inr (pageOf ethereumFullPage)
   /\ List.length (data (pageOf ethereumFullPage)) = 1%nat
   /\ effectiveLimit onePageOfOne = 1%Z
   /\ hasMore (pagination (pageOf ethereumFullPage)) = true)
  /\ (snd solanaFullPage = inr (pageOf solanaFullPage)
      /\ List.length (data (pageOf solanaFullPage)) = 1%nat
      /\ hasMore (pagination (pageOf solanaFullPage)) = true
      /\ nextCursor (pagination (pageOf solanaFullPage))
         = Some (sig_signature oneSignature)).
Proof.
  destruct (hasMore_compares_with_effective_limit fullPageEnv)
    as [Hethereum Hsolana].
  split.
  - assert (Hfetch : fullPageFetch
                     = (fst fullPageFetch,
                        inr (mkHttpResponse
                               200 "OK"
                               (mkEtherscanResponse
                                  "1" "OK" (ResultArray [fullRecord])))))
      by (vm_compute; reflexivity).
    assert (Hget : ethereumFullPage
                   = (fst ethereumFullPage, inr (pageOf ethereumFullPage)))
      by (vm_compute; reflexivity).
    pose proof (Hethereum indexer someAddress onePageOfOne "key" world0 world0
                          _ _ _ _ eq_refl eq_refl eq_refl Hfetch Hget)
      as Hiff.
    split; [rewrite Hget at 1; reflexivity|].
    split; [vm_compute; reflexivity|].
    split; [reflexivity|].
    apply (proj2 Hiff). reflexivity.
  - assert (Hsig : SolanaProvider.getSignatures fullPageEnv node someKey
                                                onePageOfOne world0
                   = (fst (SolanaProvider.getSignatures
                             fullPageEnv node someKey onePageOfOne world0),
                      inr (Some [oneSignature])))
      by (vm_compute; reflexivity).
    assert (Hget : solanaFullPage
                   = (fst solanaFullPage, inr (pageOf solanaFullPage)))
      by (vm_compute; reflexivity).
    destruct (Hsolana node someKey onePageOfOne world0 _ _ _ _ Hsig Hget)
      as [Hiff Hcursor].
    assert (Hmore : hasMore (pagination (pageOf solanaFullPage)) = true)
      by (apply (proj2 Hiff); reflexivity).
    split; [rewrite Hget at 1; reflexivity|].
    split; [vm_compute; reflexivity|].
    split; [exact Hmore|].
    rewrite Hcursor, Hmore. reflexivity.
Defined.

(** C7 (counterexample).  With the requested limit 0 and a backend that
    returns 0 records the number of records equals the requested limit, yet
    [hasMore] is false: the request was made with the limit 100. *)
Lemma zero_limit_full_page_has_no_more :
  snd (EthereumProvider.getTransactions (indexerEnv (answering emptyPage))
                                        indexer someAddress zeroLimit world0)
  = inr (mkResponse []
           (mkMetadata None (Some 1%Z) (Some 1%Z) None false))
  /\ limit zeroLimit = Some 0%Z
  /\ Z.of_nat (recordsReturned emptyPage) = 0%Z
  /\ snd (SolanaProvider.getTransactions
            (rpcEnv (answering (mkRpcResponse (Some (Some [])) None)))
            node someKey zeroLimit world0)
     = inr (mkResponse [] (mkMetadata None None None None false)).
Proof. vm_compute. repeat split. Qed.

(** An HTTP 500 answer reaches the caller of the provider after a single
    call of [fetch]; an HTTP 429 answer is fetched four times first. *)
Definition serverError : Remote EtherscanTransactionResponse :=
  fun _ _ =>
    (Responded (mkFetchResponse 500 "Internal Server Error" false None
                                (Some (mkEtherscanResponse "" "" ResultOther))),
     5%Z).

Definition tooManyRequests : Remote EtherscanTransactionResponse :=
  fun _ _ =>
    (Responded (mkFetchResponse 429 "Too Many Requests" false None None), 5%Z).

Lemma http_500_is_fetched_once :
  let served := EthereumProvider.getTransactions
                  (indexerEnv serverError) indexer someAddress noOptions
                  world0 in
  let throttled := EthereumProvider.getTransactions
                     (indexerEnv tooManyRequests) indexer someAddress
                     noOptions world0 in
  List.length (fetched (fst served)) = 1%nat
  /\ snd served
     = inl (ProviderError "HTTP 500: Internal Server Error" None (Some 500%Z))
  /\ List.length (fetched (fst throttled)) = 4%nat.
Proof. vm_compute. repeat split. Qed.

End ProviderFacts.

(* ------------------------------------------------------------------ *)
(** ** Adapters and facade *)

Module AdapterFacts.
Import JsString Types Effects Environment Validation EffectFacts.
Local Open Scope string_scope.

(** An address of neither format. *)
Definition malformed (address : string) : Prop :=
  isValidEthereumAddress address = false
  /\ isValidSolanaPublicKey address = false.

Lemma ethereum_validateAddress address :
  EthereumAdapter.validateAddress address = isValidEthereumAddress address.
Proof.
  unfold EthereumAdapter.validateAddress, validateAddressForNetwork,
    isValidEthereumAddress.
  destruct (nonEmpty address); cbn [negb]; [|reflexivity].
  fold (isValidEthereumAddress address).
  destruct address as [|c s]; [reflexivity|].
  match goal with |- context [negb ?b] => destruct b end; reflexivity.
Qed.

Lemma solana_validateAddress publicKey :
  SolanaAdapter.validateAddress publicKey = isValidSolanaPublicKey publicKey.
Proof.
  unfold SolanaAdapter.validateAddress, validateAddressForNetwork,
    isValidSolanaPublicKey.
  destruct (nonEmpty publicKey); cbn [negb]; [|reflexivity].
  match goal with |- context [negb ?b] => destruct b end; reflexivity.
Qed.

(** The world after the facade has logged its refusal. *)
Definition refusedWorld (sdk : BlockchainSDK.t) (w : World) : World :=
  afterLog (BlockchainSDK.logger sdk) Error
           "Unable to detect network from address"
           (afterLog (BlockchainSDK.logger sdk) Debug
                     "Fetching transactions" w).

(** C8.  For an address that matches neither the 0x-hex format nor the
    base58 format, each adapter's [getTransactions] and the facade's
    auto-detecting [getTransactions] reject with a validation error whose
    context carries the address, and no call of [fetch] is added to the
    world: the adapters leave the world as it is, the facade only writes to
    its log. *)
Theorem malformed_address_rejected_before_any_fetch
        (env : Env) (address : string) (w : World) :
  malformed address ->
  (forall provider options,
      EthereumAdapter.getTransactions env provider address options w
      = (w, inl (ValidationError "Invalid Ethereum address format"
                                 [("address", address)])))
  /\ (forall provider options,
      SolanaAdapter.getTransactions env provider address options w
      = (w, inl (ValidationError "Invalid Solana public key format"
                                 [("publicKey", address)])))
  /\ (forall sdk options,
      exists e,
        BlockchainSDK.getTransactions env sdk address options w
        = (refusedWorld sdk w, inl e)
        /\ isValidationError e = true
        /\ lookupCtx "address" (contextOf e) = Some address
        /\ fetched (refusedWorld sdk w) = fetched w).
Proof.
  intros [Heth Hsol]. repeat split.
  - intros provider options. unfold EthereumAdapter.getTransactions.
    rewrite ethereum_validateAddress, Heth. reflexivity.
  - intros provider options. unfold SolanaAdapter.getTransactions.
    rewrite solana_validateAddress, Hsol. reflexivity.
  - intros sdk options. eexists. repeat split.
    + unfold BlockchainSDK.getTransactions.
      rewrite (bind_resolved _ _ _ _ _ (log_eq _ _ _ _)).
      unfold getNetworkFromAddress, detectNetwork. rewrite Heth, Hsol.
      rewrite (bind_resolved _ _ _ _ _ (log_eq _ _ _ _)).
      reflexivity.
    + reflexivity.
    + reflexivity.
    + unfold refusedWorld. rewrite !afterLog_fetched. reflexivity.
Qed.

Definition verboseSDK : BlockchainSDK.t :=
  BlockchainSDK.mkSDK (Some ProviderFacts.indexer) (Some ProviderFacts.node)
                      (mkLogger true Debug) true.

Lemma malformed_address_rejected_before_any_fetch_witness :
  malformed "invalid"
  /\ EthereumAdapter.getTransactions
       (ProviderFacts.indexerEnv ProviderFacts.unreachable)
       ProviderFacts.indexer "invalid" noOptions world0
     = (world0, inl (ValidationError "Invalid Ethereum address format"
                                     [("address", "invalid")])).
Proof.
  assert (H : malformed "invalid") by (split; reflexivity).
  split; [exact H|].
  exact (proj1 (malformed_address_rejected_before_any_fetch
                  (ProviderFacts.indexerEnv ProviderFacts.unreachable)
                  "invalid" world0 H)
               ProviderFacts.indexer noOptions).
Defined.

(** The time window of [options], as a test on a timestamp. *)
Definition withinWindow (options : PaginationOptions) (ts : option Z)
  : bool :=
  match startTime options with
  | Some bound => notBefore ts bound
  | None => true
  end
  && match endTime options with
     | Some bound => notAfter ts bound
     | None => true
     end.

(** The same, spelled out: the timestamp is a number lying on the right side
    of each bound that is given. *)
Definition respectsBounds (options : PaginationOptions) (ts : option Z)
  : Prop :=
  (forall s, startTime options = Some s ->
             exists t, ts = Some t /\ (s <= t)%Z)
  /\ (forall e, endTime options = Some e ->
                exists t, ts = Some t /\ (t <= e)%Z).

Lemma withinWindow_respects options ts :
  withinWindow options ts = true -> respectsBounds options ts.
Proof.
  unfold withinWindow, respectsBounds. intros H.
  apply andb_true_iff in H as [Hs He]. split.
  - intros s E. rewrite E in Hs. destruct ts as [t|]; [|discriminate].
    exists t. split; [reflexivity|]. apply Z.leb_le. exact Hs.
  - intros e E. rewrite E in He. destruct ts as [t|]; [|discriminate].
    exists t. split; [reflexivity|]. apply Z.leb_le. exact He.
Qed.

Lemma ethereum_filterTransactions txs options :
  EthereumAdapter.filterTransactions txs options
  = filter (fun tx => withinWindow options (eth_timestamp tx)) txs.
Proof.
  unfold EthereumAdapter.filterTransactions, withinWindow.
  destruct (startTime options) as [s|], (endTime options) as [e|]; cbn zeta.
  - apply filter_twice.
  - apply filter_ext. intros tx. rewrite andb_true_r. reflexivity.
  - reflexivity.
  - induction txs as [|tx txs IH]; [reflexivity|]. cbn. f_equal. exact IH.
Qed.

Lemma solana_filterTransactions txs options :
  SolanaAdapter.filterTransactions txs options
  = filter (fun tx => withinWindow options (sol_timestamp tx)) txs.
Proof.
  unfold SolanaAdapter.filterTransactions, withinWindow.
  destruct (startTime options) as [s|], (endTime options) as [e|]; cbn zeta.
  - apply filter_twice.
  - apply filter_ext. intros tx. rewrite andb_true_r. reflexivity.
  - reflexivity.
  - induction txs as [|tx txs IH]; [reflexivity|]. cbn. f_equal. exact IH.
Qed.

Lemma filter_all {A} (p : A -> bool) (P : A -> Prop) l :
  (forall a, p a = true -> P a) -> Forall P (filter p l).
Proof.
  intros H. apply Forall_forall. intros a Ha.
  apply filter_In in Ha as [_ Hp]. apply H, Hp.
Qed.

(** C9.  Whenever an adapter's [getTransactions] resolves, the provider was
    called (for Ethereum with the lower-cased address and the options
    stripped of their time bounds) and resolved with some page; the
    pagination metadata returned is that page's, unchanged; the data returned
    are exactly the page's transactions whose timestamp lies within the
    bounds given, in order; so every returned transaction has
    [timestamp >= startTime] and [timestamp <= endTime] for each bound that
    is given, both inclusive.  And each adapter does resolve so: for a
    well-formed address, when the provider resolves with a page, the
    adapter resolves, in the same world, with that page's pagination and
    the page's transactions that lie within the bounds. *)
Theorem adapter_filters_by_time_and_keeps_pagination (env : Env) :
  (forall self address options w w' r,
      EthereumAdapter.getTransactions env self address options w
      = (w', inr r) ->
      exists upstream,
        EthereumProvider.getTransactions
          env self (toLowerCase address)
          (EthereumAdapter.applyTimeRangeFilter options) w
        = (w', inr upstream)
        /\ pagination r = pagination upstream
        /\ data r = filter (fun tx => withinWindow options (eth_timestamp tx))
                           (data upstream)
        /\ Forall (fun tx => respectsBounds options (eth_timestamp tx))
                  (data r))
  /\ (forall self publicKey options w w' r,
      SolanaAdapter.getTransactions env self publicKey options w
      = (w', inr r) ->
      exists upstream,
        SolanaProvider.getTransactions env self publicKey options w
        = (w', inr upstream)
        /\ pagination r = pagination upstream
        /\ data r = filter (fun tx => withinWindow options (sol_timestamp tx))
                           (data upstream)
        /\ Forall (fun tx => respectsBounds options (sol_timestamp tx))
                  (data r))
  /\ (forall self address options w w' upstream,
      isValidEthereumAddress address = true ->
      EthereumProvider.getTransactions
        env self (toLowerCase address)
        (EthereumAdapter.applyTimeRangeFilter options) w
      = (w', inr upstream) ->
      EthereumAdapter.getTransactions env self address options w
      = (w', inr (mkResponse
                    (filter (fun tx => withinWindow options (eth_timestamp tx))
                            (data upstream))
                    (pagination upstream))))
  /\ (forall self publicKey options w w' upstream,
      isValidSolanaPublicKey publicKey = true ->
      SolanaProvider.getTransactions env self publicKey options w
      = (w', inr upstream) ->
      SolanaAdapter.getTransactions env self publicKey options w
      = (w', inr (mkResponse
                    (filter (fun tx => withinWindow options (sol_timestamp tx))
                            (data upstream))
                    (pagination upstream)))).
Proof.
  split; [|split; [|split]].
  - intros self address options w w' r.
    unfold EthereumAdapter.getTransactions.
    rewrite ethereum_validateAddress.
    destruct (isValidEthereumAddress address) eqn:Hv; cbn [negb];
      [|discriminate].
    unfold normalizeEthereumAddress, lift, bind. rewrite Hv. cbn [negb].
    destruct (EthereumProvider.getTransactions env self _ _ w)
      as [w1 [e|upstream]]; [discriminate|].
    unfold ret. intros H. injection H as <- <-. exists upstream.
    cbn [data pagination]. rewrite ethereum_filterTransactions.
    repeat split. apply filter_all. intros tx. apply withinWindow_respects.
  - intros self publicKey options w w' r.
    unfold SolanaAdapter.getTransactions.
    rewrite solana_validateAddress.
    destruct (isValidSolanaPublicKey publicKey) eqn:Hv; cbn [negb];
      [|discriminate].
    unfold normalizeSolanaPublicKey, lift, bind. rewrite Hv. cbn [negb].
    destruct (SolanaProvider.getTransactions env self _ _ w)
      as [w1 [e|upstream]]; [discriminate|].
    unfold ret. intros H. injection H as <- <-. exists upstream.
    cbn [data pagination]. rewrite solana_filterTransactions.
    repeat split. apply filter_all. intros tx. apply withinWindow_respects.
  - intros self address options w w' upstream Hv Hup.
    unfold EthereumAdapter.getTransactions.
    rewrite ethereum_validateAddress, Hv. cbn [negb].
    unfold normalizeEthereumAddress, lift, bind. rewrite Hv. cbn [negb].
    rewrite Hup. unfold ret. rewrite ethereum_filterTransactions.
    reflexivity.
  - intros self publicKey options w w' upstream Hv Hup.
    unfold SolanaAdapter.getTransactions.
    rewrite solana_validateAddress, Hv. cbn [negb].
    unfold normalizeSolanaPublicKey, lift, bind. rewrite Hv. cbn [negb].
    rewrite Hup. unfold ret. rewrite solana_filterTransactions.
    reflexivity.
Qed.

(** A worked example: two records, one before and one after the lower
    bound. *)
Definition readSeconds (s : string) : option Z :=
  if String.eqb s "1600000000" then Some 1600000000%Z
  else if String.eqb s "1700000000" then Some 1700000000%Z
  else None.

Definition rawAt (seconds : string) : EtherscanTransaction :=
  mkEtherscanTransaction "1" seconds "0xabc" "0" "0xfrom" "0xto" "1" "21000"
                         "1" "0" "1" "0x" EmptyString EmptyString.

Definition twoRecords : Http.Remote EtherscanTransactionResponse :=
  ProviderFacts.answering
    (mkEtherscanResponse "1" "OK"
                         (ResultArray [rawAt "1700000000";
                                       rawAt "1600000000"])).

Definition datedEnv : Env :=
  mkEnv readSeconds (fun _ _ => None) twoRecords ProviderFacts.unreachable
        ProviderFacts.unreachable (ret tt) (ret tt) noOpLogger.

Definition since2022 : PaginationOptions :=
  mkOptions (Some 2%Z) None None (Some 1650000000000%Z) None.

Definition datedCall : World * (SDKError + PaginatedResponse EthereumTransaction) :=
  EthereumAdapter.getTransactions datedEnv ProviderFacts.indexer
    "0x742d35Cc6634C0532925a3b844Bc9e7595f0bEb0" since2022 world0.

Definition datedPage : PaginatedResponse EthereumTransaction :=
  match snd datedCall with
  | inr r => r
  | inl _ => mkResponse [] (mkMetadata None None None None false)
  end.

(** The same for the JSON-RPC backend: two signatures, one before and one
    after the lower bound, each with its details. *)
Definition datedSignatures : list SolanaSignatureInfo :=
  [mkSignatureInfo "sigA" 42 false None (Some 1700000000%Z);
   mkSignatureInfo "sigB" 41 false None (Some 1600000000%Z)].

Definition datedNode : Env :=
  mkEnv readSeconds (fun _ _ => None) twoRecords
        (ProviderFacts.answering
           (mkRpcResponse (Some (Some datedSignatures)) None))
        (ProviderFacts.answering
           (mkRpcResponse (Some (Some ProviderFacts.fullDetails)) None))
        (ret tt) (ret tt) noOpLogger.

Definition solanaUpstream
  : World * (SDKError + PaginatedResponse SolanaTransaction) :=
  SolanaProvider.getTransactions datedNode ProviderFacts.node
                                 ProviderFacts.someKey since2022 world0.

Definition solanaDatedCall
  : World * (SDKError + PaginatedResponse SolanaTransaction) :=
  SolanaAdapter.getTransactions datedNode ProviderFacts.node
                                ProviderFacts.someKey since2022 world0.

Lemma adapter_filters_by_time_and_keeps_pagination_witness :
  (List.length (data datedPage) = 1%nat
   /\ hasMore (pagination datedPage) = true
   /\ Forall (fun tx => respectsBounds since2022 (eth_timestamp tx))
             (data datedPage))
  /\ (exists page,
        solanaDatedCall = (fst solanaUpstream, inr page)
        /\ List.length (data (ProviderFacts.pageOf solanaUpstream)) = 2%nat
        /\ map sol_signature (data page) = ["sigA"]
        /\ pagination page = pagination (ProviderFacts.pageOf solanaUpstream)
        /\ hasMore (pagination page) = true
        /\ nextCursor (pagination page) = Some "sigB"
        /\ Forall (fun tx => respectsBounds since2022 (sol_timestamp tx))
                  (data page)).
Proof.
  destruct (adapter_filters_by_time_and_keeps_pagination datedEnv)
    as (Hethereum & _).
  destruct (adapter_filters_by_time_and_keeps_pagination datedNode)
    as (_ & Hsolana & _ & Hresolves).
  split.
  - assert (Hcall : datedCall = (fst datedCall, inr datedPage))
      by (vm_compute; reflexivity).
    destruct (Hethereum ProviderFacts.indexer
                        "0x742d35Cc6634C0532925a3b844Bc9e7595f0bEb0"
                        since2022 world0 (fst datedCall) datedPage Hcall)
      as (upstream & _ & _ & _ & Hall).
    split; [vm_compute; reflexivity|].
    split; [vm_compute; reflexivity|exact Hall].
  - assert (Hup : solanaUpstream
                  = (fst solanaUpstream,
                     inr (ProviderFacts.pageOf solanaUpstream)))
      by (vm_compute; reflexivity).
    pose proof (Hresolves ProviderFacts.node ProviderFacts.someKey since2022
                          world0 (fst solanaUpstream)
                          (ProviderFacts.pageOf solanaUpstream)
                          eq_refl Hup) as Hcall.
    destruct (Hsolana ProviderFacts.node ProviderFacts.someKey since2022
                      world0 _ _ Hcall)
      as (upstream & _ & _ & _ & Hall).
    eexists. split; [exact Hcall|]. cbn [data pagination] in *.
    split; [vm_compute; reflexivity|].
    split; [vm_compute; reflexivity|].
    split; [reflexivity|].
    split; [vm_compute; reflexivity|].
    split; [vm_compute; reflexivity|exact Hall].
Defined.

End AdapterFacts.

(* ------------------------------------------------------------------ *)
(** ** Query cache *)

Module CacheFacts.
Import JsString Types Validation.
Local Open Scope string_scope.

Section Entries.
Context {T : Type}.
Implicit Types (m : @MemoryCache.Entries T) (e : MemoryCache.MemoryCacheEntry T).

Lemma mapGet_mapSet key e m :
  MemoryCache.mapGet key (MemoryCache.mapSet key e m) = Some e.
Proof.
  induction m as [|[k e0] m IH]; cbn.
  - rewrite String.eqb_refl. reflexivity.
  - destruct (String.eqb k key) eqn:E; cbn; rewrite E; [reflexivity|exact IH].
Qed.

(** Filtering on the entries keeps a binding that passes the test. *)
Lemma mapGet_filter (p : MemoryCache.MemoryCacheEntry T -> bool) key e m :
  MemoryCache.mapGet key m = Some e -> p e = true ->
  MemoryCache.mapGet key (filter (fun ke => p (snd ke)) m) = Some e.
Proof.
  induction m as [|[k e0] m IH]; cbn; [discriminate|].
  destruct (String.eqb k key) eqn:E.
  - intros H Hp. injection H as ->. rewrite Hp. cbn. rewrite E. reflexivity.
  - intros H Hp. destruct (p e0); cbn; [rewrite E|]; apply IH; assumption.
Qed.

(** A value stored is read back under the same key until it expires. *)
Lemma get_after_set (c c1 : MemoryCache.t T) now now' key (v : T) ttl :
  MemoryCache.set now key v ttl c = (c1, inr tt) ->
  MemoryCache.enabled c = true ->
  (now' <= now + orNumber ttl (MemoryCache.defaultTtl c))%Z ->
  snd (MemoryCache.get now' key c1) = Some v.
Proof.
  unfold MemoryCache.set. intros Hset Hen Hfresh. rewrite Hen in Hset.
  cbn [negb] in Hset.
  destruct (MemoryCache.evictOldest (MemoryCache.evictExpired now c))
    as [c2 [e|[]]] eqn:Hev; [discriminate|].
  injection Hset as <-.
  assert (Hc2 : MemoryCache.defaultTtl c2 = MemoryCache.defaultTtl c
                /\ MemoryCache.enabled c2 = true).
  { unfold MemoryCache.evictOldest in Hev.
    destruct (MemoryCache.maxSize (MemoryCache.evictExpired now c)).
    - match type of Hev with
      | (if ?b then _ else _) = _ => destruct b
      end.
      + injection Hev as <-. split; [reflexivity|exact Hen].
      + match type of Hev with
        | (if ?b then _ else _) = _ => destruct b
        end; [discriminate|].
        injection Hev as <-. split; [reflexivity|exact Hen].
    - injection Hev as <-. split; [reflexivity|exact Hen]. }
  destruct Hc2 as [Httl Hen2].
  unfold MemoryCache.get. cbn [MemoryCache.withCache MemoryCache.enabled].
  rewrite Hen2. cbn [negb].
  set (entry := MemoryCache.mkEntry v
                  (now + orNumber ttl (MemoryCache.defaultTtl c2)) now).
  assert (Hlive : negb (MemoryCache.expiresAt entry <? now')%Z = true).
  { cbn. rewrite Httl. apply negb_true_iff, Z.ltb_ge. exact Hfresh. }
  unfold MemoryCache.evictExpired.
  cbn [MemoryCache.withCache MemoryCache.cache].
  rewrite (mapGet_filter
             (fun e => negb (MemoryCache.expiresAt e <? now')%Z)
             key entry _ (mapGet_mapSet key entry _) Hlive).
  unfold MemoryCache.isExpired.
  apply negb_true_iff in Hlive. rewrite Hlive. reflexivity.
Qed.

End Entries.

Lemma generateKey_folds_case network a1 a2 options :
  toLowerCase a1 = toLowerCase a2 ->
  TransactionCache.generateKey network a1 options
  = TransactionCache.generateKey network a2 options.
Proof.
  intros H. unfold TransactionCache.generateKey. rewrite H. reflexivity.
Qed.

(** C10.  For two distinct valid base58 public keys that differ only in
    letter case: normalisation leaves each as it is (so they stay distinct),
    yet [generateKey] gives both the same cache key for the same network and
    options, and a response stored for the one is what a lookup for the
    other returns for as long as the entry has not expired. *)
Theorem keys_differing_in_case_share_cache_entry
        (k1 k2 network : string) (options : option PaginationOptions)
        (response : PaginatedResponse Transaction)
        (store store1 : TransactionCache.Store) (now now' : Z)
        (ttl : option Z) :
  isValidSolanaPublicKey k1 = true ->
  isValidSolanaPublicKey k2 = true ->
  k1 <> k2 ->
  toLowerCase k1 = toLowerCase k2 ->
  MemoryCache.enabled store = true ->
  TransactionCache.set now network k1 response options ttl store
  = (store1, inr tt) ->
  (now' <= now + orNumber ttl (MemoryCache.defaultTtl store))%Z ->
  normalizeSolanaPublicKey k1 = inr k1
  /\ normalizeSolanaPublicKey k2 = inr k2
  /\ TransactionCache.generateKey network k1 options
     = TransactionCache.generateKey network k2 options
  /\ snd (TransactionCache.get now' network k2 options store1)
     = Some response.
Proof.
  intros Hv1 Hv2 Hne Hcase Hen Hset Hfresh.
  unfold normalizeSolanaPublicKey. rewrite Hv1, Hv2. cbn [negb].
  repeat split.
  - apply generateKey_folds_case, Hcase.
  - unfold TransactionCache.get, TransactionCache.set in *.
    rewrite <- (generateKey_folds_case network k1 k2 options Hcase).
    exact (get_after_set store store1 now now' _ response ttl
                         Hset Hen Hfresh).
Qed.

Definition upperKey : string :=
  "9WzDXwBbmkg8ZTbNMqUxvQRAyrZzDsGYdLVL9zYtAWWM".

Definition lowerKey : string :=
  "9wzDXwBbmkg8ZTbNMqUxvQRAyrZzDsGYdLVL9zYtAWWM".

Definition somePage : PaginatedResponse Transaction :=
  mkResponse [] (mkMetadata None None None (Some "cursor") true).

Definition freshStore : TransactionCache.Store :=
  TransactionCache.constructor (MemoryCache.mkCacheConfig None None None).

Lemma keys_differing_in_case_share_cache_entry_witness :
  upperKey <> lowerKey
  /\ snd (TransactionCache.get
            1000 "solana-mainnet" lowerKey None
            (fst (TransactionCache.set 0 "solana-mainnet" upperKey somePage
                                       None None freshStore)))
     = Some somePage.
Proof.
  assert (Hne : upperKey <> lowerKey) by discriminate.
  split; [exact Hne|].
  refine (proj2 (proj2 (proj2
    (keys_differing_in_case_share_cache_entry
       upperKey lowerKey "solana-mainnet" None somePage freshStore _ 0 1000
       None eq_refl eq_refl Hne eq_refl eq_refl eq_refl _)))).
  vm_compute. discriminate.
Defined.

(** *** Through the facade *)

Lemma base58_key_is_no_hex_address key :
  isValidSolanaPublicKey key = true -> isValidEthereumAddress key = false.
Proof.
  unfold isValidSolanaPublicKey, isValidEthereumAddress.
  destruct key as [|c key]; [reflexivity|]. cbn [nonEmpty negb].
  intros H. apply andb_true_iff in H as [_ H]. cbn [allChars] in H.
  apply andb_true_iff in H as [Hc _].
  destruct key as [|c' key]; [destruct c as [[] [] [] [] [] [] [] []]; reflexivity|].
  destruct (Ascii.eqb c "0") eqn:E.
  - apply Ascii.eqb_eq in E. subst c. discriminate Hc.
  - destruct c as [[] [] [] [] [] [] [] []]; try reflexivity.
    discriminate E.
Qed.

(** A lookup that hits is answered from the cache: the facade resolves with
    the cached response and adds no call of [fetch]. *)
Lemma facade_answers_from_cache
      (env : Environment.Env) (sdk : BlockchainSDK.t) (key : string)
      (options : option PaginationOptions)
      (response : PaginatedResponse Transaction) (w : Effects.World) :
  BlockchainSDK.hasCache sdk = true ->
  isValidSolanaPublicKey key = true ->
  snd (TransactionCache.get (Effects.now w) (networkName SOLANA_MAINNET) key
                            options (Effects.queryCache w))
  = Some response ->
  exists w',
    BlockchainSDK.getTransactions env sdk key options w = (w', inr response)
    /\ Effects.fetched w' = Effects.fetched w.
Proof.
  intros Hcache Hvalid Hhit.
  unfold BlockchainSDK.getTransactions.
  rewrite (EffectFacts.bind_resolved _ _ _ _ _ (EffectFacts.log_eq _ _ _ _)).
  unfold getNetworkFromAddress, detectNetwork.
  rewrite (base58_key_is_no_hex_address key Hvalid), Hvalid, Hcache.
  set (w1 := EffectFacts.afterLog (BlockchainSDK.logger sdk) Effects.Debug
                                  "Fetching transactions" w).
  assert (Hw1 : Effects.now w1 = Effects.now w
                /\ Effects.queryCache w1 = Effects.queryCache w
                /\ Effects.fetched w1 = Effects.fetched w).
  { subst w1. unfold EffectFacts.afterLog, Effects.log.
    destruct (Effects.shouldLog _ _); repeat split. }
  destruct Hw1 as (Hnow & Hqc & Hf).
  unfold Effects.bind at 1. unfold BlockchainSDK.cacheGet.
  rewrite Hnow, Hqc.
  destruct (TransactionCache.get (Effects.now w)
              (networkName SOLANA_MAINNET) key options (Effects.queryCache w))
    as [c r] eqn:Hget.
  cbn [snd] in Hhit. subst r.
  rewrite (EffectFacts.bind_resolved _ _ _ _ _ (EffectFacts.log_eq _ _ _ _)).
  unfold Effects.ret. eexists. split; [reflexivity|].
  rewrite EffectFacts.afterLog_fetched. cbn. exact Hf.
Qed.

End CacheFacts.

(* ================================================================== *)
(** * Further properties of the code *)

(* ------------------------------------------------------------------ *)
(** ** Retry policy: accounting *)

Module RetryAccounting.
Import Retry.

Section Loop.
Context {W T : Type}.
Variable fn : W -> W * (SDKError + T).
Variable sleep : Z -> W -> W.

(** With enough fuel and the guard satisfied, the loop invokes at least
    once, at most once per attempt left, and sleeps once less than it
    invokes. *)
Lemma loop_accounting (cfg : RequiredRetryConfig) :
  forall fuel attempt lastError w n es ds,
    attempt <= r_maxRetries cfg ->
    (Z.to_nat (r_maxRetries cfg - attempt + 1) <= fuel)%nat ->
    let r := loop fn sleep fuel cfg attempt lastError w n es ds in
    (n < invocations r)%nat
    /\ (invocations r <= n + Z.to_nat (r_maxRetries cfg - attempt + 1))%nat
    /\ (invocations r + List.length ds = S n + List.length (waits r))%nat.
Proof.
  induction fuel as [|fuel IH]; intros attempt lastError w n es ds Hle Hfuel;
    [lia|].
  cbn zeta. cbn [loop].
  destruct (Z.leb_spec attempt (r_maxRetries cfg)); [|lia].
  destruct (fn w) as [w1 [e|v]]; [|cbn; lia].
  destruct (isRetryableError e cfg); cbn [negb]; [|cbn; lia].
  destruct (Z.geb_spec attempt (r_maxRetries cfg)); [cbn; lia|].
  specialize (IH (attempt + 1) (Some e)
                 (sleep (delayBeforeRetry attempt e cfg) w1) (S n)
                 (es ++ [e]) (ds ++ [delayBeforeRetry attempt e cfg])
                 ltac:(lia) ltac:(lia)).
  cbn zeta in IH. rewrite length_app in IH. cbn [List.length] in IH. lia.
Qed.

Lemma loop_S (cfg : RequiredRetryConfig) fuel attempt lastError w n es ds :
  loop fn sleep (S fuel) cfg attempt lastError w n es ds
  = if attempt <=? r_maxRetries cfg then
      match fn w with
      | (w1, inr v) => mkRun w1 (Resolved v) (S n) es ds
      | (w1, inl error) =>
          if negb (isRetryableError error cfg) then
            mkRun w1 (Rejected error) (S n) (es ++ [error]) ds
          else if attempt >=? r_maxRetries cfg then
            mkRun w1 (Rejected error) (S n) (es ++ [error]) ds
          else
            loop fn sleep fuel cfg (attempt + 1) (Some error)
                 (sleep (delayBeforeRetry attempt error cfg) w1) (S n)
                 (es ++ [error])
                 (ds ++ [delayBeforeRetry attempt error cfg])
      end
    else
      match lastError with
      | Some e => mkRun w (Rejected e) n es ds
      | None => mkRun w (Rejected ThrownUndefined) n es ds
      end.
Proof. reflexivity. Qed.

(** When every invocation appends [x] to a trace kept by the world and no
    sleep touches the trace, the run appends one [x] per invocation. *)
Lemma loop_trace {X} (tr : W -> list X) (x : X) (cfg : RequiredRetryConfig) :
  (forall w, tr (fst (fn w)) = tr w ++ [x]) ->
  (forall d w, tr (sleep d w) = tr w) ->
  forall fuel attempt lastError w n es ds,
    let r := loop fn sleep fuel cfg attempt lastError w n es ds in
    exists m, invocations r = (n + m)%nat
              /\ tr (final r) = tr w ++ repeat x m.
Proof.
  intros Hfn Hsleep.
  assert (Hnone : forall w n, exists m,
             n = (n + m)%nat /\ tr w = tr w ++ repeat x m).
  { intros w n. exists 0%nat. split; [lia|]. cbn. rewrite app_nil_r.
    reflexivity. }
  assert (Hone : forall w w1 n, tr w1 = tr w ++ [x] -> exists m,
             S n = (n + m)%nat /\ tr w1 = tr w ++ repeat x m).
  { intros w w1 n H. exists 1%nat. split; [lia|exact H]. }
  induction fuel as [|fuel IH]; intros attempt lastError w n es ds;
    cbn zeta; cbn [loop].
  - destruct (attempt <=? r_maxRetries cfg); [apply Hnone|].
    destruct lastError; apply Hnone.
  - destruct (attempt <=? r_maxRetries cfg);
      [|destruct lastError; apply Hnone].
    pose proof (Hfn w) as Hw. destruct (fn w) as [w1 [e|v]]; cbn [fst] in Hw;
      [|apply Hone, Hw].
    destruct (isRetryableError e cfg); cbn [negb]; [|apply Hone, Hw].
    destruct (attempt >=? r_maxRetries cfg); [apply Hone, Hw|].
    specialize (IH (attempt + 1) (Some e)
                   (sleep (delayBeforeRetry attempt e cfg) w1) (S n)
                   (es ++ [e]) (ds ++ [delayBeforeRetry attempt e cfg])).
    cbn zeta in IH. destruct IH as (m & Hm & Htr).
    exists (S m). split; [lia|].
    rewrite Htr, Hsleep, Hw, <- app_assoc. reflexivity.
Qed.

End Loop.

(** X1.  Whatever the operation and the configuration, [retryWithBackoff]
    invokes the operation at most [maxRetries + 1] times (never when that is
    not positive), and it sleeps exactly once between two consecutive
    invocations: the number of waits is the number of invocations less
    one. *)
Theorem retry_budget_is_never_exceeded
        {W T : Type} (fn : W -> W * (SDKError + T)) (sleep : Z -> W -> W)
        (config : RetryConfig) (w : W) :
  let r := retryWithBackoff fn sleep config w in
  (invocations r <= Z.to_nat (r_maxRetries (spread config) + 1))%nat
  /\ List.length (waits r) = Nat.pred (invocations r)
  /\ (0 <= r_maxRetries (spread config) -> (1 <= invocations r)%nat).
Proof.
  unfold retryWithBackoff. cbn zeta.
  destruct (Z.le_gt_cases 0 (r_maxRetries (spread config))) as [Hpos|Hneg].
  - pose proof (loop_accounting fn sleep (spread config)
                  (Z.to_nat (r_maxRetries (spread config) + 1)) 0 None w
                  0%nat [] [] Hpos ltac:(lia)) as H.
    cbn zeta in H. cbn [List.length] in H.
    replace (r_maxRetries (spread config) - 0 + 1)
      with (r_maxRetries (spread config) + 1) in H by lia.
    set (r := loop fn sleep _ _ _ _ _ _ _ _) in *.
    destruct H as (H1 & H2 & H3). repeat split; lia.
  - replace (Z.to_nat (r_maxRetries (spread config) + 1)) with 0%nat by lia.
    cbn [loop]. destruct (Z.leb_spec 0 (r_maxRetries (spread config))); [lia|].
    cbn [invocations waits List.length Nat.pred]. repeat split; lia.
Qed.

(** An operation that answers its [i]-th invocation with [script i]; the
    world counts the invocations. *)
Definition scripted {T} (script : nat -> SDKError + T) (w : nat)
  : nat * (SDKError + T) :=
  (S w, script w).

Definition still (ms : Z) (w : nat) : nat := w.

Lemma loop_recovers {T} (script : nat -> SDKError + T)
      (cfg : RequiredRetryConfig) (k : nat) (v : T) :
  Z.of_nat k <= r_maxRetries cfg ->
  (forall i, (i < k)%nat ->
             exists e, script i = inl e /\ isRetryableError e cfg = true) ->
  script k = inr v ->
  forall d a fuel lastError es ds,
    (a + d = k)%nat ->
    (d < fuel)%nat ->
    let r := loop (scripted script) still fuel cfg (Z.of_nat a) lastError a a
                  es ds in
    outcome r = Resolved v /\ invocations r = S k /\ final r = S k
    /\ List.length (waits r) = (List.length ds + d)%nat.
Proof.
  intros Hk Hfail Hok.
  induction d as [|d IH]; intros a fuel lastError es ds Had Hfuel;
    (destruct fuel as [|fuel]; [lia|]); cbn zeta; rewrite loop_S;
    (destruct (Z.leb_spec (Z.of_nat a) (r_maxRetries cfg)); [|lia]);
    change (scripted script a) with (S a, script a); cbv beta iota.
  - replace a with k by lia. rewrite Hok. cbn. repeat split; lia.
  - destruct (Hfail a ltac:(lia)) as (e & -> & ->). cbn [negb].
    destruct (Z.geb_spec (Z.of_nat a) (r_maxRetries cfg)); [lia|].
    change (still (delayBeforeRetry (Z.of_nat a) e cfg) (S a)) with (S a).
    specialize (IH (S a) fuel (Some e) (es ++ [e])
                   (ds ++ [delayBeforeRetry (Z.of_nat a) e cfg])
                   ltac:(lia) ltac:(lia)).
    cbn zeta in IH. rewrite Nat2Z.inj_succ in IH. unfold Z.succ in IH.
    rewrite length_app in IH. cbn [List.length] in IH.
    destruct IH as (Ho & Hi & Hf & Hw). repeat split; try assumption. lia.
Qed.

(** X2.  When the first [k] invocations fail with retryable errors
    (network or rate-limit errors), the next one resolves with [v] and [k]
    does not exceed [maxRetries], [retryWithBackoff] resolves with [v] after
    exactly [k + 1] invocations and [k] waits. *)
Theorem retry_recovers_from_transient_failures
        {T : Type} (script : nat -> SDKError + T) (config : RetryConfig)
        (k : nat) (v : T) :
  Z.of_nat k <= r_maxRetries (spread config) ->
  (forall i, (i < k)%nat ->
             exists e, script i = inl e
                       /\ (exists m, e = NetworkError m
                           \/ exists r, e = RateLimitError m r)) ->
  script k = inr v ->
  let r := retryWithBackoff (scripted script) still config 0%nat in
  outcome r = Resolved v
  /\ invocations r = S k
  /\ List.length (waits r) = k.
Proof.
  intros Hk Hfail Hok r.
  assert (Hfail' : forall i, (i < k)%nat ->
            exists e, script i = inl e
                      /\ isRetryableError e (spread config) = true).
  { intros i Hi. destruct (Hfail i Hi) as (e & He & m & [E|[r0 E]]);
      subst e; eexists; (split; [exact He|reflexivity]). }
  destruct (loop_recovers script (spread config) k v Hk Hfail' Hok
              k 0%nat (Z.to_nat (r_maxRetries (spread config) + 1)) None
              [] [] ltac:(lia) ltac:(lia)) as (Ho & Hi & _ & Hw).
  repeat split; assumption.
Qed.

Definition twiceDown (i : nat) : SDKError + string :=
  match i with
  | 0%nat => inl (NetworkError "Request timeout after 30000ms")
  | 1%nat => inl (RateLimitError "Rate limit exceeded." (Some 2))
  | _ => inr "page"%string
  end.

Lemma retry_recovers_from_transient_failures_witness :
  let r := retryWithBackoff (scripted twiceDown) still emptyConfig 0%nat in
  outcome r = Resolved "page"%string
  /\ invocations r = 3%nat
  /\ List.length (waits r) = 2%nat.
Proof.
  apply (retry_recovers_from_transient_failures twiceDown emptyConfig 2).
  - cbn. lia.
  - intros i Hi. destruct i as [|[|i]]; [| |lia].
    + eexists. split; [reflexivity|]. eexists. left. reflexivity.
    + eexists. split; [reflexivity|]. eexists. right. eexists. reflexivity.
  - reflexivity.
Defined.

(** X3.  With a positive initial delay and a multiplier of at least 1 the
    computed backoff never decreases from one attempt to the next, never
    exceeds [maxDelay], and is at least the initial delay when that does not
    exceed [maxDelay].  (An initial delay of 0 is left out: once [Math.pow]
    overflows, the product [0 * Infinity] is [NaN].  With a positive
    initial delay an overflow gives [Infinity], of which [Math.min] makes
    [maxDelay], as here.) *)
Theorem backoff_grows_up_to_the_cap (cfg : RequiredRetryConfig)
        (attempt : Z) :
  0 < r_initialDelay cfg ->
  1 <= r_backoffMultiplier cfg ->
  0 <= attempt ->
  calculateDelay attempt cfg <= calculateDelay (attempt + 1) cfg
  /\ calculateDelay attempt cfg <= r_maxDelay cfg
  /\ (r_initialDelay cfg <= r_maxDelay cfg ->
      r_initialDelay cfg <= calculateDelay attempt cfg).
Proof.
  intros Hi Hm Ha. unfold calculateDelay.
  assert (Hpow : 1 <= r_backoffMultiplier cfg ^ attempt).
  { change 1 with (Z.succ 0). apply Zlt_le_succ, Z.pow_pos_nonneg; lia. }
  assert (Hstep : r_backoffMultiplier cfg ^ (attempt + 1)
                  = r_backoffMultiplier cfg ^ attempt
                    * r_backoffMultiplier cfg)
    by (rewrite Z.pow_add_r by lia; rewrite Z.pow_1_r; reflexivity).
  rewrite Hstep. repeat split; nia.
Qed.

Lemma backoff_grows_up_to_the_cap_witness :
  calculateDelay 2 DEFAULT_RETRY_CONFIG
  <= calculateDelay (2 + 1) DEFAULT_RETRY_CONFIG
  /\ calculateDelay 2 DEFAULT_RETRY_CONFIG <= 10000.
Proof.
  pose proof (backoff_grows_up_to_the_cap DEFAULT_RETRY_CONFIG 2
                ltac:(cbn; lia) ltac:(cbn; lia) ltac:(lia)) as (H1 & H2 & _).
  split; [exact H1|exact H2].
Defined.

End RetryAccounting.

(* ------------------------------------------------------------------ *)
(** ** HTTP requests *)

Module HttpFacts.
Import JsString Types Effects Http Environment.

(** X4.  One call of [httpRequest] makes exactly one call of [fetch], with
    the given URL, method and body.  An answer with status 429 is a
    rate-limit error whatever else it holds; the call resolves only for an
    answer that is ok, is not a 429 and whose body could be read, and then
    carries that status and body; every rejection is a network, rate-limit
    or provider error, and a provider error means a response that was not
    ok, carries its status as status code and names no provider. *)
Theorem httpRequest_fetches_once_and_classifies
        {D : Type} (parseInt : string -> option Z) (remote : Remote D)
        (url method : string) (body : option string) (timeout : Z)
        (w : World) :
  let request := mkRequest url method body in
  let out := httpRequest parseInt remote url method body timeout w in
  fetched (fst out) = fetched w ++ [request]
  /\ (forall fr, fst (remote (fetched w) request) = Responded fr ->
                 rsp_status fr = 429%Z ->
                 exists m after, snd out = inl (RateLimitError m after))
  /\ (forall resp, snd out = inr resp ->
        exists fr, fst (remote (fetched w) request) = Responded fr
                   /\ rsp_ok fr = true /\ rsp_status fr <> 429%Z
                   /\ rsp_data fr = Some (responseData resp)
                   /\ status resp = rsp_status fr)
  /\ (forall e, snd out = inl e ->
        match e with
        | NetworkError _ | RateLimitError _ _ => True
        | ProviderError _ p c =>
            p = None
            /\ exists fr, fst (remote (fetched w) request) = Responded fr
                          /\ rsp_ok fr = false /\ c = Some (rsp_status fr)
        | _ => False
        end).
Proof.
  cbn zeta. unfold httpRequest.
  destruct (remote (fetched w) (mkRequest url method body)) as [answer took].
  cbn [fst]. destruct answer as [fr| |m|m].
  - destruct (Z.eqb_spec (rsp_status fr) 429) as [E|E].
    + cbn [fst snd fetched]. repeat split.
      * intros fr' H _. injection H as <-. eauto.
      * discriminate.
      * intros e H. injection H as <-. exact I.
    + destruct (rsp_data fr) as [d|] eqn:Hd;
        [destruct (rsp_ok fr) eqn:Hok|]; cbn [negb fst snd fetched];
        repeat split.
      * intros fr' H E'. injection H as <-. contradiction.
      * intros resp H. injection H as <-. exists fr. cbn. repeat split;
          assumption.
      * discriminate.
      * intros fr' H E'. injection H as <-. contradiction.
      * discriminate.
      * intros e H. injection H as <-. split; [reflexivity|].
        exists fr. repeat split. exact Hok.
      * intros fr' H E'. injection H as <-. contradiction.
      * discriminate.
      * intros e H. injection H as <-. exact I.
  - cbn [fst snd fetched]. repeat split; try discriminate.
    intros e H. injection H as <-. exact I.
  - cbn [fst snd fetched]. repeat split; try discriminate.
    intros e H. injection H as <-. exact I.
  - cbn [fst snd fetched]. repeat split; try discriminate.
    intros e H. injection H as <-. exact I.
Qed.

Lemma httpRequest_appends {D} parseInt (remote : Remote D) url method body
      timeout w :
  fetched (fst (httpRequest parseInt remote url method body timeout w))
  = fetched w ++ [mkRequest url method body].
Proof.
  unfold httpRequest.
  destruct (remote (fetched w) (mkRequest url method body)) as [answer took].
  destruct answer as [fr| | |]; try reflexivity.
  destruct (rsp_status fr =? 429)%Z; [reflexivity|].
  destruct (rsp_data fr); [destruct (rsp_ok fr)|]; reflexivity.
Qed.

(** X5.  One page request of the REST-indexer provider (the retried
    [httpRequest]) calls [fetch] at least once and at most four times, each
    time with the same GET request, and adds nothing else to the calls
    made. *)
Theorem fetchPage_makes_one_to_four_fetches
        (env : Env) (self : EthereumProvider.t) (url : string) (w : World) :
  exists n,
    (1 <= n <= 4)%nat
    /\ fetched (fst (EthereumProvider.fetchPage env self url w))
       = fetched w ++ repeat (mkRequest url "GET"%string None) n.
Proof.
  unfold EthereumProvider.fetchPage, retried.
  set (fn := httpRequest (parseInt env) (etherscan env) url "GET"%string None
                         (EthereumProvider.requestTimeout self)).
  set (r := Retry.retryWithBackoff fn sleep EthereumProvider.retryPolicy w).
  assert (Hfinal : fst (match Retry.outcome r with
                        | Retry.Resolved v => (Retry.final r, inr v)
                        | Retry.Rejected e => (Retry.final r, inl e)
                        | Retry.OutOfFuel =>
                            (Retry.final r, inl ThrownUndefined)
                        end) = Retry.final r)
    by (destruct (Retry.outcome r); reflexivity).
  rewrite Hfinal.
  destruct (RetryAccounting.loop_trace fn sleep fetched
              (mkRequest url "GET"%string None)
              (Retry.spread EthereumProvider.retryPolicy)
              (fun w0 => httpRequest_appends _ _ _ _ _ _ w0)
              (fun d w0 => eq_refl)
              (Z.to_nat (3 + 1)) 0%Z None w 0%nat [] [])
    as (m & Hm & Htr).
  pose proof (RetryAccounting.loop_accounting fn sleep
                (Retry.spread EthereumProvider.retryPolicy)
                (Z.to_nat (3 + 1)) 0%Z None w 0%nat [] []
                ltac:(cbn; lia) ltac:(cbn; lia)) as (Hlo & Hhi & _).
  cbn zeta in Hm, Htr, Hlo, Hhi.
  exists m. split; [|exact Htr].
  change (Z.to_nat
            (Retry.r_maxRetries (Retry.spread EthereumProvider.retryPolicy)
             - 0 + 1)) with 4%nat in Hhi.
  lia.
Qed.

End HttpFacts.

(* ------------------------------------------------------------------ *)
(** ** Rate limiter: further properties *)

Module RateLimiterMore.
Import JsNum RateLimiter RateLimiterFacts.

Lemma inRange_withinCapacity capacity tokens :
  inRange capacity tokens -> withinCapacity capacity tokens = true.
Proof.
  intros (c & q & -> & -> & H0 & H1). unfold withinCapacity. cbn.
  change (inject_Z 0) with 0%Q.
  apply andb_true_iff. split; apply Qle_bool_iff; assumption.
Qed.

(** X6.  For a limiter built with finite positive capacities, after any
    sequence of [acquire], [tryAcquire], refill and consume steps whose
    clock readings do not precede the limiter's refill stamps, both token
    counts satisfy [0 <= tokens <= capacity] as JavaScript evaluates it. *)
Theorem finite_limiter_keeps_tokens_in_range
        (n m : Q) (on : option bool) (st : State) :
  (0 < n)%Q -> (0 < m)%Q ->
  reachable (mkConfig (Some (Fin n)) (Some (Fin m)) on) st ->
  tokensWithinCapacity st = true.
Proof.
  intros Hn Hm Hreach.
  destruct (finite_limiter_tokens_within_capacity n m on st Hn Hm Hreach)
    as [Hs Hmin].
  unfold tokensWithinCapacity. apply andb_true_iff.
  split; apply inRange_withinCapacity; assumption.
Qed.

Lemma finite_limiter_keeps_tokens_in_range_witness :
  tokensWithinCapacity
    (apply (OpTryAcquire 1250)
           (apply OpConsume (constructor (mkConfig (Some (ofZ 4))
                                                   (Some (ofZ 300)) None)
                                         1000 1000)))
  = true.
Proof.
  apply (finite_limiter_keeps_tokens_in_range 4 300 None).
  - reflexivity.
  - reflexivity.
  - apply reach_step; [apply reach_step; [apply reach_fresh|exact I]|].
    split; cbn; lia.
Defined.

Lemma burst_state t (N M : Z) :
  N <= M ->
  forall k j st,
    0 <= j <= N ->
    atInstant t (inject_Z N) (inject_Z M)
              (inject_Z (N - j)) (inject_Z (M - j)) st ->
    let taken := Z.min (Z.of_nat k) (N - j) in
    atInstant t (inject_Z N) (inject_Z M)
              (inject_Z (N - j - taken)) (inject_Z (M - j - taken))
              (snd (burst k t st)).
Proof.
  intros HNM. induction k as [|k IH]; intros j st Hj Hst; cbn zeta.
  - cbn [burst snd]. replace (Z.min (Z.of_nat 0) (N - j)) with 0 by lia.
    rewrite !Z.sub_0_r. exact Hst.
  - cbn [burst].
    assert (Ha : (inject_Z (N - j) <= inject_Z N)%Q)
      by (rewrite <- Zle_Qle; lia).
    assert (Hb : (inject_Z (M - j) <= inject_Z M)%Q)
      by (rewrite <- Zle_Qle; lia).
    destruct (Z.eq_dec j N) as [->|Hne].
    + destruct (tryAcquire_refuses t _ _ _ _ st Hst Ha Hb)
        as (st' & -> & Hst').
      { rewrite Z.sub_diag. reflexivity. }
      specialize (IH N st' Hj Hst'). cbn zeta in IH.
      destruct (burst k t st') as [bs st2]. cbn [snd] in *.
      replace (Z.min (Z.of_nat (S k)) (N - N)) with 0 by lia.
      replace (Z.min (Z.of_nat k) (N - N)) with 0 in IH by lia.
      exact IH.
    + destruct (tryAcquire_admits t _ _ _ _ st Hst Ha Hb)
        as (st' & -> & Hst').
      { change 1%Q with (inject_Z 1). rewrite <- Zle_Qle. lia. }
      { change 1%Q with (inject_Z 1). rewrite <- Zle_Qle. lia. }
      assert (Hst2 : atInstant t (inject_Z N) (inject_Z M)
                               (inject_Z (N - (j + 1)))
                               (inject_Z (M - (j + 1))) st').
      { destruct Hst' as (He & Hcs & Hcm & Hts & Htm & (x & Hx & Hxa)
                          & (y & Hy & Hyb)).
        repeat split; try assumption.
        - exists x. split; [exact Hx|]. rewrite Hxa.
          replace (N - (j + 1)) with ((N - j) + - (1)) by lia.
          rewrite inject_Z_plus, inject_Z_opp. reflexivity.
        - exists y. split; [exact Hy|]. rewrite Hyb.
          replace (M - (j + 1)) with ((M - j) + - (1)) by lia.
          rewrite inject_Z_plus, inject_Z_opp. reflexivity. }
      specialize (IH (j + 1) st' ltac:(lia) Hst2). cbn zeta in IH.
      destruct (burst k t st') as [bs st2]. cbn [snd] in *.
      replace (N - j - Z.min (Z.of_nat (S k)) (N - j))
        with (N - (j + 1) - Z.min (Z.of_nat k) (N - (j + 1))) by lia.
      replace (M - j - Z.min (Z.of_nat (S k)) (N - j))
        with (M - (j + 1) - Z.min (Z.of_nat k) (N - (j + 1))) by lia.
      exact IH.
Qed.

Lemma atInstant_holds t cs cm a b st :
  atInstant t cs cm a b st ->
  holds (secondTokens st) a = true /\ holds (minuteTokens st) b = true.
Proof.
  intros (_ & _ & _ & _ & _ & (x & -> & Hx) & (y & -> & Hy)).
  split; apply Qeq_bool_iff; assumption.
Qed.

Lemma fresh_atInstant (N M t : Z) :
  1 <= N <= M ->
  atInstant t (inject_Z N) (inject_Z M) (inject_Z (N - 0)) (inject_Z (M - 0))
            (constructor (mkConfig (Some (ofZ N)) (Some (ofZ M)) None) t t).
Proof.
  intros H. unfold constructor, atInstant. cbn.
  assert (EN : Qeq_bool (inject_Z N) 0 = false).
  { destruct (Qeq_bool (inject_Z N) 0) eqn:E; [|reflexivity].
    apply Qeq_bool_iff in E. change 0%Q with (inject_Z 0) in E.
    rewrite inject_Z_injective in E. lia. }
  assert (EM : Qeq_bool (inject_Z M) 0 = false).
  { destruct (Qeq_bool (inject_Z M) 0) eqn:E; [|reflexivity].
    apply Qeq_bool_iff in E. change 0%Q with (inject_Z 0) in E.
    rewrite inject_Z_injective in E. lia. }
  rewrite EN, EM. cbn. rewrite !Z.sub_0_r.
  repeat split; eexists; split; reflexivity.
Qed.

(** X7.  A fresh enabled limiter whose capacities are finite integers
    [1 <= N <= M], asked [k] times by [tryAcquire] in the millisecond of its
    construction, admits the first [N] calls and refuses every later one;
    each admitted call has taken exactly one token from each bucket, a
    refused call none. *)
Theorem finite_limiter_admits_exactly_its_capacity
        (N M t : Z) (k : nat) :
  1 <= N <= M ->
  let fresh := constructor (mkConfig (Some (ofZ N)) (Some (ofZ M)) None) t t in
  let admitted := Z.min (Z.of_nat k) N in
  fst (burst k t fresh)
  = (repeat true (Nat.min k (Z.to_nat N)) ++ repeat false (k - Z.to_nat N))%list
  /\ holds (secondTokens (snd (burst k t fresh))) (inject_Z (N - admitted))
     = true
  /\ holds (minuteTokens (snd (burst k t fresh))) (inject_Z (M - admitted))
     = true.
Proof.
  intros H fresh admitted. split.
  - subst fresh.
    rewrite (burst_from t N M ltac:(lia) k 0 _ ltac:(lia)
                        (fresh_atInstant N M t H)).
    rewrite Z.sub_0_r. reflexivity.
  - pose proof (burst_state t N M ltac:(lia) k 0 fresh ltac:(lia)
                            (fresh_atInstant N M t H)) as Hst.
    cbn zeta in Hst. rewrite !Z.sub_0_r in Hst.
    exact (atInstant_holds _ _ _ _ _ _ Hst).
Qed.

Lemma finite_limiter_admits_exactly_its_capacity_witness :
  fst (burst 6 0 (constructor (mkConfig (Some (ofZ 4)) (Some (ofZ 300)) None)
                              0 0))
  = [true; true; true; true; false; false].
Proof.
  exact (proj1 (finite_limiter_admits_exactly_its_capacity 4 300 0 6
                  ltac:(lia))).
Defined.

(** *** Service order *)

Definition admits (log : list Event) : list Waiter :=
  flat_map (fun e => match e with Admit who => [who] | _ => [] end) log.

Definition faults (log : list Event) : list Waiter :=
  flat_map (fun e => match e with Fault who => [who] | _ => [] end) log.

Lemma admits_app l1 l2 : admits (l1 ++ l2) = (admits l1 ++ admits l2)%list.
Proof. apply flat_map_app. Qed.

Lemma faults_app l1 l2 : faults (l1 ++ l2) = (faults l1 ++ faults l2)%list.
Proof. apply flat_map_app. Qed.

Lemma window_elapsed now last unit :
  0 < unit -> last + unit <= now -> Qle_bool 1 (elapsed now last unit) = true.
Proof.
  intros Hu H. apply Qle_bool_iff. unfold elapsed.
  apply Qle_shift_div_l.
  - change 0%Q with (inject_Z 0). rewrite <- Zlt_Qlt. exact Hu.
  - rewrite Qmult_1_l. rewrite <- Zle_Qle. lia.
Qed.

(** X9.  On an enabled limiter whose capacities are both at least 1
    (finite or not), a [tryAcquire] made a full second after the short
    window's stamp and a full minute after the long window's stamp is always
    admitted, whatever the token counts were before (also [NaN]); both
    buckets are refilled to capacity, stamped with the present time and
    charged one token. *)
Theorem full_window_readmits (now : Z) (st : State) :
  enabled st = true ->
  geb (requestsPerSecond st) (ofZ 1) = true ->
  geb (requestsPerMinute st) (ofZ 1) = true ->
  secondLastRefill st + 1000 <= now ->
  minuteLastRefill st + 60000 <= now ->
  let out := tryAcquire now st in
  fst out = true
  /\ secondTokens (snd out)
     = max (ofZ 0) (sub (requestsPerSecond st) (ofZ 1))
  /\ minuteTokens (snd out)
     = max (ofZ 0) (sub (requestsPerMinute st) (ofZ 1))
  /\ secondLastRefill (snd out) = now
  /\ minuteLastRefill (snd out) = now.
Proof.
  intros Hen Hs Hm Hts Htm. cbn zeta.
  unfold tryAcquire, canMakeRequest. rewrite Hen. cbn [negb].
  unfold refillTokens.
  rewrite (window_elapsed now _ 1000 ltac:(lia) Hts).
  cbn [minuteLastRefill requestsPerMinute requestsPerSecond secondTokens
       minuteTokens enabled queue processing secondLastRefill].
  rewrite (window_elapsed now _ 60000 ltac:(lia) Htm).
  cbn [minuteLastRefill requestsPerMinute requestsPerSecond secondTokens
       minuteTokens enabled queue processing secondLastRefill].
  rewrite Hs, Hm. cbn [andb fst snd]. unfold consumeTokens.
  cbn [enabled]. rewrite Hen. cbn [negb]. repeat split.
Qed.

Lemma full_window_readmits_witness :
  fst (tryAcquire 61000
         (snd (tryAcquire 1000 (constructor RateLimiterFacts.defaultConfig
                                            1000 1000))))
  = true.
Proof.
  exact (proj1 (full_window_readmits 61000
                  (snd (tryAcquire 1000
                          (constructor RateLimiterFacts.defaultConfig
                                       1000 1000)))
                  eq_refl eq_refl eq_refl ltac:(cbn; lia) ltac:(cbn; lia))).
Defined.

End RateLimiterMore.

(* ------------------------------------------------------------------ *)
(** ** The rate limiter's queue under arrivals *)

Module RateLimiterArrivalFacts.
Import JsNum RateLimiter RateLimiterWithArrivals RateLimiterMore.

Definition sleeps (log : list Event) : nat :=
  List.length (filter (fun e => match e with Sleep _ => true | _ => false end)
                      log).

Lemma sleeps_app l1 l2 : sleeps (l1 ++ l2) = (sleeps l1 + sleeps l2)%nat.
Proof. unfold sleeps. rewrite filter_app, length_app. reflexivity. Qed.

Lemma refillTokens_fields now st :
  queue (refillTokens now st) = queue st
  /\ processing (refillTokens now st) = processing st
  /\ enabled (refillTokens now st) = enabled st.
Proof.
  unfold refillTokens.
  destruct (Qle_bool 1 _); cbn [minuteLastRefill];
    destruct (Qle_bool 1 _); repeat split.
Qed.

Lemma canMakeRequest_fields now st :
  queue (snd (canMakeRequest now st)) = queue st
  /\ processing (snd (canMakeRequest now st)) = processing st
  /\ enabled (snd (canMakeRequest now st)) = enabled st.
Proof.
  unfold canMakeRequest. destruct (enabled st) eqn:E; cbn [negb snd];
    [|repeat split; exact E].
  rewrite <- E. apply refillTokens_fields.
Qed.

Lemma calculateDelay_fields now1 now2 st :
  queue (snd (calculateDelay now1 now2 st)) = queue st
  /\ processing (snd (calculateDelay now1 now2 st)) = processing st
  /\ enabled (snd (calculateDelay now1 now2 st)) = enabled st.
Proof.
  unfold calculateDelay. destruct (enabled st) eqn:E; cbn [negb];
    [|repeat split; exact E].
  rewrite <- E.
  match goal with |- context [if ?c then _ else _] => destruct c end;
    cbn [snd]; apply refillTokens_fields.
Qed.

Lemma consumeTokens_fields st :
  queue (consumeTokens st) = queue st
  /\ processing (consumeTokens st) = processing st
  /\ enabled (consumeTokens st) = enabled st.
Proof. unfold consumeTokens. destruct (enabled st) eqn:E; repeat split; exact E. Qed.

(** While the loop runs, an arriving caller is queued behind the others
    and nothing else happens. *)
Lemma arrive_queues whos clock : forall st,
  enabled st = true -> processing st = true ->
  arrive whos clock st = (withQueue (queue st ++ whos) true st, []).
Proof.
  induction whos as [|who rest IH]; intros st Hen Hp; cbn [arrive].
  - rewrite app_nil_r. destruct st; cbn in *. subst. reflexivity.
  - unfold RateLimiter.acquire. rewrite Hen. cbn [negb].
    unfold RateLimiter.processQueue. cbn [withQueue processing]. rewrite Hp.
    cbn [orb]. rewrite IH by (cbn; assumption || reflexivity).
    cbn [withQueue queue app]. rewrite <- app_assoc. reflexivity.
Qed.

(** Without arrivals the loop is the loop of [RateLimiter]. *)
Lemma serviceLoop_without_arrivals clock :
  forall fuel k slept st log,
    serviceLoop (fun _ => []) fuel clock k slept st log
    = RateLimiter.serviceLoop fuel clock k st log.
Proof.
  induction fuel as [|fuel IH]; intros k slept st log;
    cbn [serviceLoop RateLimiter.serviceLoop arrive]; [reflexivity|].
  destruct (queue st); [reflexivity|].
  destruct (canMakeRequest (clock k) st) as [[|] st1]; [apply IH|].
  destruct (calculateDelay _ _ st1) as [d st2]. rewrite IH.
  cbn [app]. reflexivity.
Qed.

Lemma serviceLoop_order arrivals clock :
  forall fuel k slept st log,
    enabled st = true -> processing st = true ->
    let out := serviceLoop arrivals fuel clock k slept st log in
    exists n,
      sleeps (snd out) = (sleeps log + n)%nat
      /\ (admits (snd out) ++ queue (fst out)
          = admits log ++ queue st ++ flat_map arrivals (seq slept n))%list
      /\ faults (snd out) = faults log.
Proof.
  induction fuel as [|fuel IH]; intros k slept st log Hen Hp; cbn zeta;
    cbn [serviceLoop].
  { exists 0%nat. cbn. rewrite Nat.add_0_r, app_nil_r. repeat split. }
  destruct (queue st) as [|item rest] eqn:Hq.
  { exists 0%nat. cbn [fst snd seq flat_map]. rewrite Hq, Nat.add_0_r.
    repeat split. }
  pose proof (canMakeRequest_fields (clock k) st) as (Hq1 & Hp1 & He1).
  destruct (canMakeRequest (clock k) st) as [ok st1]. cbn [snd] in *.
  destruct ok.
  - pose proof (consumeTokens_fields (withQueue rest (processing st1) st1))
      as (Hq2 & Hp2 & He2).
    cbn [withQueue queue processing enabled] in Hq2, Hp2, He2.
    destruct (IH (S k) slept
                 (consumeTokens (withQueue rest (processing st1) st1))
                 (log ++ [Admit item])%list) as (n & Hs & Ha & Hf);
      [congruence|congruence|].
    exists n. rewrite Hs, Ha, Hf, sleeps_app, admits_app, faults_app, Hq2.
    cbn. rewrite app_nil_r, Nat.add_0_r, <- app_assoc.
    repeat split.
  - pose proof (calculateDelay_fields (clock (S k)) (clock (S (S k))) st1)
      as (Hq2 & Hp2 & He2).
    destruct (calculateDelay (clock (S k)) (clock (S (S k))) st1) as [d st2].
    cbn [snd] in *.
    rewrite arrive_queues by congruence.
    destruct (IH (S (S (S k))) (S slept)
                 (withQueue (queue st2 ++ arrivals slept) true st2)
                 (log ++ [Sleep (Z.max d 10)] ++ [])%list)
      as (n & Hs & Ha & Hf); [cbn; congruence|reflexivity|].
    exists (S n). rewrite Hs, Ha, Hf, !sleeps_app, !admits_app, !faults_app.
    cbn [withQueue queue seq flat_map]. rewrite Hq2, Hq1, Hq.
    cbn. rewrite !app_nil_r, <- !app_assoc. cbn [app].
    repeat split. lia.
Qed.

(** X8.  An [acquire] that starts the service loop of an enabled limiter,
    with other callers arriving while the loop sleeps: every request is
    settled exactly once and in the order of arrival.  The requests
    admitted, followed by those rejected when the iteration cap is reached,
    are the requests already queued, the caller, and the callers that
    arrived during the sleeps the loop made, in that order; afterwards the
    queue is empty and the loop is marked idle. *)
Theorem acquire_serves_arrivals_in_order
        (arrivals : Arrivals) (who : Waiter) (clock : nat -> Z) (st : State) :
  enabled st = true ->
  processing st = false ->
  let out := acquire arrivals who clock st in
  (admits (snd out) ++ faults (snd out)
   = queue st ++ who :: flat_map arrivals (seq 0 (sleeps (snd out))))%list
  /\ queue (fst out) = []
  /\ processing (fst out) = false.
Proof.
  intros Hen Hproc. cbn zeta. unfold acquire. rewrite Hen. cbn [negb].
  unfold processQueue. cbn [withQueue processing queue]. rewrite Hproc.
  cbn [orb].
  destruct (List.length (queue st ++ [who]) =? 0)%nat eqn:Hlen.
  { apply Nat.eqb_eq in Hlen. rewrite length_app in Hlen. cbn in Hlen. lia. }
  destruct (serviceLoop_order arrivals clock maxIterations 0%nat 0%nat
              (withQueue (queue (withQueue (queue st ++ [who]) false st))
                         true
                         (withQueue (queue st ++ [who]) false st)) []
              Hen eq_refl) as (n & Hs & Ha & Hf).
  destruct (serviceLoop arrivals maxIterations clock 0%nat 0%nat _ [])
    as [st1 log].
  cbn [fst snd] in *.
  cbn [withQueue queue processing admits faults sleeps flat_map app] in *.
  assert (Hmap : forall l, admits (map Fault l) = []
                           /\ faults (map Fault l) = l
                           /\ sleeps (map Fault l) = 0%nat).
  { induction l as [|x l (IH1 & IH2 & IH3)]; [repeat split|].
    split; [exact IH1|]. split; [|exact IH3].
    change (faults (map Fault (x :: l))) with (x :: faults (map Fault l)).
    rewrite IH2. reflexivity. }
  destruct (Hmap (queue st1)) as (Hm1 & Hm2 & Hm3).
  repeat split.
  rewrite admits_app, faults_app, sleeps_app, Hf, Hm1, Hm2, Hm3, Hs.
  cbn [faults flat_map sleeps filter List.length app Nat.add].
  rewrite app_nil_r, Nat.add_0_r. rewrite Ha, <- app_assoc. reflexivity.
Qed.

(** A limiter of one request per second whose token has just been taken;
    the clock advances by a second at every third reading; two callers
    arrive during the first sleep. *)
Definition drained : State :=
  snd (tryAcquire 0 (constructor (mkConfig (Some (ofZ 1)) (Some (ofZ 60)) None)
                                 0 0)).

Definition everyThird (k : nat) : Z := 1000 * Z.of_nat (k / 3).

Definition duringFirstSleep : Arrivals :=
  fun n => match n with O => [8%nat; 9%nat] | _ => [] end.

Lemma acquire_serves_arrivals_in_order_witness :
  let out := acquire duringFirstSleep 7%nat everyThird drained in
  (admits (snd out) ++ faults (snd out) = [7%nat; 8%nat; 9%nat])%list
  /\ admits (snd out) = [7%nat; 8%nat; 9%nat]
  /\ (1 <= sleeps (snd out))%nat
  /\ queue (fst out) = [].
Proof.
  pose proof (acquire_serves_arrivals_in_order
                duringFirstSleep 7%nat everyThird drained eq_refl eq_refl)
    as (H1 & H2 & _).
  cbn zeta in *. vm_compute in H1.
  split; [exact H1|]. split; [vm_compute; reflexivity|].
  split; [vm_compute; lia|exact H2].
Defined.

End RateLimiterArrivalFacts.

(* ------------------------------------------------------------------ *)
(** ** Address formats: further properties *)

Module ValidationFacts.
Import JsString Types Validation.
Local Open Scope string_scope.

Lemma lowerChar_hex c :
  isHexChar c = true ->
  isHexChar (lowerChar c) = true /\ lowerChar (lowerChar c) = lowerChar c.
Proof.
  destruct c as [[] [] [] [] [] [] [] []]; intros H;
    try discriminate H; split; reflexivity.
Qed.

Lemma toLowerCase_length s :
  String.length (toLowerCase s) = String.length s.
Proof. induction s as [|c s IH]; [reflexivity|]. cbn. rewrite IH. reflexivity. Qed.

Lemma toLowerCase_hex s :
  allChars isHexChar s = true ->
  allChars isHexChar (toLowerCase s) = true
  /\ toLowerCase (toLowerCase s) = toLowerCase s.
Proof.
  induction s as [|c s IH]; [split; reflexivity|]. cbn [allChars toLowerCase].
  intros H. apply andb_true_iff in H as [Hc Hs].
  destruct (lowerChar_hex c Hc) as [Hc1 Hc2]. destruct (IH Hs) as [Hs1 Hs2].
  rewrite Hc1, Hs1, Hc2, Hs2. split; reflexivity.
Qed.

Lemma valid_address_shape address :
  isValidEthereumAddress address = true ->
  exists digits,
    address = String "0" (String "x" digits)
    /\ String.length digits = 40%nat /\ allChars isHexChar digits = true.
Proof.
  unfold isValidEthereumAddress.
  destruct address as [|c0 [|c1 digits]]; cbn [nonEmpty negb];
    try discriminate.
  - destruct c0 as [[] [] [] [] [] [] [] []]; discriminate.
  - destruct (Ascii.eqb c0 "0") eqn:E0; [apply Ascii.eqb_eq in E0; subst c0|].
    + destruct (Ascii.eqb c1 "x") eqn:E1;
        [apply Ascii.eqb_eq in E1; subst c1|].
      * intros H. apply andb_true_iff in H as [Hl Hh].
        exists digits. repeat split; [apply Nat.eqb_eq, Hl|exact Hh].
      * destruct c1 as [[] [] [] [] [] [] [] []]; discriminate.
    + destruct c0 as [[] [] [] [] [] [] [] []]; discriminate.
Qed.

(** X10.  For a valid hex address, [normalizeEthereumAddress] returns the
    address folded to lower case; the result is again a valid address and is
    its own normal form.  For any other string it throws a validation error
    carrying that string. *)
Theorem normalizeEthereumAddress_is_idempotent_folding (address : string) :
  (isValidEthereumAddress address = true ->
   normalizeEthereumAddress address = inr (toLowerCase address)
   /\ isValidEthereumAddress (toLowerCase address) = true
   /\ normalizeEthereumAddress (toLowerCase address)
      = inr (toLowerCase address))
  /\ (isValidEthereumAddress address = false ->
      normalizeEthereumAddress address
      = inl (ValidationError "Invalid Ethereum address"
                             [("address", address)])).
Proof.
  split; intros Hv.
  - assert (Hlow : isValidEthereumAddress (toLowerCase address) = true
                   /\ toLowerCase (toLowerCase address) = toLowerCase address).
    { destruct (valid_address_shape address Hv) as (digits & -> & Hl & Hh).
      destruct (toLowerCase_hex digits Hh) as [Hh1 Hh2].
      cbn [toLowerCase]. change (lowerChar "0") with "0"%char.
      change (lowerChar "x") with "x"%char.
      unfold isValidEthereumAddress. cbn [nonEmpty negb].
      rewrite toLowerCase_length, Hl, Hh1, Hh2. split; reflexivity. }
    destruct Hlow as [Hv' Hidem].
    unfold normalizeEthereumAddress. rewrite Hv, Hv', Hidem. cbn [negb].
    repeat split.
  - unfold normalizeEthereumAddress. rewrite Hv. reflexivity.
Qed.

Lemma normalizeEthereumAddress_is_idempotent_folding_witness :
  normalizeEthereumAddress "0x742d35Cc6634C0532925a3b844Bc9e7595f0bEb0"
  = inr "0x742d35cc6634c0532925a3b844bc9e7595f0beb0".
Proof.
  exact (proj1 (proj1 (normalizeEthereumAddress_is_idempotent_folding
                         "0x742d35Cc6634C0532925a3b844Bc9e7595f0bEb0")
                      eq_refl)).
Defined.

Lemma formats_are_disjoint address :
  isValidEthereumAddress address = true ->
  isValidSolanaPublicKey address = false.
Proof.
  intros H. destruct (valid_address_shape address H) as (digits & -> & _ & _).
  unfold isValidSolanaPublicKey. cbn [nonEmpty negb allChars].
  change (isBase58Char "0") with false. cbn [andb]. apply andb_false_r.
Qed.

(** X11.  No string has both formats, so detection is unambiguous: the
    facade's [getNetworkFromAddress] names a network exactly when that
    network's adapter validates the address, which is exactly when that
    adapter's own [detectNetwork] names it; it returns nothing exactly when
    neither adapter validates. *)
Theorem network_detection_is_unambiguous (address : string) :
  (EthereumAdapter.validateAddress address
   && SolanaAdapter.validateAddress address = false)
  /\ (getNetworkFromAddress address = Some ETHEREUM_MAINNET
      <-> EthereumAdapter.validateAddress address = true)
  /\ (getNetworkFromAddress address = Some SOLANA_MAINNET
      <-> SolanaAdapter.validateAddress address = true)
  /\ (getNetworkFromAddress address = None
      <-> EthereumAdapter.validateAddress address = false
          /\ SolanaAdapter.validateAddress address = false)
  /\ EthereumAdapter.detectNetwork address
     = (if EthereumAdapter.validateAddress address
        then getNetworkFromAddress address else None)
  /\ SolanaAdapter.detectNetwork address
     = (if SolanaAdapter.validateAddress address
        then getNetworkFromAddress address else None).
Proof.
  rewrite AdapterFacts.ethereum_validateAddress,
    AdapterFacts.solana_validateAddress.
  unfold getNetworkFromAddress, detectNetwork, EthereumAdapter.detectNetwork,
    SolanaAdapter.detectNetwork.
  rewrite AdapterFacts.ethereum_validateAddress,
    AdapterFacts.solana_validateAddress.
  destruct (isValidEthereumAddress address) eqn:He.
  - rewrite (formats_are_disjoint address He).
    repeat split; try reflexivity; try discriminate;
      intros []; discriminate.
  - destruct (isValidSolanaPublicKey address);
      repeat split; try reflexivity; try discriminate;
      intros []; discriminate.
Qed.

End ValidationFacts.

(* ------------------------------------------------------------------ *)
(** ** In-memory cache: further properties *)

Module MemoryCacheFacts.
Import MemoryCache.

Section WithValue.
Context {T : Type}.
Implicit Types (m : @Entries T) (e : MemoryCacheEntry T) (c : t T).

Definition keys m : list string := map fst m.

(** The keys of the store are pairwise distinct, as in a [Map]. *)
Definition wellFormed c : Prop := NoDup (keys (cache c)).

Lemma mapGet_In key e m : mapGet key m = Some e -> In (key, e) m.
Proof.
  induction m as [|[k e0] m IH]; cbn; [discriminate|].
  destruct (String.eqb_spec k key) as [->|Hne].
  - intros H. injection H as ->. left. reflexivity.
  - intros H. right. apply IH, H.
Qed.

Lemma mapGet_None key m : mapGet key m = None <-> ~ In key (keys m).
Proof.
  induction m as [|[k e0] m IH]; cbn; [tauto|].
  destruct (String.eqb_spec k key) as [->|Hne].
  - split; [discriminate|]. intros H. exfalso. apply H. left. reflexivity.
  - rewrite IH. split; [intros H [E|E]; [contradiction|exact (H E)]|].
    intros H E. apply H. right. exact E.
Qed.

Lemma In_mapGet key e m :
  NoDup (keys m) -> In (key, e) m -> mapGet key m = Some e.
Proof.
  induction m as [|[k e0] m IH]; cbn; [contradiction|].
  intros Hnd Hin. inversion Hnd as [|? ? Hk Hnd']; subst.
  destruct (String.eqb_spec k key) as [->|Hne].
  - destruct Hin as [E|Hin]; [injection E as ->; reflexivity|].
    exfalso. apply Hk. apply (in_map fst) in Hin. exact Hin.
  - destruct Hin as [E|Hin]; [injection E as -> _; contradiction|].
    apply IH; assumption.
Qed.

Lemma keys_filter_In (p : string * MemoryCacheEntry T -> bool) k m :
  In k (keys (filter p m)) -> In k (keys m).
Proof.
  unfold keys. rewrite !in_map_iff. intros ([k' e] & E & Hin).
  apply filter_In in Hin as [Hin _]. exists (k', e). split; assumption.
Qed.

Lemma NoDup_keys_filter (p : string * MemoryCacheEntry T -> bool) m :
  NoDup (keys m) -> NoDup (keys (filter p m)).
Proof.
  induction m as [|[k e] m IH]; cbn; [intros; constructor|].
  intros Hnd. inversion Hnd as [|? ? Hk Hnd']; subst.
  destruct (p (k, e)); [|apply IH, Hnd'].
  cbn. constructor; [|apply IH, Hnd'].
  intros Hin. apply Hk. apply (keys_filter_In p), Hin.
Qed.

Lemma keys_mapSet key e m k :
  In k (keys (mapSet key e m)) <-> k = key \/ In k (keys m).
Proof.
  induction m as [|[k0 e0] m IH]; cbn.
  - split; [intros [E|[]]; left; congruence|intros [E|[]]; left; congruence].
  - destruct (String.eqb_spec k0 key) as [->|Hne]; cbn.
    + intuition congruence.
    + rewrite IH. intuition congruence.
Qed.

Lemma NoDup_keys_mapSet key e m :
  NoDup (keys m) -> NoDup (keys (mapSet key e m)).
Proof.
  induction m as [|[k0 e0] m IH]; cbn.
  - intros _. constructor; [intros []|constructor].
  - intros Hnd. inversion Hnd as [|? ? Hk Hnd']; subst.
    destruct (String.eqb_spec k0 key) as [->|Hne]; cbn.
    + constructor; assumption.
    + constructor; [|apply IH, Hnd'].
      intros Hin. apply keys_mapSet in Hin as [E|Hin];
        [congruence|contradiction].
Qed.

Lemma length_mapSet key e m :
  (List.length (mapSet key e m) <= S (List.length m))%nat.
Proof.
  induction m as [|[k0 e0] m IH]; cbn; [lia|].
  destruct (String.eqb k0 key); cbn; lia.
Qed.

Lemma In_mapSet_other key e m k e' :
  k <> key -> In (k, e') (mapSet key e m) -> In (k, e') m.
Proof.
  intros Hne. induction m as [|[k0 e0] m IH]; cbn.
  - intros [E|[]]. injection E as E _. congruence.
  - destruct (String.eqb_spec k0 key) as [->|Hne0]; cbn.
    + intros [E|Hin]; [injection E as E _; congruence|right; exact Hin].
    + intros [E|Hin]; [left; exact E|right; apply IH, Hin].
Qed.

Lemma In_mapDelete key m k e :
  In (k, e) (mapDelete key m) <-> In (k, e) m /\ k <> key.
Proof.
  unfold mapDelete. rewrite filter_In. cbn [fst].
  destruct (String.eqb_spec k key); cbn; split; intros [H1 H2];
    (split; [exact H1|]); congruence.
Qed.

Lemma In_deleteKeys ks : forall m k e,
  In (k, e) (deleteKeys ks m) <-> In (k, e) m /\ ~ In k ks.
Proof.
  unfold deleteKeys. induction ks as [|k0 ks IH]; intros m k e; cbn.
  - tauto.
  - rewrite IH, In_mapDelete. split.
    + intros [[H1 H2] H3]. split; [exact H1|]. intros [E|E];
        [congruence|contradiction].
    + intros [H1 H2]. repeat split; [exact H1| |];
        intros E; apply H2; [left; congruence|right; exact E].
Qed.

Lemma NoDup_keys_deleteKeys ks : forall m,
  NoDup (keys m) -> NoDup (keys (deleteKeys ks m)).
Proof.
  unfold deleteKeys. induction ks as [|k0 ks IH]; intros m H; cbn;
    [exact H|].
  apply IH. unfold mapDelete. apply NoDup_keys_filter, H.
Qed.

Lemma length_mapDelete key m :
  NoDup (keys m) -> In key (keys m) ->
  S (List.length (mapDelete key m)) = List.length m.
Proof.
  unfold mapDelete. induction m as [|[k e] m IH]; cbn; [contradiction|].
  intros Hnd Hin. inversion Hnd as [|? ? Hk Hnd']; subst.
  destruct (String.eqb_spec k key) as [->|Hne]; cbn.
  - f_equal.
    assert (Hall : forall l : @Entries T, ~ In key (keys l) ->
              filter (fun ke => negb (String.eqb (fst ke) key)) l = l).
    { induction l as [|[k' e'] l IHl]; cbn; [reflexivity|].
      intros Hn. destruct (String.eqb_spec k' key) as [->|Hne'].
      - exfalso. apply Hn. left. reflexivity.
      - cbn. f_equal. apply IHl. intros E. apply Hn. right. exact E. }
    rewrite Hall by exact Hk. reflexivity.
  - f_equal. apply IH; [exact Hnd'|].
    destruct Hin as [E|Hin]; [contradiction|exact Hin].
Qed.

Lemma keys_mapDelete_In key m k :
  In k (keys (mapDelete key m)) <-> In k (keys m) /\ k <> key.
Proof.
  unfold keys. rewrite !in_map_iff. split.
  - intros ([k' e] & E & Hin). cbn in E. subst k'.
    apply In_mapDelete in Hin as [Hin Hne]. split; [|exact Hne].
    exists (k, e). split; [reflexivity|exact Hin].
  - intros [([k' e] & E & Hin) Hne]. cbn in E. subst k'.
    exists (k, e). split; [reflexivity|]. apply In_mapDelete. split; assumption.
Qed.

Lemma length_deleteKeys ks : forall m,
  NoDup (keys m) -> NoDup ks -> incl ks (keys m) ->
  (List.length (deleteKeys ks m) + List.length ks = List.length m)%nat.
Proof.
  unfold deleteKeys. induction ks as [|k0 ks IH]; intros m Hm Hks Hincl; cbn;
    [lia|].
  inversion Hks as [|? ? Hk0 Hks']; subst.
  assert (Hin0 : In k0 (keys m)) by (apply Hincl; left; reflexivity).
  pose proof (length_mapDelete k0 m Hm Hin0) as Hlen.
  rewrite <- Hlen. rewrite <- (IH (mapDelete k0 m)).
  - lia.
  - unfold mapDelete. apply NoDup_keys_filter, Hm.
  - exact Hks'.
  - intros k Hk. apply keys_mapDelete_In. split.
    + apply Hincl. right. exact Hk.
    + intros ->. contradiction.
Qed.

(** *** What the operations keep *)

Lemma evictExpired_fields now c :
  defaultTtl (evictExpired now c) = defaultTtl c
  /\ maxSize (evictExpired now c) = maxSize c
  /\ enabled (evictExpired now c) = enabled c.
Proof. repeat split. Qed.

Lemma evictOldest_fields c :
  defaultTtl (fst (evictOldest c)) = defaultTtl c
  /\ maxSize (fst (evictOldest c)) = maxSize c
  /\ enabled (fst (evictOldest c)) = enabled c.
Proof.
  unfold evictOldest. destruct (maxSize c) as [b|] eqn:Hb;
    [|repeat split; assumption].
  destruct (_ <? b)%Z; [repeat split; assumption|].
  destruct (_ <? _)%Z; repeat split; assumption.
Qed.

Lemma evictOldest_succeeds c :
  (forall b, maxSize c = Some b -> 1 <= b)%Z ->
  snd (evictOldest c) = inr tt.
Proof.
  intros Hb. unfold evictOldest. destruct (maxSize c) as [b|];
    [|reflexivity].
  specialize (Hb b eq_refl).
  destruct (Z.ltb_spec (Z.of_nat (List.length (cache c))) b); [reflexivity|].
  destruct (Z.ltb_spec (Z.of_nat (List.length (cache c)))
                       (Z.of_nat (List.length (cache c)) - b + 1));
    [lia|reflexivity].
Qed.

Lemma evictOldest_wellFormed c :
  wellFormed c -> wellFormed (fst (evictOldest c)).
Proof.
  unfold wellFormed, evictOldest. intros H.
  destruct (maxSize c) as [b|]; [|exact H].
  destruct (_ <? b)%Z; [exact H|].
  destruct (_ <? _)%Z; cbn [fst cache withCache];
    apply NoDup_keys_deleteKeys, H.
Qed.

(** The shape of a successful [set] on an enabled cache. *)
Lemma set_shape c c1 now key (v : T) ttl :
  enabled c = true ->
  set now key v ttl c = (c1, inr tt) ->
  exists c2,
    c2 = fst (evictOldest (evictExpired now c))
    /\ c1 = withCache
              (mapSet key (mkEntry v (now + orNumber ttl (defaultTtl c)) now)
                      (cache c2)) c2.
Proof.
  unfold set. intros Hen Hset. rewrite Hen in Hset. cbn [negb] in Hset.
  pose proof (evictOldest_fields (evictExpired now c)) as (Httl & _ & _).
  destruct (evictOldest (evictExpired now c)) as [c2 [e|[]]];
    [discriminate|].
  injection Hset as <-. cbn [fst] in Httl. exists c2. split; [reflexivity|].
  rewrite Httl. reflexivity.
Qed.

Lemma get_absent_key c now key :
  ~ In key (keys (cache c)) -> snd (get now key c) = None.
Proof.
  intros Hnot. unfold get. destruct (enabled c); cbn [negb]; [|reflexivity].
  assert (Hnone : mapGet key (cache (evictExpired now c)) = None).
  { apply mapGet_None. intros Hin. apply Hnot.
    apply (keys_filter_In _ _ _ Hin). }
  rewrite Hnone. reflexivity.
Qed.

(** X12.  [get] never returns an expired or an absent entry: a value it
    returns is the value of an entry stored under that key whose expiry time
    has not passed, and the cache is enabled; for a key that is not in the
    store it reports absence. *)
Theorem get_returns_only_live_entries c now key :
  (forall v : T,
      snd (get now key c) = Some v ->
      enabled c = true
      /\ exists e, In (key, e) (cache c) /\ value e = v
                   /\ (now <= expiresAt e)%Z)
  /\ (~ In key (keys (cache c)) -> snd (get now key c) = None).
Proof.
  split; [|apply get_absent_key].
  intros v. unfold get.
  destruct (enabled c); cbn [negb]; [|discriminate].
  destruct (mapGet key (cache (evictExpired now c))) as [entry|] eqn:Hget;
    [|discriminate].
  destruct (isExpired now entry); [discriminate|].
  cbn [snd]. intros H. injection H as <-. split; [reflexivity|].
  apply mapGet_In in Hget. unfold evictExpired in Hget.
  cbn [cache withCache] in Hget. apply filter_In in Hget as [Hin Hlive].
  exists entry. repeat split; [exact Hin|].
  cbn [snd] in Hlive. apply negb_true_iff, Z.ltb_ge in Hlive. exact Hlive.
Qed.

(** X13.  On an enabled cache whose size bound, if any, is at least 1,
    [set] succeeds, and a [get] of the same key returns the value that was
    set for as long as the clock has not passed the entry's expiry time
    [now + (ttl || defaultTtl)]. *)
Theorem set_then_get_returns_the_value c now now' key (v : T) ttl :
  enabled c = true ->
  (forall b, maxSize c = Some b -> 1 <= b)%Z ->
  (now' <= now + orNumber ttl (defaultTtl c))%Z ->
  exists c1, set now key v ttl c = (c1, inr tt)
             /\ snd (get now' key c1) = Some v.
Proof.
  intros Hen Hb Hfresh.
  assert (Hset : exists c1, set now key v ttl c = (c1, inr tt)).
  { unfold set. rewrite Hen. cbn [negb].
    pose proof (evictOldest_succeeds (evictExpired now c) Hb) as Hok.
    destruct (evictOldest (evictExpired now c)) as [c2 r]. cbn [snd] in Hok.
    subst r. eexists. reflexivity. }
  destruct Hset as [c1 Hset]. exists c1. split; [exact Hset|].
  exact (CacheFacts.get_after_set c c1 now now' key v ttl Hset Hen Hfresh).
Qed.

(** X14.  Once the clock has passed the expiry time of an entry that was
    set, [get] and [has] report the key as absent. *)
Theorem entry_is_absent_after_its_ttl c c1 now now' key (v : T) ttl :
  wellFormed c ->
  enabled c = true ->
  set now key v ttl c = (c1, inr tt) ->
  (now + orNumber ttl (defaultTtl c) < now')%Z ->
  snd (get now' key c1) = None /\ snd (has now' key c1) = false.
Proof.
  intros Hwf Hen Hset Hlate.
  destruct (set_shape c c1 now key v ttl Hen Hset) as (c2 & Hc2 & ->).
  pose proof (evictOldest_fields (evictExpired now c)) as (_ & _ & Hen2).
  rewrite <- Hc2 in Hen2. cbn [enabled evictExpired withCache] in Hen2.
  assert (Hwf2 : NoDup (keys (cache c2))).
  { subst c2. apply evictOldest_wellFormed. unfold wellFormed, evictExpired.
    cbn [cache withCache]. apply NoDup_keys_filter, Hwf. }
  set (entry := mkEntry v (now + orNumber ttl (defaultTtl c)) now).
  assert (Hnone : mapGet key
            (filter (fun ke => negb (expiresAt (snd ke) <? now')%Z)
                    (mapSet key entry (cache c2))) = None).
  { apply mapGet_None. unfold keys. rewrite in_map_iff.
    intros ([k e0] & E & Hin). cbn in E. subst k.
    apply filter_In in Hin as [Hin Hlive]. cbn [snd] in Hlive.
    pose proof (In_mapGet key e0 _ (NoDup_keys_mapSet key entry _ Hwf2) Hin)
      as Hget.
    rewrite CacheFacts.mapGet_mapSet in Hget. injection Hget as <-.
    apply negb_true_iff, Z.ltb_ge in Hlive. cbn in Hlive. lia. }
  unfold get, has. cbn [enabled withCache]. rewrite Hen2, Hen. cbn [negb].
  unfold evictExpired. cbn [cache withCache]. rewrite Hnone.
  split; reflexivity.
Qed.

Lemma mapGet_mapDelete_other key key' m :
  key' <> key -> mapGet key' (mapDelete key m) = mapGet key' m.
Proof.
  intros Hne. unfold mapDelete. induction m as [|[k e] m IH]; cbn;
    [reflexivity|].
  destruct (String.eqb_spec k key) as [->|Hk]; cbn.
  - destruct (String.eqb_spec key key'); [congruence|exact IH].
  - destruct (String.eqb k key'); [reflexivity|exact IH].
Qed.

Lemma filter_comm {A} (p q : A -> bool) (l : list A) :
  filter p (filter q l) = filter q (filter p l).
Proof.
  induction l as [|a l IH]; [reflexivity|]. cbn.
  destruct (p a) eqn:Hp, (q a) eqn:Hq; cbn; rewrite ?Hp, ?Hq, IH;
    reflexivity.
Qed.

(** X15.  After [delete(key)] a [get] of that key reports absence, and the
    answer of [get] for every other key is what it was before. *)
Theorem delete_removes_only_that_key c now key key' :
  snd (get now key (delete key c)) = None
  /\ (key' <> key ->
      snd (get now key' (delete key c)) = snd (get now key' c)).
Proof.
  split.
  - apply get_absent_key. unfold delete.
    cbn [cache withCache]. intros Hin.
    apply keys_mapDelete_In in Hin as [_ Hne]. congruence.
  - intros Hne. unfold get, delete. cbn [enabled withCache].
    destruct (enabled c); cbn [negb]; [|reflexivity].
    unfold evictExpired. cbn [cache withCache]. unfold mapDelete at 1.
    rewrite filter_comm. fold (mapDelete key
      (filter (fun ke => negb (expiresAt (snd ke) <? now)%Z) (cache c))).
    rewrite (mapGet_mapDelete_other key key' _ Hne).
    destruct (mapGet key' _) as [entry|]; [|reflexivity].
    destruct (isExpired now entry); reflexivity.
Qed.

(** *** Eviction *)

(** [x] is met before [y] in [l]. *)
Inductive before {A : Type} : list A -> A -> A -> Prop :=
| before_here x y l : In y l -> before (x :: l) x y
| before_later z x y l : before l x y -> before (z :: l) x y.

(** The order in which [evictOldest] takes its victims from the entries
    [l] of the [Map]: by creation time, and among entries created at the
    same instant the one stored first. *)
Definition evictedFirst (l : @Entries T)
           (x y : string * MemoryCacheEntry T) : Prop :=
  (createdAt (snd x) < createdAt (snd y))%Z
  \/ (createdAt (snd x) = createdAt (snd y) /\ before l x y).

Lemma before_filter {A} (p : A -> bool) (l : list A) x y :
  before (filter p l) x y -> before l x y.
Proof.
  induction l as [|a l IH]; cbn; [intros H; inversion H|].
  destruct (p a).
  - intros H. inversion H as [? ? ? Hy|? ? ? ? Hb]; subst.
    + apply before_here. apply filter_In in Hy. apply Hy.
    + apply before_later, IH, Hb.
  - intros H. apply before_later, IH, H.
Qed.

Lemma insertByAge_perm x (l : @Entries T) :
  Permutation (insertByAge x l) (x :: l).
Proof.
  induction l as [|y l IH]; cbn; [reflexivity|].
  destruct (_ <=? _)%Z; [reflexivity|].
  rewrite IH. apply perm_swap.
Qed.

Lemma sortByAge_perm (l : @Entries T) : Permutation (sortByAge l) l.
Proof.
  unfold sortByAge. induction l as [|x l IH]; cbn; [reflexivity|].
  rewrite insertByAge_perm. constructor. exact IH.
Qed.

Lemma StronglySorted_weaken {A} (R R' : A -> A -> Prop) (l : list A) :
  (forall a b, R a b -> R' a b) ->
  StronglySorted R l -> StronglySorted R' l.
Proof.
  intros Himp Hs. induction Hs as [|a l Hs IH Hall]; constructor;
    [exact IH|].
  eapply Forall_impl; [|exact Hall]. intros b. apply Himp.
Qed.

Lemma insertByAge_sorted (R : string * MemoryCacheEntry T ->
                              string * MemoryCacheEntry T -> Prop)
      x (l : @Entries T) :
  (forall z, In z l -> (createdAt (snd x) <= createdAt (snd z))%Z -> R x z) ->
  (forall z, In z l -> (createdAt (snd z) < createdAt (snd x))%Z -> R z x) ->
  (forall a b, In a l -> In b l -> R a b ->
               (createdAt (snd a) <= createdAt (snd b))%Z) ->
  StronglySorted R l -> StronglySorted R (insertByAge x l).
Proof.
  induction l as [|y l IH]; cbn [insertByAge]; intros Hle Hlt Hage Hs.
  - constructor; constructor.
  - inversion Hs as [|? ? Hs' Hall]; subst.
    destruct (Z.leb_spec (createdAt (snd x)) (createdAt (snd y))) as [H|H].
    + constructor; [exact Hs|]. constructor; [apply Hle; [left; reflexivity|exact H]|].
      rewrite Forall_forall in Hall |- *. intros z Hz.
      apply Hle; [right; exact Hz|].
      pose proof (Hage y z (or_introl eq_refl) (or_intror Hz) (Hall z Hz)).
      lia.
    + constructor.
      * apply IH; [| | |exact Hs'].
        -- intros z Hz. apply Hle. right. exact Hz.
        -- intros z Hz. apply Hlt. right. exact Hz.
        -- intros a b Ha Hb. apply Hage; right; assumption.
      * rewrite Forall_forall. intros z Hz.
        apply (Permutation_in _ (insertByAge_perm x l)) in Hz.
        destruct Hz as [<-|Hz]; [apply Hlt; [left; reflexivity|exact H]|].
        rewrite Forall_forall in Hall. apply Hall, Hz.
Qed.

Lemma evictedFirst_age l x y :
  evictedFirst l x y -> (createdAt (snd x) <= createdAt (snd y))%Z.
Proof. intros [H|[H _]]; lia. Qed.

(** The sort is by age and stable. *)
Lemma sortByAge_sorted (l : @Entries T) :
  StronglySorted (evictedFirst l) (sortByAge l).
Proof.
  induction l as [|x l IH]; [constructor|].
  change (sortByAge (x :: l)) with (insertByAge x (sortByAge l)).
  assert (Hin : forall z, In z (sortByAge l) -> In z l)
    by (intros z; apply Permutation_in, sortByAge_perm).
  apply insertByAge_sorted.
  - intros z Hz Hle. destruct (Z.eq_dec (createdAt (snd x)) (createdAt (snd z)))
      as [E|N]; [right|left; lia].
    split; [exact E|]. apply before_here, Hin, Hz.
  - intros z Hz Hlt. left. exact Hlt.
  - intros a b _ _. apply evictedFirst_age.
  - apply (StronglySorted_weaken (evictedFirst l)); [|exact IH].
    intros a b [H|[H Hb]]; [left; exact H|right].
    split; [exact H|]. apply before_later, Hb.
Qed.

Lemma sorted_app {A} (R : A -> A -> Prop) (l1 l2 : list A) :
  StronglySorted R (l1 ++ l2) ->
  forall x y, In x l1 -> In y l2 -> R x y.
Proof.
  induction l1 as [|a l1 IH]; cbn; [contradiction|].
  intros Hs x y Hx Hy. inversion Hs as [|? ? Hs' Hall]; subst.
  destruct Hx as [->|Hx]; [|apply IH; assumption].
  rewrite Forall_forall in Hall. apply Hall, in_or_app. right. exact Hy.
Qed.

Lemma NoDup_firstn {A} n (l : list A) : NoDup l -> NoDup (firstn n l).
Proof.
  intros H. rewrite <- (firstn_skipn n l) in H.
  apply NoDup_app_remove_r in H. exact H.
Qed.

Lemma In_firstn {A} n (l : list A) x : In x (firstn n l) -> In x l.
Proof.
  intros H. rewrite <- (firstn_skipn n l). apply in_or_app. left. exact H.
Qed.

Lemma sorted_keys m :
  NoDup (keys m) ->
  NoDup (keys (sortByAge m))
  /\ (forall k, In k (keys (sortByAge m)) <-> In k (keys m)).
Proof.
  intros H.
  assert (Hp : Permutation (keys (sortByAge m)) (keys m))
    by (unfold keys; apply Permutation_map, sortByAge_perm).
  split.
  - apply (Permutation_NoDup (l := keys m)); [symmetry; exact Hp|exact H].
  - intros k. split; apply Permutation_in; [exact Hp|symmetry; exact Hp].
Qed.

(** After [evictOldest] there is room for one more entry. *)
Lemma evictOldest_room c b :
  wellFormed c -> maxSize c = Some b -> (1 <= b)%Z ->
  (Z.of_nat (List.length (cache (fst (evictOldest c)))) < b)%Z.
Proof.
  unfold wellFormed. intros Hwf Hb Hpos. unfold evictOldest. rewrite Hb.
  destruct (Z.ltb_spec (Z.of_nat (List.length (cache c))) b) as [Hlt|Hge];
    [exact Hlt|].
  set (size := Z.of_nat (List.length (cache c))) in *.
  set (victims := firstn (Z.to_nat (size - b + 1))
                         (map fst (sortByAge (cache c)))).
  destruct (sorted_keys (cache c) Hwf) as [Hnd Hsame].
  assert (Hlen : List.length victims = Z.to_nat (size - b + 1)).
  { subst victims. apply firstn_length_le. rewrite length_map.
    rewrite (Permutation_length (sortByAge_perm (cache c))). lia. }
  pose proof (length_deleteKeys victims (cache c) Hwf
                (NoDup_firstn _ _ Hnd)
                (fun k Hk => proj1 (Hsame k) (In_firstn _ _ _ Hk))) as Hdel.
  assert (Hres : (Z.of_nat (List.length (deleteKeys victims (cache c))) < b)%Z)
    by lia.
  destruct (size <? size - b + 1)%Z; cbn [fst cache withCache]; exact Hres.
Qed.

(** The operations of the cache, with the clock readings they make. *)
Inductive Op : Type :=
| OpSet (now : Z) (key : string) (v : T) (ttl : option Z)
| OpGet (now : Z) (key : string)
| OpHas (now : Z) (key : string)
| OpDelete (key : string)
| OpClear
| OpSize (now : Z).

Definition step (op : Op) c : t T :=
  match op with
  | OpSet now key v ttl => fst (set now key v ttl c)
  | OpGet now key => fst (get now key c)
  | OpHas now key => fst (has now key c)
  | OpDelete key => delete key c
  | OpClear => clear c
  | OpSize now => fst (size now c)
  end.

Definition bounded (b : Z) c : Prop :=
  wellFormed c /\ maxSize c = Some b
  /\ (Z.of_nat (List.length (cache c)) <= b)%Z.

Lemma filter_bounded (p : string * MemoryCacheEntry T -> bool) b c :
  bounded b c -> bounded b (withCache (filter p (cache c)) c).
Proof.
  intros (Hwf & Hb & Hlen). unfold bounded, wellFormed.
  cbn [cache withCache maxSize]. repeat split;
    [apply NoDup_keys_filter, Hwf|exact Hb|].
  pose proof (filter_length_le p (cache c)). lia.
Qed.

Lemma lookup_bounded now key b c :
  bounded b c ->
  bounded b (if negb (enabled c) then c
             else match mapGet key (cache (evictExpired now c)) with
                  | None => evictExpired now c
                  | Some entry =>
                      if isExpired now entry
                      then withCache (mapDelete key (cache (evictExpired now c)))
                                     (evictExpired now c)
                      else evictExpired now c
                  end).
Proof.
  intros H. destruct (enabled c); cbn [negb]; [|exact H].
  assert (H1 : bounded b (evictExpired now c)) by (apply filter_bounded, H).
  destruct (mapGet key _) as [entry|]; [|exact H1].
  destruct (isExpired now entry); [|exact H1].
  apply (filter_bounded _ b (evictExpired now c) H1).
Qed.

Lemma step_bounded b op c :
  (1 <= b)%Z -> bounded b c -> bounded b (step op c).
Proof.
  intros Hpos H. destruct op as [now key v ttl|now key|now key|key| |now];
    cbn [step].
  - unfold set. destruct (enabled c) eqn:Hen; cbn [negb]; [|exact H].
    assert (H1 : bounded b (evictExpired now c)) by (apply filter_bounded, H).
    destruct H1 as (Hwf1 & Hb1 & Hlen1).
    pose proof (evictOldest_room _ b Hwf1 Hb1 Hpos) as Hroom.
    pose proof (evictOldest_wellFormed _ Hwf1) as Hwf2.
    pose proof (evictOldest_fields (evictExpired now c)) as (_ & Hb2 & _).
    destruct (evictOldest (evictExpired now c)) as [c2 [e|[]]];
      cbn [fst] in *.
    + repeat split; [exact Hwf2|congruence|lia].
    + unfold bounded, wellFormed. cbn [cache withCache maxSize].
      repeat split; [apply NoDup_keys_mapSet, Hwf2|congruence|].
      pose proof (length_mapSet key
                    (mkEntry v (now + orNumber ttl (defaultTtl c2)) now)
                    (cache c2)). lia.
  - unfold get. pose proof (lookup_bounded now key b c H) as Hl.
    destruct (enabled c); cbn [negb] in *; [|exact H].
    destruct (mapGet key _) as [entry|]; [|exact Hl].
    destruct (isExpired now entry); exact Hl.
  - unfold has. pose proof (lookup_bounded now key b c H) as Hl.
    destruct (enabled c); cbn [negb] in *; [|exact H].
    destruct (mapGet key _) as [entry|]; [|exact Hl].
    destruct (isExpired now entry); exact Hl.
  - apply (filter_bounded _ b c H).
  - destruct H as (_ & Hb & _). unfold bounded, wellFormed, clear.
    cbn [cache withCache maxSize]. repeat split;
      [apply NoDup_nil|exact Hb|cbn; lia].
  - apply (filter_bounded _ b c H).
Qed.

(** X16.  A cache constructed with a size bound of at least 1 never holds
    more entries than that bound, whatever sequence of [set], [get], [has],
    [delete], [clear] and [size] calls is made on it and whatever the clock
    does; its keys stay pairwise distinct. *)
Theorem cache_never_exceeds_maxSize
        (config : CacheConfig) (b : Z) (ops : list Op) :
  cfg_maxSize config = Some b ->
  (1 <= b)%Z ->
  let c := fold_left (fun c op => step op c) ops (constructor config) in
  (Z.of_nat (List.length (cache c)) <= b)%Z /\ wellFormed c.
Proof.
  intros Hcfg Hpos.
  assert (H0 : bounded b (@constructor T config)).
  { unfold bounded, wellFormed, constructor. cbn [cache maxSize].
    rewrite Hcfg. destruct (Z.eqb_spec b 0); [lia|].
    repeat split; [apply NoDup_nil|cbn; lia]. }
  cbn zeta. generalize dependent (@constructor T config).
  induction ops as [|op ops IH]; intros c Hc; cbn [fold_left].
  - destruct Hc as (Hwf & _ & Hlen). split; assumption.
  - apply IH, step_bounded; assumption.
Qed.

Lemma filter_true {A} (l : list A) : filter (fun _ => true) l = l.
Proof. induction l as [|a l IH]; cbn; [|rewrite IH]; reflexivity. Qed.

Definition spared (victims : list string) (k : string) : bool :=
  negb (existsb (String.eqb k) victims).

Lemma spared_false victims k : spared victims k = false <-> In k victims.
Proof.
  unfold spared. rewrite negb_false_iff, existsb_exists. split.
  - intros (x & Hx & E). apply String.eqb_eq in E. subst x. exact Hx.
  - intros H. exists k. split; [exact H|apply String.eqb_refl].
Qed.

(** Deleting keys one after the other leaves the other entries in
    place. *)
Lemma deleteKeys_filter victims : forall m : @Entries T,
  deleteKeys victims m = filter (fun ke => spared victims (fst ke)) m.
Proof.
  unfold deleteKeys.
  induction victims as [|k ks IH]; intros m; cbn [fold_left].
  - unfold spared. cbn. symmetry. apply filter_true.
  - rewrite IH. unfold mapDelete. rewrite EffectFacts.filter_twice.
    apply filter_ext. intros [k0 e0]. unfold spared. cbn [fst existsb].
    rewrite negb_orb. reflexivity.
Qed.

(** X17.  What a successful [set] on an enabled cache evicts.  Of the
    entries that have not expired it keeps all when there is room, and
    otherwise exactly [maxSize - 1] of them, in their order; every entry it
    drops comes before every entry it keeps in the order of eviction: it was
    created earlier, or at the same instant and was stored first.  The new
    entry is then set on what was kept. *)
Theorem set_evicts_the_oldest c c1 now key (v : T) ttl :
  wellFormed c ->
  enabled c = true ->
  set now key v ttl c = (c1, inr tt) ->
  let live := filter (fun ke => negb (expiresAt (snd ke) <? now)%Z)
                     (cache c) in
  exists keep : string -> bool,
    let kept := filter (fun ke => keep (fst ke)) live in
    cache c1
    = mapSet key (mkEntry v (now + orNumber ttl (defaultTtl c)) now) kept
    /\ Z.of_nat (List.length kept)
       = match maxSize c with
         | Some b => Z.min (Z.of_nat (List.length live)) (b - 1)
         | None => Z.of_nat (List.length live)
         end
    /\ (forall x y, In x live -> keep (fst x) = false -> In y kept ->
                    evictedFirst (cache c) x y).
Proof.
  intros Hwf Hen Hset. cbn zeta.
  set (live := filter (fun ke => negb (expiresAt (snd ke) <? now)%Z)
                      (cache c)).
  assert (Hwf1 : NoDup (keys live)) by (apply NoDup_keys_filter, Hwf).
  assert (Hall : forall c2,
             evictOldest (evictExpired now c) = (c2, inr tt) ->
             exists keep : string -> bool,
               cache c2 = filter (fun ke => keep (fst ke)) live
               /\ defaultTtl c2 = defaultTtl c
               /\ Z.of_nat (List.length (filter (fun ke => keep (fst ke)) live))
                  = match maxSize c with
                    | Some b => Z.min (Z.of_nat (List.length live)) (b - 1)
                    | None => Z.of_nat (List.length live)
                    end
               /\ (forall x y, In x live -> keep (fst x) = false ->
                               In y (filter (fun ke => keep (fst ke)) live) ->
                               evictedFirst (cache c) x y)).
  { intros c2. unfold evictOldest, evictExpired.
    cbn [cache withCache maxSize]. fold live.
    destruct (maxSize c) as [b|].
    2:{ intros H. injection H as <-. exists (fun _ => true).
        cbn [cache withCache defaultTtl]. rewrite filter_true.
        repeat split. discriminate. }
    destruct (Z.ltb_spec (Z.of_nat (List.length live)) b) as [Hroom|Hfull].
    { intros H. injection H as <-. exists (fun _ => true).
      cbn [cache withCache defaultTtl]. rewrite filter_true.
      repeat split; [lia|discriminate]. }
    set (t0 := Z.to_nat (Z.of_nat (List.length live) - b + 1)).
    set (victims := firstn t0 (map fst (sortByAge live))).
    destruct (Z.ltb_spec (Z.of_nat (List.length live))
                         (Z.of_nat (List.length live) - b + 1)) as [Hbad|Hok];
      [discriminate|].
    intros H. injection H as <-. exists (spared victims).
    cbn [cache withCache defaultTtl].
    destruct (sorted_keys live Hwf1) as [Hnd Hsame].
    assert (Hlen : List.length victims = t0).
    { subst victims. apply firstn_length_le. rewrite length_map.
      rewrite (Permutation_length (sortByAge_perm live)). subst t0. lia. }
    pose proof (length_deleteKeys victims live Hwf1
                  (NoDup_firstn _ _ Hnd)
                  (fun k Hk => proj1 (Hsame k) (In_firstn _ _ _ Hk))) as Hdel.
    rewrite deleteKeys_filter in Hdel |- *.
    split; [reflexivity|]. split; [reflexivity|]. split; [subst t0; lia|].
    intros [k e] [k' e'] Hx Hgone Hy. cbn [fst] in Hgone.
    apply spared_false in Hgone. apply filter_In in Hy as [Hy Hkept].
    cbn [fst] in Hkept.
    assert (Hnot : ~ In k' victims).
    { intros Hv. apply spared_false in Hv. congruence. }
    subst victims. rewrite firstn_map in Hgone, Hnot.
    apply in_map_iff in Hgone as ([k0 e0] & E & Hfirst). cbn in E. subst k0.
    assert (He0 : e0 = e).
    { pose proof (Permutation_in _ (sortByAge_perm live)
                    (In_firstn _ _ _ Hfirst)) as H0.
      pose proof (In_mapGet k e0 live Hwf1 H0) as G0.
      pose proof (In_mapGet k e live Hwf1 Hx) as G1. congruence. }
    subst e0.
    assert (Hskip : In (k', e') (skipn t0 (sortByAge live))).
    { pose proof (Permutation_in _ (Permutation_sym (sortByAge_perm live)) Hy)
        as H0.
      rewrite <- (firstn_skipn t0 (sortByAge live)) in H0.
      apply in_app_or in H0 as [H0|H0]; [|exact H0].
      exfalso. apply Hnot. apply (in_map fst _ (k', e')), H0. }
    pose proof (sortByAge_sorted live) as Hsorted.
    rewrite <- (firstn_skipn t0 (sortByAge live)) in Hsorted.
    destruct (sorted_app _ _ _ Hsorted _ _ Hfirst Hskip) as [Hlt|[Heq Hb]];
      [left; exact Hlt|right].
    split; [exact Heq|]. exact (before_filter _ _ _ _ Hb). }
  unfold set in Hset. rewrite Hen in Hset. cbn [negb] in Hset.
  destruct (evictOldest (evictExpired now c)) as [c2 [e|[]]] eqn:Hev;
    [discriminate|].
  destruct (Hall c2 eq_refl) as (keep & Hc2 & Httl & Hcount & Horder).
  injection Hset as <-. exists keep. cbn [cache withCache].
  rewrite Hc2, Httl. repeat split; assumption.
Qed.

(** X18.  On an enabled cache whose size bound is not positive, every
    [set] throws (a [TypeError] from reading past the end of the sorted
    entries), stores nothing and leaves the store empty. *)
Theorem set_throws_when_maxSize_is_not_positive
        c now key (v : T) ttl b :
  enabled c = true ->
  maxSize c = Some b ->
  (b <= 0)%Z ->
  exists c1 text,
    set now key v ttl c = (c1, inl (PlainError text))
    /\ cache c1 = [].
Proof.
  intros Hen Hb Hneg. unfold set. rewrite Hen. cbn [negb].
  unfold evictOldest. cbn [maxSize evictExpired withCache cache]. rewrite Hb.
  set (m1 := filter (fun ke => negb (expiresAt (snd ke) <? now)%Z) (cache c)).
  destruct (Z.ltb_spec (Z.of_nat (List.length m1)) b); [lia|].
  destruct (Z.ltb_spec (Z.of_nat (List.length m1))
                       (Z.of_nat (List.length m1) - b + 1)); [|lia].
  eexists. eexists. split; [reflexivity|]. cbn [cache withCache].
  rewrite firstn_all2
    by (rewrite length_map,
          (Permutation_length (sortByAge_perm m1)); lia).
  destruct (deleteKeys (map fst (sortByAge m1)) m1) as [|[k0 e0] rest] eqn:E;
    [reflexivity|].
  assert (Hin : In (k0, e0) (deleteKeys (map fst (sortByAge m1)) m1))
    by (rewrite E; left; reflexivity).
  apply In_deleteKeys in Hin as [Hin Hnot]. exfalso. apply Hnot.
  apply (in_map fst _ (k0, e0)).
  apply (Permutation_in _ (Permutation_sym (sortByAge_perm m1))), Hin.
Qed.

End WithValue.

Lemma set_then_get_returns_the_value_witness :
  exists c1,
    set 0 "k"%string 7%Z None (@constructor Z (mkCacheConfig None (Some 2%Z) None))
    = (c1, inr tt)
    /\ snd (get 60000 "k"%string c1) = Some 7%Z.
Proof.
  apply set_then_get_returns_the_value.
  - reflexivity.
  - intros b H. injection H as <-. lia.
  - cbn. lia.
Defined.

Lemma entry_is_absent_after_its_ttl_witness :
  snd (get 60001 "k"%string
           (fst (set 0 "k"%string 7%Z None
                     (@constructor Z (mkCacheConfig None None None)))))
  = None.
Proof.
  refine (proj1 (entry_is_absent_after_its_ttl
                   (@constructor Z (mkCacheConfig None None None)) _
                   0 60001 "k"%string 7%Z None _ eq_refl eq_refl _)).
  - constructor.
  - cbn. lia.
Defined.

Definition twoSlots : CacheConfig := mkCacheConfig None (Some 2%Z) None.

Lemma cache_never_exceeds_maxSize_witness :
  let c := fold_left (fun c op => step op c)
                     [OpSet 0 "a"%string 1%Z None;
                      OpSet 1 "b"%string 2%Z None;
                      OpSet 2 "c"%string 3%Z None;
                      OpGet 3 "a"%string]
                     (constructor twoSlots) in
  (Z.of_nat (List.length (cache c)) <= 2)%Z /\ wellFormed c.
Proof.
  apply (cache_never_exceeds_maxSize twoSlots 2); [reflexivity|lia].
Defined.

Definition tied : t Z :=
  mkCache 60000 (Some 2%Z) true
          [("a"%string, mkEntry 1%Z 100 0); ("b"%string, mkEntry 2%Z 100 0)].

Lemma set_evicts_the_oldest_witness :
  cache (fst (set 0 "c"%string 3%Z None tied))
  = [("b"%string, mkEntry 2%Z 100 0); ("c"%string, mkEntry 3%Z 60000 0)]
  /\ exists keep : string -> bool,
      cache (fst (set 0 "c"%string 3%Z None tied))
      = mapSet "c"%string (mkEntry 3%Z 60000 0)
               (filter (fun ke => keep (fst ke)) (cache tied))
      /\ Z.of_nat (List.length (filter (fun ke => keep (fst ke))
                                       (cache tied))) = 1%Z
      /\ (forall x y, In x (cache tied) -> keep (fst x) = false ->
                      In y (filter (fun ke => keep (fst ke)) (cache tied)) ->
                      evictedFirst (cache tied) x y).
Proof.
  split; [reflexivity|].
  refine (set_evicts_the_oldest tied _ 0 "c"%string 3%Z None _ eq_refl
                                eq_refl).
  unfold wellFormed. cbn. repeat constructor; cbn; intuition discriminate.
Defined.

Lemma set_throws_when_maxSize_is_not_positive_witness :
  exists c1 text,
    set 0 "k"%string 7%Z None (@constructor Z (mkCacheConfig None (Some (-1)%Z) None))
    = (c1, inl (PlainError text))
    /\ cache c1 = [].
Proof.
  apply (set_throws_when_maxSize_is_not_positive _ 0 "k"%string 7%Z None (-1));
    [reflexivity|reflexivity|lia].
Defined.

End MemoryCacheFacts.

(** ** Subsequences *)

Module Sequences.

(** [a] is [b] with some elements left out, the order kept. *)
Inductive subsequence {A} : list A -> list A -> Prop :=
| sub_nil : subsequence [] []
| sub_keep x a b : subsequence a b -> subsequence (x :: a) (x :: b)
| sub_skip x a b : subsequence a b -> subsequence a (x :: b).

Lemma sub_refl {A} (l : list A) : subsequence l l.
Proof. induction l; constructor; assumption. Qed.

Lemma sub_nil_l {A} (l : list A) : subsequence [] l.
Proof. induction l; constructor; assumption. Qed.

Lemma sub_app {A} (a b c d : list A) :
  subsequence a b -> subsequence c d -> subsequence (a ++ c) (b ++ d).
Proof.
  intros H. induction H; intros Hcd; cbn; [exact Hcd| |];
    constructor; apply IHsubsequence, Hcd.
Qed.

Lemma sub_drop_suffix {A} (l c : list A) :
  subsequence l c -> forall a b, l = a ++ b -> subsequence a c.
Proof.
  intros H. induction H as [|x l c H IH|x l c H IH]; intros a b E.
  - symmetry in E. apply app_eq_nil in E as [-> _]. constructor.
  - destruct a as [|y a]; [apply sub_nil_l|].
    cbn in E. injection E as <- E. apply sub_keep. exact (IH a b E).
  - apply sub_skip. exact (IH a b E).
Qed.

End Sequences.

(** ** The providers: failures and the shape of a page *)

Module ProviderMore.
Import JsString Types Effects Http Environment EffectFacts Sequences.
Local Open Scope string_scope.

(** What a record of the indexer becomes. *)
Definition transformed (env : Env) (tx : EthereumTransaction)
           (raw : EtherscanTransaction) : Prop :=
  eth_hash tx = raw_hash raw
  /\ eth_from tx = raw_from raw
  /\ eth_value tx = raw_value raw
  /\ eth_timestamp tx
     = option_map (fun s => s * 1000)%Z (parseInt env (raw_timeStamp raw))
  /\ (eth_status tx = FAILED
      <-> raw_isError raw = "1" \/ raw_txreceipt_status raw = "0")
  /\ (eth_status tx = SUCCESS
      <-> raw_isError raw <> "1" /\ raw_txreceipt_status raw <> "0").

Lemma transformTransaction_transformed env raw tx :
  EthereumProvider.transformTransaction env raw = inr tx ->
  transformed env tx raw.
Proof.
  unfold EthereumProvider.transformTransaction, transformed.
  intros H.
  assert (Hshape : exists fee,
             tx = {| eth_hash := raw_hash raw;
                     eth_blockNumber := parseInt env (raw_blockNumber raw);
                     eth_timestamp :=
                       option_map (fun s => s * 1000)%Z
                                  (parseInt env (raw_timeStamp raw));
                     eth_status :=
                       if String.eqb (raw_isError raw) "1"
                          || String.eqb (raw_txreceipt_status raw) "0"
                       then FAILED else SUCCESS;
                     eth_from := raw_from raw;
                     eth_to := if nonEmpty (raw_to raw)
                               then Some (raw_to raw) else None;
                     eth_value := raw_value raw;
                     eth_gasPrice := raw_gasPrice raw;
                     eth_gasLimit := raw_gas raw;
                     eth_gasUsed := raw_gasUsed raw;
                     eth_fee := fee;
                     eth_nonce := parseInt env (raw_nonce raw);
                     eth_input := if nonEmpty (raw_input raw)
                                  then Some (raw_input raw) else None;
                     eth_isContractInteraction :=
                       nonEmpty (raw_contractAddress raw)
                       || (nonEmpty (raw_input raw)
                           && negb (String.eqb (raw_input raw) "0x")) |}).
  { destruct (nonEmpty (raw_gasUsed raw) && nonEmpty (raw_gasPrice raw));
      [destruct (bigIntProduct env _ _); [|discriminate]|];
      injection H as <-; eexists; reflexivity. }
  clear H. destruct Hshape as [fee ->]. cbn.
  repeat split; try reflexivity.
  - destruct (String.eqb_spec (raw_isError raw) "1"); [tauto|].
    destruct (String.eqb_spec (raw_txreceipt_status raw) "0"); [tauto|].
    discriminate.
  - intros [E|E]; rewrite E; [reflexivity|].
    rewrite String.eqb_refl, orb_true_r. reflexivity.
  - destruct (String.eqb_spec (raw_isError raw) "1"); [discriminate|exact n].
  - destruct (String.eqb_spec (raw_isError raw) "1"); [discriminate|].
    destruct (String.eqb_spec (raw_txreceipt_status raw) "0");
      [discriminate|assumption].
  - intros [E1 E2].
    destruct (String.eqb_spec (raw_isError raw) "1"); [contradiction|].
    destruct (String.eqb_spec (raw_txreceipt_status raw) "0");
      [contradiction|reflexivity].
Qed.

Lemma mapThrowing_Forall2 {A B} (f : A -> SDKError + B) l :
  forall bs, EthereumProvider.mapThrowing f l = inr bs ->
             Forall2 (fun b a => f a = inr b) bs l.
Proof.
  induction l as [|a l IH]; cbn; intros bs H.
  - injection H as <-. constructor.
  - destruct (f a) as [e|b] eqn:Hf; [discriminate|].
    destruct (EthereumProvider.mapThrowing f l) as [e|bs']; [discriminate|].
    injection H as <-. constructor; [exact Hf|apply IH; reflexivity].
Qed.

Lemma promiseAll_rejection {A} (P : SDKError -> Prop) (ms : list (M A)) :
  Forall (fun m => forall w w' e, m w = (w', inl e) -> P e) ms ->
  forall w w' e, promiseAll ms w = (w', inl e) -> P e.
Proof.
  unfold promiseAll. induction ms as [|m ms IH]; intros Hall w w' e H.
  - cbn in H. discriminate.
  - inversion Hall as [|? ? Hm Hms]; subst. cbn [settleAll] in H.
    destruct (m w) as [w1 r] eqn:Hr.
    specialize (IH Hms w1).
    destruct (settleAll ms w1) as [w2 rs]. cbn [firstRejection] in H.
    destruct r as [e1|a].
    + injection H as _ <-. exact (Hm _ _ _ Hr).
    + destruct (firstRejection rs) as [e2|vs] eqn:Hrs; [|discriminate].
      injection H as _ <-. apply (IH w2 e2). reflexivity.
Qed.

Lemma promiseAll_length {A} (ms : list (M A)) :
  forall w w' vs, promiseAll ms w = (w', inr vs) ->
                  List.length vs = List.length ms.
Proof.
  unfold promiseAll. induction ms as [|m ms IH]; intros w w' vs H.
  - cbn in H. injection H as _ <-. reflexivity.
  - cbn [settleAll] in H. destruct (m w) as [w1 r].
    specialize (IH w1). destruct (settleAll ms w1) as [w2 rs].
    cbn [firstRejection] in H. destruct r as [e1|a]; [discriminate|].
    destruct (firstRejection rs) as [e2|vs']; [discriminate|].
    injection H as _ <-. cbn. f_equal. apply (IH w2). reflexivity.
Qed.

(** The index-based pairing of signatures and details is a zip when there
    are as many details as signatures. *)
Lemma mapWithDetails_zip {A B C} (f : A -> option B -> C) signatures :
  forall details,
    List.length details = List.length signatures ->
    SolanaProvider.mapWithDetails f signatures details
    = map (fun sd => f (fst sd) (snd sd)) (combine signatures details).
Proof.
  unfold SolanaProvider.mapWithDetails.
  assert (G : forall (pre details : list (option B)),
             List.length details = List.length signatures ->
             map (fun si : A * nat =>
                    f (fst si)
                      match nth_error (pre ++ details)%list (snd si) with
                      | Some d => d
                      | None => None
                      end)
                 (combine signatures
                          (seq (List.length pre) (List.length signatures)))
             = map (fun sd => f (fst sd) (snd sd))
                   (combine signatures details)).
  { induction signatures as [|s signatures IH]; intros pre details Hlen;
      [reflexivity|].
    destruct details as [|d details]; [discriminate|].
    cbn [List.length seq combine map fst snd]. f_equal.
    - rewrite nth_error_app2 by lia. rewrite Nat.sub_diag. reflexivity.
    - specialize (IH (pre ++ [d])%list details).
      rewrite <- app_assoc, length_app in IH. cbn [List.length app] in IH.
      rewrite Nat.add_1_r in IH. apply IH. cbn in Hlen. lia. }
  intros details Hlen. exact (G [] details Hlen).
Qed.

Fixpoint resolvedCount {A} (l : list (option A)) : nat :=
  match l with
  | [] => 0
  | Some _ :: l' => S (resolvedCount l')
  | None :: l' => resolvedCount l'
  end.

Lemma dropNull_transformed clock signatures :
  forall details,
    List.length details = List.length signatures ->
    let kept := SolanaProvider.dropNull
                  (map (fun sd => SolanaProvider.transformTransaction
                                    clock (fst sd) (snd sd))
                       (combine signatures details)) in
    subsequence (map sol_signature kept) (map sig_signature signatures)
    /\ List.length kept = resolvedCount details.
Proof.
  induction signatures as [|s signatures IH]; intros details Hlen.
  - cbn. destruct details; [|discriminate]. split; [constructor|reflexivity].
  - destruct details as [|d details]; [discriminate|].
    destruct (IH details) as [Hsub Hcount]; [cbn in Hlen; lia|].
    cbn zeta in *. cbn [combine map fst snd].
    destruct d as [d|]; cbn [SolanaProvider.transformTransaction
                              SolanaProvider.dropNull resolvedCount].
    + cbn [map sol_signature List.length]. split;
        [apply sub_keep, Hsub|f_equal; exact Hcount].
    + split; [apply sub_skip, Hsub|exact Hcount].
Qed.

Lemma tryCatch_wraps {A} (body : M A) (wrap : SDKError -> SDKError)
      w w' e :
  (forall x, isProviderError (wrap x) = true) ->
  tryCatch body
           (fun error => if isProviderError error then throw error
                         else throw (wrap error)) w = (w', inl e) ->
  isProviderError e = true.
Proof.
  intros Hwrap. unfold tryCatch, throw.
  destruct (body w) as [w1 [e1|a]]; [|discriminate].
  destruct (isProviderError e1) eqn:Hp; intros H; injection H as _ <-;
    [exact Hp|apply Hwrap].
Qed.

Lemma rpcRequest_rejection {T} env self
      (remote : Remote (SolanaRpcResponse T)) method params w w' e :
  SolanaProvider.rpcRequest env self remote method params w = (w', inl e) ->
  isProviderError e = true \/ acquireSolana env w = (w', inl e).
Proof.
  unfold SolanaProvider.rpcRequest.
  destruct (acquireSolana env w) as [w1 [e1|[]]] eqn:Ha.
  - rewrite (bind_rejected _ _ _ _ _ Ha). intros H.
    injection H as <- <-. right. reflexivity.
  - rewrite (bind_resolved _ _ _ _ _ Ha).
    rewrite (bind_resolved _ _ _ _ _ (log_eq _ _ _ _)).
    unfold bind at 1. unfold SolanaProvider.nextRequestId at 1.
    cbv beta iota. intros H. left.
    exact (tryCatch_wraps
             _ (fun error =>
                  ProviderError
                    ("Failed to make Solana RPC request: " ++ message error)
                    (Some "Solana RPC") None)
             _ _ _ (fun _ => eq_refl) H).
Qed.


(** X19.  A rejection of the REST-indexer provider's [getTransactions]
    is of one of three kinds: the configuration error for a missing API
    key (raised before anything else happens), the rejection of the rate
    limiter's [acquire], or a provider error: every other failure of the
    request, network and rate-limit errors included, is wrapped into one. *)
Theorem ethereum_rejections_are_classified
        env self address options w w' e :
  EthereumProvider.getTransactions env self address options w
  = (w', inl e) ->
  (w' = w
   /\ e = ConfigurationError "Etherscan API key is required"
                             [("address", address)])
  \/ acquireEthereum env w = (w', inl e)
  \/ isProviderError e = true.
Proof.
  unfold EthereumProvider.getTransactions.
  destruct (EthereumProvider.truthyString (EthereumProvider.apiKey self));
    cbn [negb].
  - destruct (acquireEthereum env w) as [w1 [e1|[]]] eqn:Ha.
    + rewrite (bind_rejected _ _ _ _ _ Ha). intros H.
      injection H as <- <-. right. left. reflexivity.
    + rewrite (bind_resolved _ _ _ _ _ Ha).
      rewrite (bind_resolved _ _ _ _ _ (log_eq _ _ _ _)).
      intros H. right. right.
      exact (tryCatch_wraps
               _ (fun error =>
                    ProviderError
                      ("Failed to fetch Ethereum transactions: "
                         ++ message error)
                      (Some "Etherscan") None)
               _ _ _ (fun _ => eq_refl) H).
  - unfold throw. intros H. injection H as <- <-. left. split; reflexivity.
Qed.

(** X20.  A rejection of the JSON-RPC provider's [getTransactions] is a
    provider error or the rejection of some call of the rate limiter's
    [acquire]; so with a limiter that never rejects, every failure is a
    provider error. *)
Theorem solana_rejections_are_classified
        env self publicKey options w w' e :
  SolanaProvider.getTransactions env self publicKey options w
  = (w', inl e) ->
  isProviderError e = true
  \/ exists w0 w1, acquireSolana env w0 = (w1, inl e).
Proof.
  unfold SolanaProvider.getTransactions, SolanaProvider.getSignatures.
  unfold bind at 1.
  destruct (SolanaProvider.rpcRequest env self (solanaSignatures env) _ _ w)
    as [w1 [e1|signatures]] eqn:H1.
  - intros H. injection H as <- <-.
    destruct (rpcRequest_rejection _ _ _ _ _ _ _ _ H1) as [Hp|Ha];
      [left; exact Hp|right; eauto].
  - destruct signatures as [[|s signatures]|]; try discriminate.
    unfold bind at 1.
    destruct (SolanaProvider.getTransactionDetails env self _ w1)
      as [w2 [e2|details]] eqn:H2; [|discriminate].
    intros H. injection H as _ <-.
    unfold SolanaProvider.getTransactionDetails in H2.
    refine (promiseAll_rejection
              (fun e => isProviderError e = true
                        \/ exists w0 w1, acquireSolana env w0 = (w1, inl e))
              _ _ _ _ _ H2).
    apply Forall_forall. intros m Hm. apply in_map_iff in Hm as (x & <- & _).
    intros w0 w0' e0 H0.
    destruct (rpcRequest_rejection _ _ _ _ _ _ _ _ H0) as [Hp|Ha];
      [left; exact Hp|right; eauto].
Qed.

(** X21.  A page of the REST-indexer provider holds one transaction per
    record of the answer, in the order of the answer; each carries the
    record's hash, sender and value, the record's time stamp in
    milliseconds, and is failed exactly when the record's [isError] is "1"
    or its [txreceipt_status] is "0" (and successful otherwise). *)
Theorem ethereum_page_follows_the_records
        env self address options key w w1 w2 response records w' r :
  EthereumProvider.apiKey self = Some key ->
  nonEmpty key = true ->
  acquireEthereum env w = (w1, inr tt) ->
  EthereumProvider.fetchPage env self
    (EthereumProvider.requestUrl self key address
       (orNumber (page options) 1) (orNumber (limit options) 100))
    (ProviderFacts.admitted self w1) = (w2, inr response) ->
  ets_result (responseData response) = ResultArray records ->
  EthereumProvider.getTransactions env self address options w
  = (w', inr r) ->
  Forall2 (transformed env) (data r) records.
Proof.
  intros Hkey Hne Hacq Hfetch Hres Hget.
  rewrite (ProviderFacts.ethereum_getTransactions_interprets
             env self address options key w w1 w2 response
             Hkey Hne Hacq Hfetch) in Hget.
  unfold EthereumProvider.interpret in Hget. rewrite Hres in Hget.
  destruct (EthereumProvider.mapThrowing _ records) as [e|txs] eqn:Hmap.
  - destruct (ets_status (responseData response)); discriminate.
  - assert (Hr : data r = txs)
      by (destruct (ets_status (responseData response));
          injection Hget as _ <-; reflexivity).
    rewrite Hr. apply mapThrowing_Forall2 in Hmap.
    eapply Forall2_impl; [|exact Hmap].
    intros tx raw. apply transformTransaction_transformed.
Qed.

(** X22.  A page of the JSON-RPC provider: when the signatures and the
    details of every signature were fetched, the call resolves; there is
    one detail per signature; the page holds, in the order of the
    signatures, the transactions of exactly the signatures whose detail is
    not [null], so its signatures are a subsequence of the fetched ones and
    its length is the number of resolved details. *)
Theorem solana_page_drops_unresolved_details
        env self publicKey options w w1 first rest w2 details :
  SolanaProvider.getSignatures env self publicKey options w
  = (w1, inr (Some (first :: rest))) ->
  SolanaProvider.getTransactionDetails
    env self (map sig_signature (first :: rest)) w1
  = (w2, inr details) ->
  List.length details = List.length (first :: rest)
  /\ exists r,
      SolanaProvider.getTransactions env self publicKey options w
      = (w2, inr r)
      /\ data r
         = SolanaProvider.dropNull
             (map (fun sd => SolanaProvider.transformTransaction
                               (now w2) (fst sd) (snd sd))
                  (combine (first :: rest) details))
      /\ subsequence (map sol_signature (data r))
                     (map sig_signature (first :: rest))
      /\ List.length (data r) = resolvedCount details.
Proof.
  intros Hsig Hdet.
  assert (Hlen : List.length details = List.length (first :: rest)).
  { unfold SolanaProvider.getTransactionDetails in Hdet.
    apply promiseAll_length in Hdet. rewrite Hdet, !length_map.
    reflexivity. }
  split; [exact Hlen|].
  unfold SolanaProvider.getTransactions.
  rewrite (bind_resolved _ _ _ _ _ Hsig). cbv beta iota.
  rewrite (bind_resolved _ _ _ _ _ Hdet).
  unfold readClock, bind, ret. eexists. split; [reflexivity|].
  cbn [data]. rewrite (mapWithDetails_zip _ _ _ Hlen).
  split; [reflexivity|]. apply dropNull_transformed, Hlen.
Qed.

(** X23.  An Ethereum provider configured with an RPC URL but no API key
    is constructed without complaint, yet each of its [getTransactions]
    calls rejects with a configuration error that names the address,
    before the rate limiter is asked and without any request. *)
Theorem ethereum_provider_without_key_cannot_fetch
        env (config : EthereumProvider.EthereumProviderConfig) :
  EthereumProvider.truthyString (EthereumProvider.etherscanApiKey config)
  = false ->
  EthereumProvider.truthyString (EthereumProvider.rpcUrl config) = true ->
  exists self,
    EthereumProvider.constructor env config = inr self
    /\ forall address options w,
        EthereumProvider.getTransactions env self address options w
        = (w, inl (ConfigurationError "Etherscan API key is required"
                                      [("address", address)])).
Proof.
  intros Hkey Hrpc. unfold EthereumProvider.constructor.
  rewrite Hkey, Hrpc. cbn [negb andb]. eexists. split; [reflexivity|].
  intros address options w. unfold EthereumProvider.getTransactions.
  cbn [EthereumProvider.apiKey]. rewrite Hkey. reflexivity.
Qed.

Definition rpcOnly : EthereumProvider.EthereumProviderConfig :=
  EthereumProvider.mkConfig None None (Some "https://rpc.example") None.

Definition oneDetail : SolanaTransactionDetails :=
  mkDetails 42 ["payer"] None false 5000 None None.

Definition firstSignature : SolanaSignatureInfo :=
  mkSignatureInfo "sigA" 42 false None (Some 1700000000%Z).

Definition secondSignature : SolanaSignatureInfo :=
  mkSignatureInfo "sigB" 43 false None None.

(** A node that knows two signatures and the details of the first only. *)
Definition partialNode : Env :=
  mkEnv (fun _ => None) (fun _ _ => None) ProviderFacts.unreachable
        (ProviderFacts.answering
           (mkRpcResponse (Some (Some [firstSignature; secondSignature]))
                          None))
        (fun made _ =>
           (Responded
              (mkFetchResponse 200 "OK" true None
                 (Some (mkRpcResponse
                          (Some (if (List.length made <=? 1)%nat
                                 then Some oneDetail else None))
                          None))),
            5%Z))
        (ret tt) (ret tt) noOpLogger.

Definition oneRecord : EtherscanTransaction :=
  mkEtherscanTransaction "100" "1700000000" "0xabc" "1" "0xfrom" "0xto"
                         "5" "21000" "1" "0" "1" "0x" "" "".

Definition onePage : EtherscanTransactionResponse :=
  mkEtherscanResponse "1" "OK" (ResultArray [oneRecord]).

Lemma ethereum_rejections_are_classified_witness :
  let out := EthereumProvider.getTransactions
               (ProviderFacts.indexerEnv ProviderFacts.unreachable)
               ProviderFacts.indexer ProviderFacts.someAddress noOptions
               world0 in
  snd out
  = inl (ProviderError
           "Failed to fetch Ethereum transactions: Network error: fetch failed"
           (Some "Etherscan") None)
  /\ ((fst out = world0
       /\ ProviderError
            "Failed to fetch Ethereum transactions: Network error: fetch failed"
            (Some "Etherscan") None
          = ConfigurationError "Etherscan API key is required"
                               [("address", ProviderFacts.someAddress)])
      \/ acquireEthereum (ProviderFacts.indexerEnv ProviderFacts.unreachable)
                         world0
         = (fst out,
            inl (ProviderError
                   "Failed to fetch Ethereum transactions: Network error: fetch failed"
                   (Some "Etherscan") None))
      \/ isProviderError
           (ProviderError
              "Failed to fetch Ethereum transactions: Network error: fetch failed"
              (Some "Etherscan") None) = true).
Proof.
  cbn zeta. split; [vm_compute; reflexivity|].
  apply (ethereum_rejections_are_classified
           (ProviderFacts.indexerEnv ProviderFacts.unreachable)
           ProviderFacts.indexer ProviderFacts.someAddress noOptions world0).
  vm_compute. reflexivity.
Defined.

Lemma solana_rejections_are_classified_witness :
  isProviderError
    (ProviderError
       "Failed to make Solana RPC request: Network error: fetch failed"
       (Some "Solana RPC") None) = true
  \/ exists w0 w1,
      acquireSolana (ProviderFacts.rpcEnv ProviderFacts.unreachable) w0
      = (w1, inl (ProviderError
                    "Failed to make Solana RPC request: Network error: fetch failed"
                    (Some "Solana RPC") None)).
Proof.
  apply (solana_rejections_are_classified
           (ProviderFacts.rpcEnv ProviderFacts.unreachable)
           ProviderFacts.node ProviderFacts.someKey noOptions world0
           (fst (SolanaProvider.getTransactions
                   (ProviderFacts.rpcEnv ProviderFacts.unreachable)
                   ProviderFacts.node ProviderFacts.someKey noOptions
                   world0))).
  vm_compute. reflexivity.
Defined.

Lemma ethereum_page_follows_the_records_witness :
  Forall2 (transformed (ProviderFacts.indexerEnv
                          (ProviderFacts.answering onePage)))
          (data (match snd (EthereumProvider.getTransactions
                              (ProviderFacts.indexerEnv
                                 (ProviderFacts.answering onePage))
                              ProviderFacts.indexer ProviderFacts.someAddress
                              noOptions world0) with
                 | inr r => r
                 | inl _ => mkResponse [] (mkMetadata None None None None
                                                      false)
                 end))
          [oneRecord].
Proof.
  eapply (ethereum_page_follows_the_records
            (ProviderFacts.indexerEnv (ProviderFacts.answering onePage))
            ProviderFacts.indexer ProviderFacts.someAddress noOptions "key"
            world0 world0).
  - reflexivity.
  - reflexivity.
  - reflexivity.
  - vm_compute. reflexivity.
  - reflexivity.
  - vm_compute. reflexivity.
Defined.

Lemma solana_page_drops_unresolved_details_witness :
  exists r,
    snd (SolanaProvider.getTransactions partialNode ProviderFacts.node
           ProviderFacts.someKey noOptions world0) = inr r
    /\ map sol_signature (data r) = ["sigA"].
Proof.
  destruct (solana_page_drops_unresolved_details
              partialNode ProviderFacts.node ProviderFacts.someKey noOptions
              world0
              (fst (SolanaProvider.getSignatures
                      partialNode ProviderFacts.node ProviderFacts.someKey
                      noOptions world0))
              firstSignature [secondSignature]
              (fst (SolanaProvider.getTransactionDetails
                      partialNode ProviderFacts.node ["sigA"; "sigB"]
                      (fst (SolanaProvider.getSignatures
                              partialNode ProviderFacts.node
                              ProviderFacts.someKey noOptions world0))))
              [Some oneDetail; None])
    as (_ & r & Hget & Hdata & _).
  - vm_compute. reflexivity.
  - vm_compute. reflexivity.
  - exists r. rewrite Hget. split; [reflexivity|].
    rewrite Hdata. reflexivity.
Defined.

Lemma ethereum_provider_without_key_cannot_fetch_witness :
  exists self,
    EthereumProvider.constructor
      (ProviderFacts.indexerEnv ProviderFacts.unreachable) rpcOnly
    = inr self
    /\ forall address options w,
        EthereumProvider.getTransactions
          (ProviderFacts.indexerEnv ProviderFacts.unreachable)
          self address options w
        = (w, inl (ConfigurationError "Etherscan API key is required"
                                      [("address", address)])).
Proof.
  apply (ethereum_provider_without_key_cannot_fetch _ rpcOnly);
    reflexivity.
Defined.

End ProviderMore.

(** ** The facade: cache and configuration errors *)

Module FacadeFacts.
Import JsString Types Effects Environment Validation EffectFacts.
Local Open Scope string_scope.

Lemma afterLog_fields logger level text w :
  now (afterLog logger level text w) = now w
  /\ queryCache (afterLog logger level text w) = queryCache w
  /\ fetched (afterLog logger level text w) = fetched w.
Proof.
  unfold afterLog, log. destruct (shouldLog logger level); repeat split.
Qed.

Lemma set_fields {T} (c c1 : MemoryCache.t T) now key v ttl r :
  MemoryCache.set now key v ttl c = (c1, r) ->
  MemoryCache.enabled c1 = MemoryCache.enabled c
  /\ MemoryCache.defaultTtl c1 = MemoryCache.defaultTtl c.
Proof.
  unfold MemoryCache.set. destruct (MemoryCache.enabled c) eqn:Hen;
    cbn [negb].
  - pose proof (MemoryCacheFacts.evictOldest_fields
                  (MemoryCache.evictExpired now c)) as (Hd & _ & He).
    pose proof (MemoryCacheFacts.evictExpired_fields now c) as (Hd' & _ & He').
    destruct (MemoryCache.evictOldest (MemoryCache.evictExpired now c))
      as [c2 [e|u]]; cbn [fst] in *; intros H; injection H as <- _;
      cbn [MemoryCache.enabled MemoryCache.defaultTtl MemoryCache.withCache];
      split; congruence.
  - intros H. injection H as <- _. split; [exact Hen|reflexivity].
Qed.

Lemma filter_idempotent {A} (p : A -> bool) (l : list A) :
  filter p (filter p l) = filter p l.
Proof.
  induction l as [|a l IH]; [reflexivity|]. cbn.
  destruct (p a) eqn:E; cbn; [rewrite E, IH|]; [reflexivity|exact IH].
Qed.

(** A hit leaves the store in a state in which the same lookup, at the
    same instant, hits again. *)
Lemma get_idempotent {T} (c : MemoryCache.t T) now key v :
  snd (MemoryCache.get now key c) = Some v ->
  snd (MemoryCache.get now key (fst (MemoryCache.get now key c))) = Some v.
Proof.
  unfold MemoryCache.get at 1 3.
  destruct (MemoryCache.enabled c) eqn:Hen; cbn [negb]; [|discriminate].
  destruct (MemoryCache.mapGet key
              (MemoryCache.cache (MemoryCache.evictExpired now c)))
    as [entry|] eqn:Hget; [|discriminate].
  destruct (MemoryCache.isExpired now entry) eqn:Hexp; [discriminate|].
  cbn [fst snd]. intros Hv. unfold MemoryCache.get.
  assert (Hsame : MemoryCache.evictExpired now (MemoryCache.evictExpired now c)
                  = MemoryCache.evictExpired now c).
  { unfold MemoryCache.evictExpired, MemoryCache.withCache.
    cbn [MemoryCache.cache MemoryCache.defaultTtl MemoryCache.maxSize
         MemoryCache.enabled].
    rewrite filter_idempotent. reflexivity. }
  replace (MemoryCache.enabled (MemoryCache.evictExpired now c)) with true
    by (symmetry; exact Hen).
  cbn [negb]. rewrite Hsame, Hget, Hexp. exact Hv.
Qed.

(** The facade answers from its cache, for either network. *)
Lemma facade_hit env sdk address options network response w :
  BlockchainSDK.hasCache sdk = true ->
  getNetworkFromAddress address = Some network ->
  snd (TransactionCache.get (now w) (networkName network) address options
                            (queryCache w)) = Some response ->
  exists w',
    BlockchainSDK.getTransactions env sdk address options w
    = (w', inr response)
    /\ fetched w' = fetched w.
Proof.
  intros Hcache Hnet Hhit. unfold BlockchainSDK.getTransactions.
  rewrite (bind_resolved _ _ _ _ _ (log_eq _ _ _ _)).
  rewrite Hnet, Hcache.
  set (w1 := afterLog (BlockchainSDK.logger sdk) Debug
                      "Fetching transactions" w).
  destruct (afterLog_fields (BlockchainSDK.logger sdk) Debug
                            "Fetching transactions" w) as (Hnow & Hqc & Hf).
  fold w1 in Hnow, Hqc, Hf.
  unfold bind at 1. unfold BlockchainSDK.cacheGet. rewrite Hnow, Hqc.
  destruct (TransactionCache.get (now w) (networkName network) address
                                 options (queryCache w)) as [c r].
  cbn [snd] in Hhit. subst r.
  rewrite (bind_resolved _ _ _ _ _ (log_eq _ _ _ _)).
  unfold ret. eexists. split; [reflexivity|].
  rewrite afterLog_fetched. cbn. exact Hf.
Qed.

(** X24.  With the query cache in use: after a call of the facade's
    [getTransactions] that resolved, leaving the cache enabled and with a
    default lifetime that is not negative, the same call made again at once
    resolves with the same response and makes no call of [fetch]. *)
Theorem repeated_query_is_answered_from_cache
        env sdk address options w w1 r :
  BlockchainSDK.hasCache sdk = true ->
  BlockchainSDK.getTransactions env sdk address options w = (w1, inr r) ->
  MemoryCache.enabled (queryCache w1) = true ->
  (0 <= MemoryCache.defaultTtl (queryCache w1))%Z ->
  exists w2,
    BlockchainSDK.getTransactions env sdk address options w1 = (w2, inr r)
    /\ fetched w2 = fetched w1.
Proof.
  intros Hcache Hfirst Hen Httl.
  destruct (getNetworkFromAddress address) as [network|] eqn:Hnet.
  2:{ exfalso. unfold BlockchainSDK.getTransactions in Hfirst.
      rewrite (bind_resolved _ _ _ _ _ (log_eq _ _ _ _)), Hnet in Hfirst.
      rewrite (bind_resolved _ _ _ _ _ (log_eq _ _ _ _)) in Hfirst.
      discriminate. }
  apply (facade_hit env sdk address options network r w1 Hcache Hnet).
  unfold BlockchainSDK.getTransactions in Hfirst.
  rewrite (bind_resolved _ _ _ _ _ (log_eq _ _ _ _)), Hnet, Hcache in Hfirst.
  set (w0 := afterLog (BlockchainSDK.logger sdk) Debug
                      "Fetching transactions" w) in Hfirst.
  unfold bind at 1 in Hfirst. unfold BlockchainSDK.cacheGet at 1 in Hfirst.
  destruct (TransactionCache.get (now w0) (networkName network) address
                                 options (queryCache w0))
    as [c0 [hit|]] eqn:Hget.
  - rewrite (bind_resolved _ _ _ _ _ (log_eq _ _ _ _)) in Hfirst.
    unfold ret in Hfirst. injection Hfirst as <- <-.
    destruct (afterLog_fields (BlockchainSDK.logger sdk) Debug "Cache hit"
                (BlockchainSDK.withQueryCache c0 w0)) as (-> & -> & _).
    cbn [BlockchainSDK.withQueryCache now queryCache].
    replace c0 with (fst (TransactionCache.get (now w0) (networkName network)
                            address options (queryCache w0)))
      by (rewrite Hget; reflexivity).
    unfold TransactionCache.get. apply get_idempotent.
    fold (TransactionCache.get (now w0) (networkName network) address
                               options (queryCache w0)).
    rewrite Hget. reflexivity.
  - set (answer := match network with
                   | ETHEREUM_MAINNET => _
                   | SOLANA_MAINNET => _
                   end) in Hfirst.
    unfold bind at 1 in Hfirst.
    destruct (answer (BlockchainSDK.withQueryCache c0 w0))
      as [w3 [e|result]]; [discriminate|].
    unfold bind, BlockchainSDK.cacheSet in Hfirst.
    destruct (TransactionCache.set (now w3) (networkName network) address
                                   result options None (queryCache w3))
      as [c' [e|[]]] eqn:Hset; [discriminate|].
    rewrite log_eq in Hfirst. unfold ret in Hfirst.
    injection Hfirst as <- <-.
    destruct (afterLog_fields (BlockchainSDK.logger sdk) Debug
                "Cached transaction response"
                (BlockchainSDK.withQueryCache c' w3)) as (Hn & Hq & _).
    rewrite Hn, Hq in *.
    cbn [BlockchainSDK.withQueryCache now queryCache] in *.
    unfold TransactionCache.set in Hset.
    destruct (set_fields _ _ _ _ _ _ _ Hset) as (He & Hd).
    unfold TransactionCache.get.
    apply (CacheFacts.get_after_set _ _ _ _ _ _ _ Hset).
    + congruence.
    + cbn [orNumber]. rewrite <- Hd. lia.
Qed.

(** The context key under which each network's configuration error
    reports the address. *)
Definition addressField (network : Network) : string :=
  match network with
  | ETHEREUM_MAINNET => "address"
  | SOLANA_MAINNET => "publicKey"
  end.

Definition adapterMissing (sdk : BlockchainSDK.t) (network : Network) : Prop :=
  match network with
  | ETHEREUM_MAINNET => BlockchainSDK.ethereumAdapter sdk = None
  | SOLANA_MAINNET => BlockchainSDK.solanaAdapter sdk = None
  end.

(** X25.  A well-formed address of a network the SDK was not configured
    for: unless the cache holds an answer, the facade's [getTransactions]
    rejects with a configuration error whose context carries the address,
    makes no call of [fetch] and stores nothing for the query (with a cache,
    the same lookup still misses afterwards). *)
Theorem unconfigured_network_is_a_configuration_error
        env sdk address options network w :
  getNetworkFromAddress address = Some network ->
  adapterMissing sdk network ->
  (BlockchainSDK.hasCache sdk = true ->
   snd (TransactionCache.get (now w) (networkName network) address options
                             (queryCache w)) = None) ->
  exists w' text,
    BlockchainSDK.getTransactions env sdk address options w
    = (w', inl (ConfigurationError text [(addressField network, address)]))
    /\ fetched w' = fetched w.
Proof.
  intros Hnet Hmissing Hmiss. unfold BlockchainSDK.getTransactions.
  rewrite (bind_resolved _ _ _ _ _ (log_eq _ _ _ _)), Hnet.
  set (w0 := afterLog (BlockchainSDK.logger sdk) Debug
                      "Fetching transactions" w).
  destruct (afterLog_fields (BlockchainSDK.logger sdk) Debug
                            "Fetching transactions" w) as (Hnow & Hqc & Hf).
  fold w0 in Hnow, Hqc, Hf.
  assert (Hcached : exists w1,
             (if BlockchainSDK.hasCache sdk
              then BlockchainSDK.cacheGet network address options
              else ret None) w0 = (w1, inr None)
             /\ fetched w1 = fetched w).
  { destruct (BlockchainSDK.hasCache sdk).
    - unfold BlockchainSDK.cacheGet. rewrite Hnow, Hqc.
      specialize (Hmiss eq_refl).
      destruct (TransactionCache.get (now w) (networkName network) address
                                     options (queryCache w)) as [c r].
      cbn [snd] in Hmiss. subst r. eexists. split; [reflexivity|exact Hf].
    - unfold ret. eexists. split; [reflexivity|exact Hf]. }
  destruct Hcached as (w1 & Hcached & Hf1).
  rewrite (bind_resolved _ _ _ _ _ Hcached).
  destruct network; cbn [adapterMissing addressField] in *.
  - unfold BlockchainSDK.getEthereumTransactions. rewrite Hmissing.
    unfold bind at 1. unfold bind at 1.
    rewrite (bind_resolved _ _ _ _ _ (log_eq _ _ _ _)). unfold throw.
    eexists. eexists. split; [reflexivity|].
    rewrite afterLog_fetched. exact Hf1.
  - unfold BlockchainSDK.getSolanaTransactions. rewrite Hmissing.
    unfold bind at 1. unfold bind at 1.
    rewrite (bind_resolved _ _ _ _ _ (log_eq _ _ _ _)). unfold throw.
    eexists. eexists. split; [reflexivity|].
    rewrite afterLog_fetched. exact Hf1.
Qed.

Definition cachingSDK : BlockchainSDK.t :=
  BlockchainSDK.mkSDK (Some ProviderFacts.indexer) None noOpLogger true.

Definition firstCall
  : World * (SDKError + PaginatedResponse Transaction) :=
  BlockchainSDK.getTransactions
    (ProviderFacts.indexerEnv (ProviderFacts.answering ProviderFacts.emptyPage))
    cachingSDK ProviderFacts.someAddress None world0.

Lemma repeated_query_is_answered_from_cache_witness :
  exists w2,
    BlockchainSDK.getTransactions
      (ProviderFacts.indexerEnv
         (ProviderFacts.answering ProviderFacts.emptyPage))
      cachingSDK ProviderFacts.someAddress None (fst firstCall)
    = (w2, inr (mkResponse []
                  (mkMetadata None (Some 1%Z) (Some 1%Z) None false)))
    /\ fetched w2 = fetched (fst firstCall).
Proof.
  apply (repeated_query_is_answered_from_cache
           (ProviderFacts.indexerEnv
              (ProviderFacts.answering ProviderFacts.emptyPage))
           cachingSDK ProviderFacts.someAddress None world0).
  - reflexivity.
  - vm_compute. reflexivity.
  - vm_compute. reflexivity.
  - vm_compute. discriminate.
Defined.

Lemma unconfigured_network_is_a_configuration_error_witness :
  exists w' text,
    BlockchainSDK.getTransactions
      (ProviderFacts.indexerEnv ProviderFacts.unreachable)
      cachingSDK ProviderFacts.someKey None world0
    = (w', inl (ConfigurationError text
                  [(addressField SOLANA_MAINNET, ProviderFacts.someKey)]))
    /\ fetched w' = fetched world0.
Proof.
  apply (unconfigured_network_is_a_configuration_error
           (ProviderFacts.indexerEnv ProviderFacts.unreachable)
           cachingSDK ProviderFacts.someKey None SOLANA_MAINNET world0).
  - vm_compute. reflexivity.
  - reflexivity.
  - intros _. vm_compute. reflexivity.
Defined.

End FacadeFacts.

(** ** Configuration and construction of the facade *)

Module ConfigFacts.
Import JsString Types Effects Environment EffectFacts Config.
Local Open Scope string_scope.

(** What [validateConfig] asks of each network's entry. *)
Definition ethereumAcceptable (e : EthereumProvider.EthereumProviderConfig)
  : Prop :=
  (EthereumProvider.truthyString (EthereumProvider.etherscanApiKey e) = true
   \/ EthereumProvider.truthyString (EthereumProvider.rpcUrl e) = true)
  /\ forall t, EthereumProvider.timeout e = Some t -> (0 <= t)%Z.

Definition solanaAcceptable (s : SolanaProvider.SolanaProviderConfig)
  : Prop :=
  nonEmpty (SolanaProvider.rpcUrl s) = true
  /\ forall t, SolanaProvider.timeout s = Some t -> (0 <= t)%Z.

Lemma negativeTimeout_false timeout :
  negativeTimeout timeout = false
  <-> forall t, timeout = Some t -> (0 <= t)%Z.
Proof.
  unfold negativeTimeout. destruct timeout as [t|].
  - split.
    + intros H t' E. injection E as <-.
      destruct (Z.eqb_spec t 0); [lia|]. cbn in H.
      apply Z.ltb_ge in H. exact H.
    + intros H. specialize (H t eq_refl).
      destruct (Z.eqb_spec t 0); [reflexivity|]. cbn. apply Z.ltb_ge, H.
  - split; [discriminate|reflexivity].
Qed.

Lemma negativeTimeout_default timeout :
  negativeTimeout (Some (nullish timeout DEFAULT_TIMEOUT))
  = negativeTimeout timeout.
Proof. destruct timeout; reflexivity. Qed.

Lemma ethereum_errors_nil e :
  ((if negb (EthereumProvider.truthyString
              (EthereumProvider.etherscanApiKey e))
      && negb (EthereumProvider.truthyString (EthereumProvider.rpcUrl e))
   then ["Ethereum configuration requires either etherscanApiKey or rpcUrl to be provided"]
   else [])
  ++ (if negativeTimeout (EthereumProvider.timeout e)
      then ["Ethereum timeout must be a positive number"]
      else []))%list = []
  <-> ethereumAcceptable e.
Proof.
  unfold ethereumAcceptable. rewrite <- negativeTimeout_false.
  destruct (EthereumProvider.truthyString
              (EthereumProvider.etherscanApiKey e));
    destruct (EthereumProvider.truthyString (EthereumProvider.rpcUrl e));
    destruct (negativeTimeout (EthereumProvider.timeout e));
    cbn; intuition discriminate.
Qed.

Lemma solana_errors_nil s :
  ((if negb (nonEmpty (SolanaProvider.rpcUrl s))
   then ["Solana configuration requires rpcUrl to be provided"]
   else [])
  ++ (if negativeTimeout (SolanaProvider.timeout s)
      then ["Solana timeout must be a positive number"]
      else []))%list = []
  <-> solanaAcceptable s.
Proof.
  unfold solanaAcceptable. rewrite <- negativeTimeout_false.
  destruct (nonEmpty (SolanaProvider.rpcUrl s));
    destruct (negativeTimeout (SolanaProvider.timeout s));
    cbn; intuition discriminate.
Qed.

Lemma validationErrors_nil config :
  validationErrors (mergeWithDefaults config) = []
  <-> (forall e, ethereum config = Some e -> ethereumAcceptable e)
      /\ (forall s, solana config = Some s -> solanaAcceptable s).
Proof.
  unfold validationErrors, mergeWithDefaults. cbn [ethereum solana].
  destruct (ethereum config) as [e|]; destruct (solana config) as [s|];
    cbn [EthereumProvider.etherscanApiKey EthereumProvider.rpcUrl
         EthereumProvider.timeout SolanaProvider.rpcUrl
         SolanaProvider.timeout];
    rewrite ?negativeTimeout_default.
  - split.
    + intros H. apply app_eq_nil in H as [He Hs].
      apply ethereum_errors_nil in He. apply solana_errors_nil in Hs.
      split; intros x E; injection E as <-; assumption.
    + intros [He Hs]. specialize (He e eq_refl). specialize (Hs s eq_refl).
      apply ethereum_errors_nil in He. apply solana_errors_nil in Hs.
      rewrite He, Hs. reflexivity.
  - rewrite app_nil_r. rewrite ethereum_errors_nil. split.
    + intros He. split; [intros x E; injection E as <-; exact He|discriminate].
    + intros [He _]. exact (He e eq_refl).
  - rewrite app_nil_l. rewrite solana_errors_nil. split.
    + intros Hs. split; [discriminate|intros x E; injection E as <-; exact Hs].
    + intros [_ Hs]. exact (Hs s eq_refl).
  - split; [intros _; split; discriminate|reflexivity].
Qed.

(** X26.  [new ConfigManager(config)] succeeds exactly when each network
    entry that is present is acceptable: an Ethereum entry names an API key
    or an RPC URL (non-empty), a Solana entry names a non-empty RPC URL,
    and a timeout that is given is not negative (a timeout of 0 passes).
    Otherwise it throws a configuration error.  On success the entries
    carry their defaults: timeout 30000, the public indexer URL, commitment
    "confirmed", logging off at level info. *)
Theorem ConfigManager_accepts_exactly_the_acceptable (config : SDKConfig) :
  ((exists manager, ConfigManager config = inr manager)
   <-> (forall e, ethereum config = Some e -> ethereumAcceptable e)
       /\ (forall s, solana config = Some s -> solanaAcceptable s))
  /\ (forall error, ConfigManager config = inl error ->
        exists text, error = ConfigurationError text [])
  /\ (forall manager, ConfigManager config = inr manager ->
        getLoggingConfig manager
        = (nullish (enableLogging config) false,
           nullish (logLevel config) Info)
        /\ (forall e, ethereum manager = Some e ->
              exists e0, ethereum config = Some e0
                /\ EthereumProvider.timeout e
                   = Some (nullish (EthereumProvider.timeout e0) 30000%Z)
                /\ EthereumProvider.etherscanApiUrl e
                   = Some (nullish (EthereumProvider.etherscanApiUrl e0)
                                   "https://api.etherscan.io/v2/api")
                /\ EthereumProvider.etherscanApiKey e
                   = EthereumProvider.etherscanApiKey e0)
        /\ (forall s, solana manager = Some s ->
              exists s0, solana config = Some s0
                /\ SolanaProvider.timeout s
                   = Some (nullish (SolanaProvider.timeout s0) 30000%Z)
                /\ SolanaProvider.commitment s
                   = Some (nullish (SolanaProvider.commitment s0)
                                   "confirmed")
                /\ SolanaProvider.rpcUrl s = SolanaProvider.rpcUrl s0)).
Proof.
  unfold ConfigManager. rewrite <- validationErrors_nil.
  destruct (validationErrors (mergeWithDefaults config)) as [|x errors].
  - split; [split; [reflexivity|eauto]|]. split; [discriminate|].
    intros manager H. injection H as <-. split; [reflexivity|].
    unfold mergeWithDefaults. cbn [ethereum solana]. split.
    + intros e H. destruct (ethereum config) as [e0|]; [|discriminate].
      injection H as <-. exists e0. repeat split.
    + intros s H. destruct (solana config) as [s0|]; [|discriminate].
      injection H as <-. exists s0. repeat split.
  - split; [split; [intros [m H]; discriminate|discriminate]|].
    split; [|discriminate]. intros error H. injection H as <-. eauto.
Qed.

(** The constructors of the providers ask nothing that [validateConfig]
    has not asked already. *)
Lemma validated_providers_construct env config manager :
  ConfigManager config = inr manager ->
  (forall e, ethereum manager = Some e ->
             exists p, EthereumProvider.constructor env e = inr p)
  /\ (forall s, solana manager = Some s ->
                exists p, SolanaProvider.constructor env s = inr p).
Proof.
  unfold ConfigManager.
  destruct (validationErrors (mergeWithDefaults config)) as [|x errors] eqn:Hv;
    [|discriminate].
  intros H. injection H as <-. apply validationErrors_nil in Hv as [He Hs].
  unfold mergeWithDefaults. cbn [ethereum solana]. split.
  - intros e H. destruct (ethereum config) as [e0|] eqn:E0; [|discriminate].
    injection H as <-. destruct (He e0 eq_refl) as [Hk _].
    unfold EthereumProvider.constructor.
    cbn [EthereumProvider.etherscanApiKey EthereumProvider.rpcUrl].
    destruct (EthereumProvider.truthyString
                (EthereumProvider.etherscanApiKey e0));
      destruct (EthereumProvider.truthyString (EthereumProvider.rpcUrl e0));
      cbn [negb andb]; eauto.
    destruct Hk; discriminate.
  - intros s H. destruct (solana config) as [s0|] eqn:E0; [|discriminate].
    injection H as <-. destruct (Hs s0 eq_refl) as [Hr _].
    unfold SolanaProvider.constructor. cbn [SolanaProvider.rpcUrl].
    rewrite Hr. cbn [negb]. eauto.
Qed.

(** X27.  [new BlockchainSDK(config)] throws exactly when the
    configuration manager does, with its error and before anything else
    happens.  Otherwise it returns an instance that has an adapter for
    exactly the configured networks and a cache exactly when
    [cache.enabled] is set; constructing it makes no call of [fetch]. *)
Theorem newSDK_fails_only_on_invalid_configuration
        (env : Env) (config : SDKConfig) (w : World) :
  match ConfigManager config with
  | inl error => newSDK env config w = (w, inl error)
  | inr manager =>
      exists w' sdk,
        newSDK env config w = (w', inr (sdk, manager))
        /\ fetched w' = fetched w
        /\ (BlockchainSDK.ethereumAdapter sdk <> None
            <-> isNetworkConfigured manager ETHEREUM_MAINNET = true)
        /\ (BlockchainSDK.solanaAdapter sdk <> None
            <-> isNetworkConfigured manager SOLANA_MAINNET = true)
        /\ BlockchainSDK.hasCache sdk
           = match cache config with
             | Some c => cache_enabled c
             | None => false
             end
  end.
Proof.
  destruct (ConfigManager config) as [error|manager] eqn:Hm.
  - unfold newSDK. rewrite Hm. reflexivity.
  - destruct (validated_providers_construct env config manager Hm)
      as [He Hs].
    unfold newSDK. rewrite Hm. unfold lift at 1. unfold bind at 1.
    set (logger := createLogger _ _).
    assert (Hcache : exists w1,
               (match cache config with
                | Some c =>
                    if cache_enabled c then
                      bind (fun w0 =>
                              (BlockchainSDK.withQueryCache
                                 (TransactionCache.constructor
                                    (MemoryCache.mkCacheConfig
                                       (cache_ttl c) (cache_maxSize c)
                                       (Some (cache_enabled c)))) w0,
                               inr tt))
                           (fun _ =>
                              bind (log logger Debug
                                        "Transaction cache enabled")
                                   (fun _ => ret true))
                    else ret false
                | None => ret false
                end) w
               = (w1, inr match cache config with
                          | Some c => cache_enabled c
                          | None => false
                          end)
               /\ fetched w1 = fetched w).
    { destruct (cache config) as [c|]; [destruct (cache_enabled c)|].
      - unfold bind at 1.
        rewrite (bind_resolved _ _ _ _ _ (log_eq _ _ _ _)).
        unfold ret. eexists. split; [reflexivity|].
        rewrite afterLog_fetched. reflexivity.
      - unfold ret. eauto.
      - unfold ret. eauto. }
    destruct Hcache as (w1 & Hcache & Hf).
    rewrite (bind_resolved _ _ _ _ _ Hcache).
    unfold getEthereumConfig, getSolanaConfig, isNetworkConfigured.
    destruct (ethereum manager) as [e|];
      [destruct (He e eq_refl) as [pe Hpe]; rewrite Hpe|];
      (destruct (solana manager) as [s|];
       [destruct (Hs s eq_refl) as [ps Hps]; rewrite Hps|]);
      unfold bind, lift, ret; eexists; eexists;
      (split; [reflexivity|]);
      cbn [BlockchainSDK.ethereumAdapter BlockchainSDK.solanaAdapter
           BlockchainSDK.hasCache];
      repeat split; try exact Hf; try discriminate; try congruence;
      intros Hn; exfalso; apply Hn; reflexivity.
Qed.

End ConfigFacts.

(** ** The request queue *)

Module RequestQueueFacts.
Import RequestQueue Sequences.

(** A task can settle only while it is running. *)
Definition possible (tn : Turn) (q : t) : bool :=
  match tn with
  | Settle => 0 <? running q
  | _ => true
  end.

Fixpoint feasible (tns : list Turn) (q : t) : bool :=
  match tns with
  | [] => true
  | tn :: rest => possible tn q && feasible rest (fst (turn tn q))
  end.

Definition isFull (e : Event) : bool :=
  match e with Full _ => true | _ => false end.

(** The task a turn adds to the queue, if any. *)
Definition accepted (tn : Turn) (q : t) : list nat :=
  match tn with
  | Enqueue who prio =>
      if existsb isFull (snd (enqueue who prio q)) then [] else [who]
  | _ => []
  end.

Fixpoint arrivals (tns : list Turn) (q : t) : list nat :=
  match tns with
  | [] => []
  | tn :: rest => accepted tn q ++ arrivals rest (fst (turn tn q))
  end.

Definition started (events : list Event) : list nat :=
  flat_map (fun e => match e with Started who => [who] | _ => [] end) events.

Definition waiting (q : t) : list nat := map task (queue q).

Definition isClear (tn : Turn) : bool :=
  match tn with Clear => true | _ => false end.

Definition effective (item : QueueItem) : Z := orNumber (itemPriority item) 0.

Definition prioritised (tn : Turn) : Prop :=
  match tn with
  | Enqueue _ None => False
  | _ => True
  end.

Definition descending (x y : QueueItem) : Prop :=
  (effective y <= effective x)%Z.

(** The invariant of the queue. *)
Definition steady (q : t) : Prop :=
  (1 <= concurrency q)%Z
  /\ (0 <= running q <= concurrency q)%Z
  /\ (queue q <> [] -> running q = concurrency q)
  /\ (forall b, maxSize q = Some b ->
                (Z.of_nat (List.length (queue q)) <= Z.max b 0)%Z).

Lemma length_insertByPriority item p l :
  List.length (insertByPriority item p l) = S (List.length l).
Proof.
  induction l as [|x l IH]; cbn; [reflexivity|].
  destruct (_ <? p)%Z; cbn; [reflexivity|]. rewrite IH. reflexivity.
Qed.

(** What [process] does to a queue about to be steady. *)
Lemma process_steady q :
  (1 <= concurrency q)%Z ->
  (0 <= running q <= concurrency q)%Z ->
  ((2 <= List.length (queue q))%nat -> (concurrency q - 1 <= running q)%Z) ->
  (forall b, maxSize q = Some b ->
             (Z.of_nat (List.length (queue q)) <= Z.max b 0)%Z) ->
  steady (fst (process q)).
Proof.
  intros Hc Hr Hq Hb. unfold process, steady.
  destruct (Z.leb_spec (concurrency q) (running q)) as [Hfull|Hfree];
    cbn [orb].
  - cbn [fst]. repeat split; try lia. exact Hb.
  - destruct (queue q) as [|item rest] eqn:E; cbn [List.length Nat.eqb fst].
    + repeat split; try lia; [congruence|]. rewrite E. exact Hb.
    + cbn [concurrency running queue maxSize]. repeat split; try lia.
      * intros Hrest. destruct rest as [|y rest]; [congruence|].
        cbn [List.length] in Hq. lia.
      * intros b Eb. specialize (Hb b Eb). cbn [List.length] in Hb. lia.
Qed.

Lemma turn_steady tn q :
  steady q -> possible tn q = true -> steady (fst (turn tn q)).
Proof.
  intros (Hc & Hr & Hq & Hb) Hp. destruct tn as [who prio| |]; cbn [turn].
  - unfold enqueue.
    destruct (match maxSize q with
              | Some bound => (bound <=? Z.of_nat (List.length (queue q)))%Z
              | None => false
              end) eqn:Hfull;
      [cbn [fst]; exact (conj Hc (conj Hr (conj Hq Hb)))|].
    set (queue' := match priority q, prio with
                   | true, Some p => insertByPriority (mkItem who prio) p
                                                      (queue q)
                   | _, _ => queue q ++ [mkItem who prio]
                   end).
    assert (Hlen : List.length queue' = S (List.length (queue q))).
    { subst queue'. destruct (priority q); [destruct prio|];
        rewrite ?length_insertByPriority, ?length_app; cbn; lia. }
    apply process_steady; cbn [concurrency running queue maxSize];
      try assumption.
    + rewrite Hlen. intros H2.
      destruct (queue q) as [|x l]; [cbn in H2; lia|].
      rewrite Hq by discriminate. lia.
    + intros b Eb. rewrite Eb in Hfull. apply Z.leb_gt in Hfull.
      rewrite Hlen. lia.
  - unfold settle. cbn [possible] in Hp. apply Z.ltb_lt in Hp.
    apply process_steady; cbn [concurrency running queue maxSize];
      try assumption; try lia.
    intros H2. destruct (queue q) as [|x l]; [cbn in H2; lia|].
    rewrite Hq by discriminate. lia.
  - unfold clear. cbn [fst]. unfold steady.
    cbn [concurrency running queue maxSize List.length].
    split; [exact Hc|]. split; [exact Hr|].
    split; [congruence|]. intros b _. lia.
Qed.

Lemma turns_cons tn rest q :
  turns (tn :: rest) q
  = (fst (turns rest (fst (turn tn q))),
     snd (turn tn q) ++ snd (turns rest (fst (turn tn q)))).
Proof.
  cbn [turns]. destruct (turn tn q) as [q1 ev1]. cbn [fst snd].
  destruct (turns rest q1) as [q2 ev2]. reflexivity.
Qed.

Lemma started_app a b : started (a ++ b) = started a ++ started b.
Proof. unfold started. apply flat_map_app. Qed.

Lemma process_order q :
  started (snd (process q)) ++ waiting (fst (process q)) = waiting q.
Proof.
  unfold process, waiting.
  destruct ((concurrency q <=? running q)%Z
            || (List.length (queue q) =? 0)%nat); [reflexivity|].
  destruct (queue q) as [|item rest] eqn:E; cbn [fst snd queue];
    [rewrite E|]; reflexivity.
Qed.

(** One turn of a queue without priorities, other than [clear]: the tasks
    started and the tasks left waiting are the tasks that waited, then the
    one that arrived. *)
Lemma turn_order tn q :
  priority q = false -> isClear tn = false ->
  started (snd (turn tn q)) ++ waiting (fst (turn tn q))
  = waiting q ++ accepted tn q.
Proof.
  intros Hp Hc. destruct tn as [who prio| |]; [| |discriminate];
    cbn [turn accepted].
  - unfold enqueue.
    destruct (match maxSize q with
              | Some bound => (bound <=? Z.of_nat (List.length (queue q)))%Z
              | None => false
              end); [cbn; rewrite app_nil_r; reflexivity|].
    rewrite Hp. rewrite process_order.
    assert (Hnone : existsb isFull
                      (snd (process
                              (mkQueue (maxSize q) (concurrency q) false
                                       (queue q ++ [mkItem who prio])
                                       (running q)))) = false).
    { unfold process.
      destruct ((_ <=? _)%Z || (_ =? 0)%nat); [reflexivity|].
      cbn [queue]. destruct (queue q ++ [mkItem who prio]); reflexivity. }
    rewrite Hnone. unfold waiting. cbn [queue]. rewrite map_app. reflexivity.
  - unfold settle. rewrite process_order, app_nil_r. reflexivity.
Qed.

Lemma turn_priority tn q : priority (fst (turn tn q)) = priority q.
Proof.
  assert (Hproc : forall q0, priority (fst (process q0)) = priority q0).
  { intros q0. unfold process.
    destruct ((_ <=? _)%Z || (_ =? 0)%nat); [reflexivity|].
    destruct (queue q0); reflexivity. }
  destruct tn as [who prio| |]; cbn [turn].
  - unfold enqueue. destruct (match maxSize q with Some _ => _ | None => _ end);
      [reflexivity|]. rewrite Hproc. reflexivity.
  - unfold settle. rewrite Hproc. reflexivity.
  - reflexivity.
Qed.

Lemma turns_order tns : forall q,
  priority q = false ->
  subsequence (started (snd (turns tns q)) ++ waiting (fst (turns tns q)))
              (waiting q ++ arrivals tns q)
  /\ (forallb (fun tn => negb (isClear tn)) tns = true ->
      started (snd (turns tns q)) ++ waiting (fst (turns tns q))
      = waiting q ++ arrivals tns q).
Proof.
  induction tns as [|tn rest IH]; intros q Hp.
  - cbn. rewrite app_nil_r. split; [apply sub_refl|reflexivity].
  - rewrite turns_cons. cbn [fst snd arrivals]. rewrite started_app.
    destruct (IH (fst (turn tn q))) as [Hsub Heq];
      [rewrite turn_priority; exact Hp|].
    rewrite <- app_assoc. split.
    + destruct (isClear tn) eqn:Hc.
      * destruct tn; try discriminate. cbn [turn clear fst snd accepted].
        assert (Hs : started (map (fun item => Cleared (task item)) (queue q))
                     = []).
        { unfold started. induction (queue q) as [|x l IHl];
            [reflexivity|exact IHl]. }
        rewrite Hs. cbn [app turn clear fst] in Hsub |- *.
        unfold waiting at 1 in Hsub. cbn [queue map app] in Hsub.
        change (subsequence
                  ([] ++ (started (snd (turns rest (fst (clear q))))
                          ++ waiting (fst (turns rest (fst (clear q))))))
                  (waiting q ++ arrivals rest (fst (clear q)))).
        apply sub_app; [apply sub_nil_l|exact Hsub].
      * rewrite app_assoc. rewrite (app_assoc (waiting q)).
        rewrite <- (turn_order tn q Hp Hc).
        rewrite <- !app_assoc. apply sub_app; [apply sub_refl|exact Hsub].
    + cbn [forallb]. intros H. apply andb_true_iff in H as [Hc Hrest].
      apply negb_true_iff in Hc. rewrite (Heq Hrest).
      rewrite app_assoc, (turn_order tn q Hp Hc), <- app_assoc. reflexivity.
Qed.

Lemma insertByPriority_sorted who p l :
  StronglySorted descending l ->
  StronglySorted descending (insertByPriority (mkItem who (Some p)) p l).
Proof.
  assert (Heff : effective (mkItem who (Some p)) = p).
  { unfold effective, orNumber. cbn. destruct (Z.eqb_spec p 0); congruence. }
  induction l as [|x l IH]; cbn; intros Hs.
  - constructor; constructor.
  - inversion Hs as [|? ? Hs' Hall]; subst.
    fold (effective x). destruct (Z.ltb_spec (effective x) p) as [Hlt|Hge].
    + constructor; [exact Hs|].
      constructor; [unfold descending; rewrite Heff; lia|].
      eapply Forall_impl; [|exact Hall]. unfold descending.
      intros y Hy. rewrite Heff. lia.
    + constructor; [apply IH, Hs'|].
      assert (Hin : forall y, In y (insertByPriority (mkItem who (Some p)) p l)
                              -> y = mkItem who (Some p) \/ In y l).
      { clear. induction l as [|z l IHl]; cbn.
        - intros y [<-|[]]. left. reflexivity.
        - intros y. destruct (_ <? p)%Z; cbn.
          + intros [<-|[<-|H]]; auto.
          + intros [<-|H]; [auto|]. destruct (IHl y H); auto. }
      apply Forall_forall. intros y Hy. destruct (Hin y Hy) as [->|Hy'].
      * unfold descending. rewrite Heff. exact Hge.
      * rewrite Forall_forall in Hall. apply Hall, Hy'.
Qed.

Lemma process_sorted q :
  StronglySorted descending (queue q) ->
  StronglySorted descending (queue (fst (process q))).
Proof.
  intros Hs. unfold process.
  destruct ((_ <=? _)%Z || (_ =? 0)%nat); [exact Hs|].
  destruct (queue q) as [|item rest] eqn:E; cbn [fst queue];
    [rewrite E; constructor|].
  inversion Hs; assumption.
Qed.

Lemma turn_sorted tn q :
  priority q = true -> prioritised tn ->
  StronglySorted descending (queue q) ->
  StronglySorted descending (queue (fst (turn tn q))).
Proof.
  intros Hp Htn Hs. destruct tn as [who [p|]| |]; cbn [turn];
    [| contradiction | |].
  - unfold enqueue.
    destruct (match maxSize q with Some _ => _ | None => _ end);
      [exact Hs|].
    rewrite Hp. apply process_sorted. cbn [queue].
    apply insertByPriority_sorted, Hs.
  - unfold settle. apply process_sorted. exact Hs.
  - cbn. constructor.
Qed.

(** X28.  A queue built with a concurrency that is not negative (0 means
    1), through any sequence of [enqueue] calls, settlements of running
    tasks and [clear] calls: the number of running tasks stays between 0
    and the concurrency; no task waits while a slot is free; and the number
    of waiting tasks never exceeds [maxSize]. *)
Theorem queue_keeps_its_slots_busy_and_bounded
        (config : RequestQueueConfig) (tns : list Turn) :
  (forall c, cfg_concurrency config = Some c -> (0 <= c)%Z) ->
  feasible tns (constructor config) = true ->
  let q := fst (turns tns (constructor config)) in
  (0 <= getRunning q <= concurrency q)%Z
  /\ (getSize q <> 0%Z -> getRunning q = concurrency q)
  /\ (forall b, maxSize q = Some b -> (getSize q <= Z.max b 0)%Z).
Proof.
  intros Hc Hf.
  assert (H0 : steady (constructor config)).
  { unfold steady, constructor. cbn [concurrency running queue maxSize].
    assert (1 <= orNumber (cfg_concurrency config) 1)%Z.
    { unfold orNumber. destruct (cfg_concurrency config) as [c|]; [|lia].
      specialize (Hc c eq_refl). destruct (Z.eqb_spec c 0); lia. }
    repeat split; try lia; [congruence|]. intros b _. cbn. lia. }
  cbn zeta. revert Hf H0. generalize (constructor config).
  induction tns as [|tn rest IH]; intros q Hf Hq.
  - cbn [turns fst]. destruct Hq as (_ & Hr & Hw & Hb).
    unfold getRunning, getSize. repeat split; try lia; [|exact Hb].
    intros Hn. apply Hw. destruct (queue q); [cbn in Hn; lia|discriminate].
  - rewrite turns_cons. cbn [fst]. cbn [feasible] in Hf.
    apply andb_true_iff in Hf as [Hp Hrest].
    apply IH; [exact Hrest|apply turn_steady; assumption].
Qed.

(** X29.  A queue without priority mode is first in, first out: the tasks
    started so far, followed by the tasks still waiting, are the accepted
    tasks in the order of their arrival, less those a [clear] rejected; and
    without a [clear], they are exactly the accepted tasks in the order of
    their arrival. *)
Theorem queue_without_priorities_is_fifo
        (config : RequestQueueConfig) (tns : list Turn) :
  cfg_priority config <> Some true ->
  let q := fst (turns tns (constructor config)) in
  let events := snd (turns tns (constructor config)) in
  subsequence (started events ++ waiting q)
              (arrivals tns (constructor config))
  /\ (forallb (fun tn => negb (isClear tn)) tns = true ->
      started events ++ waiting q = arrivals tns (constructor config)).
Proof.
  intros Hp. cbn zeta.
  assert (Hq : priority (constructor config) = false).
  { unfold constructor. cbn [priority].
    destruct (cfg_priority config) as [[|]|]; congruence. }
  exact (turns_order tns (constructor config) Hq).
Qed.

(** X30.  In priority mode, when every task is enqueued with a priority,
    the waiting tasks are always in descending order of priority: the next
    task to start is one of the highest priority. *)
Theorem priority_queue_is_sorted
        (config : RequestQueueConfig) (tns : list Turn) :
  cfg_priority config = Some true ->
  Forall prioritised tns ->
  StronglySorted descending (queue (fst (turns tns (constructor config)))).
Proof.
  intros Hp Hall.
  assert (Hq : priority (constructor config) = true)
    by (unfold constructor; cbn [priority]; rewrite Hp; reflexivity).
  assert (Hs : StronglySorted descending (queue (constructor config)))
    by constructor.
  revert Hq Hs. generalize (constructor config).
  induction Hall as [|tn rest Htn Hrest IH]; intros q Hq Hs; [exact Hs|].
  rewrite turns_cons. cbn [fst]. apply IH.
  - rewrite turn_priority. exact Hq.
  - apply turn_sorted; assumption.
Qed.

Definition twoAtATime : RequestQueueConfig :=
  mkConfig (Some 3%Z) (Some 2%Z) None.

Definition byPriority : RequestQueueConfig :=
  mkConfig None (Some 1%Z) (Some true).

Definition busyDay : list Turn :=
  [Enqueue 1 None; Enqueue 2 None; Enqueue 3 None; Enqueue 4 None;
   Settle; Enqueue 5 None; Settle; Settle].

Definition rankedDay : list Turn :=
  [Enqueue 1 (Some 1%Z); Enqueue 2 (Some 5%Z); Enqueue 3 (Some 3%Z);
   Enqueue 4 (Some 5%Z)].

Lemma queue_keeps_its_slots_busy_and_bounded_witness :
  let q := fst (turns busyDay (constructor twoAtATime)) in
  (0 <= getRunning q <= concurrency q)%Z
  /\ (getSize q <> 0%Z -> getRunning q = concurrency q)
  /\ (forall b, maxSize q = Some b -> (getSize q <= Z.max b 0)%Z).
Proof.
  apply (queue_keeps_its_slots_busy_and_bounded twoAtATime busyDay).
  - intros c H. injection H as <-. lia.
  - reflexivity.
Defined.

Lemma queue_without_priorities_is_fifo_witness :
  started (snd (turns busyDay (constructor twoAtATime)))
  ++ waiting (fst (turns busyDay (constructor twoAtATime)))
  = [1; 2; 3; 4; 5]%nat.
Proof.
  refine (proj2 (queue_without_priorities_is_fifo twoAtATime busyDay _)
                eq_refl).
  discriminate.
Defined.

Lemma priority_queue_is_sorted_witness :
  StronglySorted descending
                 (queue (fst (turns rankedDay (constructor byPriority)))).
Proof.
  apply (priority_queue_is_sorted byPriority rankedDay).
  - reflexivity.
  - repeat constructor.
Defined.

End RequestQueueFacts.
